(** * lidar_eskf: the error-state Kalman filter of [src/eskf.cpp]

    A shallow embedding of the filter class [ESKF] and of the part of the
    [tf] and [Eigen] libraries it calls, followed by the properties of the
    propagation step, the correction step, the accelerometer smoothing
    queue, the event handling and the odometry output.  Of the
    particle-filter node of [src/gpf.cpp] the embedding has what does not
    depend on point clouds: the constructor, [odom_callback] and
    [compute_color].

    Scalars.  The source computes in IEEE [double]; the embedding computes
    in the real numbers of the Standard Library ([R]), the usual exact
    reading of a numerical algorithm.  Rounding, overflow and NaN are
    outside the model.  Integers ([int] counters and sizes) are [Z].  The
    one exception is the colour scale of [compute_color], which starts
    from the two infinities and can divide zero by zero: there a value is
    a real number, an infinity or a NaN. *)

From Stdlib Require Import Reals Lra Lia List ZArith Bool.
From Stdlib Require String.
From Stdlib Require Import QArith Qreals ClassicalEpsilon.
Import ListNotations.

(* ================================================================= *)
(** * Dense matrices in the style of Eigen

    [Eigen::Matrix<double, r, c>] is a row-major list of rows.  The section
    is generic in the scalar so that the same operations run on [R] (the
    model of the source) and on [Q] (to evaluate a scenario by
    computation). *)

Module Eigen.
Section Dense.
Context {T : Type}.
Variables (t0 t1 : T) (tadd tmul : T -> T -> T) (topp : T -> T).

Definition Matrix := list (list T).

Definition rows (A : Matrix) : nat := length A.
Definition cols (A : Matrix) : nat := length (hd [] A).

  (** [A(i,j)] *)
Definition coeff (A : Matrix) (i j : nat) : T := nth j (nth i A []) t0.

  (** [MatrixXd::Zero(r,c)], [MatrixXd::Identity(r,c)] *)
Definition Zero (r c : nat) : Matrix := repeat (repeat t0 c) r.
Definition Identity (r c : nat) : Matrix :=
    map (fun i => map (fun j => if Nat.eqb i j then t1 else t0) (seq 0 c))
        (seq 0 r).

Definition col (A : Matrix) (j : nat) : list T :=
    map (fun r => nth j r t0) A.

  (** [A.transpose()] *)
Definition transpose (A : Matrix) : Matrix := map (col A) (seq 0 (cols A)).

Fixpoint dot (u v : list T) : T :=
    match u, v with
    | a :: u', b :: v' => tadd (tmul a b) (dot u' v')
    | _, _ => t0
    end.

  (** [A * B] *)
Definition mul (A B : Matrix) : Matrix :=
    map (fun r => map (dot r) (transpose B)) A.

Fixpoint map2 {X Y Z : Type} (f : X -> Y -> Z) (u : list X) (v : list Y)
    : list Z :=
    match u, v with
    | a :: u', b :: v' => f a b :: map2 f u' v'
    | _, _ => []
    end.

  (** [A + B], [A - B], [-A], [s * A], [A * s] *)
Definition add (A B : Matrix) : Matrix := map2 (map2 tadd) A B.
Definition sub (A B : Matrix) : Matrix :=
    map2 (map2 (fun a b => tadd a (topp b))) A B.
Definition opp (A : Matrix) : Matrix := map (map topp) A.
Definition scale_l (s : T) (A : Matrix) : Matrix := map (map (tmul s)) A.
Definition scale_r (A : Matrix) (s : T) : Matrix :=
    map (map (fun a => tmul a s)) A.

  (** The comma initializer [M << B11, B12, ..., B21, ...] with blocks:
      each inner list is one row of blocks, laid side by side; the rows of
      blocks are stacked. *)
Definition hcat (A B : Matrix) : Matrix := map2 (@app T) A B.
Definition hcats (bs : list Matrix) : Matrix :=
    match bs with
    | [] => []
    | b :: bs' => fold_left hcat bs' b
    end.
Definition blocks (bss : list (list Matrix)) : Matrix :=
    concat (map hcats bss).

  (** [A.block<p,q>(i,j)] *)
Definition block (p q i j : nat) (A : Matrix) : Matrix :=
    map (fun r => firstn q (skipn j r)) (firstn p (skipn i A)).

  (** A column vector [Matrix<double, n, 1>] and its [v[i]]. *)
Definition colvec (l : list T) : Matrix := map (fun a => [a]) l.
Definition at_ (v : Matrix) (i : nat) : T := coeff v i 0.

  (** Shape of a fixed-size matrix type. *)
Definition shaped (r c : nat) (A : Matrix) : Prop :=
    length A = r /\ Forall (fun row => length row = c) A.

Definition trace (A : Matrix) : T :=
    fold_right tadd t0 (map (fun i => coeff A i i) (seq 0 (rows A))).
End Dense.

(** A scalar map applied to every entry. *)
Definition lift {T U : Type} (f : T -> U) (A : Matrix (T:=T)) : Matrix (T:=U) :=
  map (map f) A.
End Eigen.

Open Scope R_scope.

(** The matrix operations at the scalar type of the source. *)
Module RM.
Definition Matrix := @Eigen.Matrix R.
Definition coeff : Matrix -> nat -> nat -> R := Eigen.coeff 0.
Definition Zero : nat -> nat -> Matrix := Eigen.Zero 0.
Definition Identity : nat -> nat -> Matrix := Eigen.Identity 0 1.
Definition transpose : Matrix -> Matrix := Eigen.transpose 0.
Definition mul : Matrix -> Matrix -> Matrix := Eigen.mul 0 Rplus Rmult.
Definition add : Matrix -> Matrix -> Matrix := Eigen.add Rplus.
Definition sub : Matrix -> Matrix -> Matrix := Eigen.sub Rplus Ropp.
Definition opp : Matrix -> Matrix := Eigen.opp Ropp.
Definition scale_l : R -> Matrix -> Matrix := Eigen.scale_l Rmult.
Definition scale_r : Matrix -> R -> Matrix := Eigen.scale_r Rmult.
Definition blocks : list (list Matrix) -> Matrix := @Eigen.blocks R.
Definition block : nat -> nat -> nat -> nat -> Matrix -> Matrix :=
    @Eigen.block R.
Definition colvec : list R -> Matrix := @Eigen.colvec R.
Definition at_ : Matrix -> nat -> R := Eigen.at_ 0.
Definition trace : Matrix -> R := Eigen.trace 0 Rplus.
Definition shaped : nat -> nat -> Matrix -> Prop := @Eigen.shaped R.
End RM.

Declare Scope mat_scope.
Delimit Scope mat_scope with mat.
Infix "*m" := RM.mul (at level 40, left associativity) : mat_scope.
Infix "+m" := RM.add (at level 50, left associativity) : mat_scope.
Infix "-m" := RM.sub (at level 50, left associativity) : mat_scope.
Notation "A ^T" := (RM.transpose A) (at level 1, format "A ^T") : mat_scope.
Open Scope mat_scope.

(* ================================================================= *)
(** * The part of [tf] (LinearMath) the filter uses *)

Module tf.
Record Vector3 := mkVector3 { x : R; y : R; z : R }.
Record Quaternion := mkQuaternion { qx : R; qy : R; qz : R; qw : R }.
  (** [Matrix3x3] stores three row vectors [m_el[0..2]]. *)
Record Matrix3x3 := mkMatrix3x3 { r0 : Vector3; r1 : Vector3; r2 : Vector3 }.

Definition zero3 : Vector3 := mkVector3 0 0 0.               (* setZero *)
Definition vadd (u v : Vector3) : Vector3 :=
    mkVector3 (x u + x v) (y u + y v) (z u + z v).
Definition vsub (u v : Vector3) : Vector3 :=
    mkVector3 (x u - x v) (y u - y v) (z u - z v).
  (** [v * s]; [s * v] is defined in tf as [v * s]. *)
Definition vscale (v : Vector3) (s : R) : Vector3 :=
    mkVector3 (x v * s) (y v * s) (z v * s).
Definition sscale (s : R) (v : Vector3) : Vector3 := vscale v s.
Definition dot (u v : Vector3) : R := x u * x v + y u * y v + z u * z v.

Definition setValue (xx xy xz yx yy yz zx zy zz : R) : Matrix3x3 :=
    mkMatrix3x3 (mkVector3 xx xy xz) (mkVector3 yx yy yz) (mkVector3 zx zy zz).
Definition identity : Matrix3x3 := setValue 1 0 0  0 1 0  0 0 1.

  (** [m * v] *)
Definition mv (m : Matrix3x3) (v : Vector3) : Vector3 :=
    mkVector3 (dot (r0 m) v) (dot (r1 m) v) (dot (r2 m) v).

  (** [m.tdotx(v)], [m.tdoty(v)], [m.tdotz(v)]: a column of [m] times [v]. *)
Definition tdotx (m : Matrix3x3) (v : Vector3) : R :=
    x (r0 m) * x v + x (r1 m) * y v + x (r2 m) * z v.
Definition tdoty (m : Matrix3x3) (v : Vector3) : R :=
    y (r0 m) * x v + y (r1 m) * y v + y (r2 m) * z v.
Definition tdotz (m : Matrix3x3) (v : Vector3) : R :=
    z (r0 m) * x v + z (r1 m) * y v + z (r2 m) * z v.

  (** [m1 * m2] (and [m1 *= m2]) *)
Definition mm (m1 m2 : Matrix3x3) : Matrix3x3 :=
    setValue (tdotx m2 (r0 m1)) (tdoty m2 (r0 m1)) (tdotz m2 (r0 m1))
             (tdotx m2 (r1 m1)) (tdoty m2 (r1 m1)) (tdotz m2 (r1 m1))
             (tdotx m2 (r2 m1)) (tdoty m2 (r2 m1)) (tdotz m2 (r2 m1)).

  (** [Matrix3x3::setRPY(roll, pitch, yaw)], which is
      [setEulerYPR(yaw, pitch, roll)]: the rotation built from three Euler
      angles about the fixed axes X, Y, Z. *)
Definition setEulerYPR (eulerZ eulerY eulerX : R) : Matrix3x3 :=
    let ci := cos eulerX in
    let cj := cos eulerY in
    let ch := cos eulerZ in
    let si := sin eulerX in
    let sj := sin eulerY in
    let sh := sin eulerZ in
    let cc := ci * ch in
    let cs := ci * sh in
    let sc := si * ch in
    let ss := si * sh in
    setValue (cj * ch) (sj * sc - cs) (sj * cc + ss)
             (cj * sh) (sj * ss + cc) (sj * cs - sc)
             (- sj)    (cj * si)      (cj * ci).
Definition setRPY (roll pitch yaw : R) : Matrix3x3 :=
    setEulerYPR yaw pitch roll.

  (** [tf::matrixTFToEigen] *)
Definition matrixTFToEigen (m : Matrix3x3) : RM.Matrix :=
    [ [x (r0 m); y (r0 m); z (r0 m)];
      [x (r1 m); y (r1 m); z (r1 m)];
      [x (r2 m); y (r2 m); z (r2 m)] ].
End tf.

(* ================================================================= *)
(** * Messages *)

Module msg.
Module frame.
Import String.
Definition world : string := "world"%string.
End frame.

  (** [ros::Time] and [toSec()] *)
Record Time := mkTime { sec : Z; nsec : Z }.
Definition toSec (t : Time) : R := IZR (sec t) + 1e-9 * IZR (nsec t).

  (** [geometry_msgs::Vector3] (also used for [Point]) and [Quaternion] *)
Record Vector3 := mkVector3 { x : R; y : R; z : R }.
Record Quaternion := mkQuaternion { qx : R; qy : R; qz : R; qw : R }.

  (** [sensor_msgs::Imu]: the fields the filter reads. *)
Record Imu := mkImu {
    imu_stamp : Time;
    orientation : Quaternion;
    angular_velocity : Vector3;
    linear_acceleration : Vector3 }.

  (** [nav_msgs::Odometry]; the covariances are the 36-element arrays. *)
Record Odometry := mkOdometry {
    odom_frame_id : String.string;
    odom_stamp : Time;
    pose_position : Vector3;
    pose_orientation : Quaternion;
    pose_covariance : list R;
    twist_linear : Vector3;
    twist_angular : Vector3;
    twist_covariance : list R }.

  (** [geometry_msgs::TwistStamped] *)
Record TwistStamped := mkTwistStamped {
    ts_frame_id : String.string;
    ts_stamp : Time;
    ts_linear : Vector3;
    ts_angular : Vector3 }.

  (** [tf::vector3MsgToTF] *)
Definition vector3MsgToTF (v : Vector3) : tf.Vector3 :=
    tf.mkVector3 (x v) (y v) (z v).
End msg.

(** What a callback hands to its publishers. *)
Inductive Output :=
| bias_pub (m : msg.TwistStamped)
| odom_pub (m : msg.Odometry).

(** The library conversions whose bodies lie outside the repository and on
    whose internals no property below depends: the quaternion of a rotation
    matrix and back, the roll/pitch/yaw of a rotation matrix, the quaternion
    of roll/pitch/yaw, and Eigen's matrix inverse. *)
Class Library := {
  getRotation : tf.Matrix3x3 -> tf.Quaternion;
  setRotation : tf.Quaternion -> tf.Matrix3x3;
  getRPY : tf.Matrix3x3 -> R * R * R;
  quaternion_setRPY : R -> R -> R -> tf.Quaternion;
  inverse : RM.Matrix -> RM.Matrix }.

(* ================================================================= *)
(** * The filter state: the data members of [class ESKF]

    The members are grouped as the constructor groups them. *)

(** Values read by [nh.param]. *)
Record Params := mkParams {
  _imu_freq : R;
  _sigma_acc : R;
  _sigma_gyr : R;
  _sigma_bias_acc : R;
  _sigma_bias_gyr : R;
  _g : R;
  _init_bias_acc_x : R;
  _init_bias_acc_y : R;
  _init_bias_acc_z : R;
  _acc_queue_size : Z }.

(** Nominal states. *)
Record Nominal := mkNominal {
  _velocity : tf.Vector3;
  _rotation : tf.Matrix3x3;
  _quaternion : tf.Quaternion;
  _position : tf.Vector3;
  _bias_acc : tf.Vector3;
  _bias_gyr : tf.Vector3 }.

(** Error states. *)
Record Error := mkError {
  _d_velocity : tf.Vector3;
  _d_theta : tf.Vector3;
  _d_rotation : tf.Matrix3x3;
  _d_position : tf.Vector3;
  _d_bias_acc : tf.Vector3;
  _d_bias_gyr : tf.Vector3 }.

(** The inertial sample in use. *)
Record ImuData := mkImuData {
  _imu_acceleration : tf.Vector3;
  _imu_angular_velocity : tf.Vector3;
  _imu_orientation : tf.Quaternion }.

(** The stored measurement and its flag. *)
Record Measurements := mkMeasurements {
  _m_velocity : tf.Vector3;
  _m_rotation : tf.Matrix3x3;
  _m_quaternion : tf.Quaternion;
  _m_position : tf.Vector3;
  _m_theta : tf.Vector3;
  _got_measurements : bool;
  _m_pose_sigma : RM.Matrix;      (* 6 x 6 *)
  _m_twist_sigma : RM.Matrix }.   (* 6 x 6 *)

(** Jacobians and covariances. *)
Record Covariances := mkCovariances {
  _Fx : RM.Matrix;                (* 15 x 15 *)
  _Fn : RM.Matrix;                (* 15 x 12 *)
  _Sigma : RM.Matrix;             (* 15 x 15 *)
  _Q : RM.Matrix }.               (* 12 x 12 *)

Record Clock := mkClock {
  _init_time : bool;
  _dt : R;
  _imu_time : msg.Time }.

(** The acceleration queue, a [std::vector], and its [int] counter. *)
Record AccQueue := mkAccQueue {
  _acc_queue : list msg.Vector3;
  _acc_queue_count : Z }.

Record ESKF := mkESKF {
  params : Params;
  nominal : Nominal;
  error : Error;
  imu : ImuData;
  meas : Measurements;
  cov : Covariances;
  _gravity : tf.Vector3;
  clock : Clock;
  queue : AccQueue }.

Definition with_nominal (n : Nominal) (f : ESKF) : ESKF :=
  mkESKF (params f) n (error f) (imu f) (meas f) (cov f) (_gravity f)
         (clock f) (queue f).
Definition with_error (e : Error) (f : ESKF) : ESKF :=
  mkESKF (params f) (nominal f) e (imu f) (meas f) (cov f) (_gravity f)
         (clock f) (queue f).
Definition with_imu (i : ImuData) (f : ESKF) : ESKF :=
  mkESKF (params f) (nominal f) (error f) i (meas f) (cov f) (_gravity f)
         (clock f) (queue f).
Definition with_meas (m : Measurements) (f : ESKF) : ESKF :=
  mkESKF (params f) (nominal f) (error f) (imu f) m (cov f) (_gravity f)
         (clock f) (queue f).
Definition with_cov (c : Covariances) (f : ESKF) : ESKF :=
  mkESKF (params f) (nominal f) (error f) (imu f) (meas f) c (_gravity f)
         (clock f) (queue f).
Definition with_clock (c : Clock) (f : ESKF) : ESKF :=
  mkESKF (params f) (nominal f) (error f) (imu f) (meas f) (cov f)
         (_gravity f) c (queue f).
Definition with_queue (q : AccQueue) (f : ESKF) : ESKF :=
  mkESKF (params f) (nominal f) (error f) (imu f) (meas f) (cov f)
         (_gravity f) (clock f) q.

(** The parameter server: a parameter is set or absent. *)
Record NodeHandle := mkNodeHandle {
  imu_frequency : option R;
  sigma_acceleration : option R;
  sigma_gyroscop : option R;
  sigma_acceleration_bias : option R;
  sigma_gyroscope_bias : option R;
  gravity : option R;
  init_bias_acc_x : option R;
  init_bias_acc_y : option R;
  init_bias_acc_z : option R;
  acc_queue_size : option Z }.

(** [nh.param(name, var, default)] *)
Definition param {A : Type} (v : option A) (default : A) : A :=
  match v with Some a => a | None => default end.

(** Members the constructor leaves without a value: [_dt], [_imu_time] and
    the two measurement covariances hold whatever they hold. *)
Record Indeterminate := mkIndeterminate {
  any_dt : R;
  any_imu_time : msg.Time;
  any_m_pose_sigma : RM.Matrix;
  any_m_twist_sigma : RM.Matrix }.

(* ================================================================= *)
(** * The methods of [ESKF] *)

(** [v[i] = a] on a [std::vector]; the source never writes out of range
    when [_acc_queue_size >= 1]. *)
Fixpoint assign {A : Type} (l : list A) (i : nat) (a : A) : list A :=
  match l, i with
  | [], _ => []
  | _ :: l', O => a :: l'
  | b :: l', S i' => b :: assign l' i' a
  end.

(** The 36-element covariance array of a message and a 6 x 6 matrix:
    [array[6*i+j] = M(i,j)] and [M(i,j) = array[6*i+j]] for [i, j < 6]. *)
Definition to_array6 (M : RM.Matrix) : list R :=
  flat_map (fun i => map (fun j => RM.coeff M i j) (seq 0 6)) (seq 0 6).
Definition of_array6 (a : list R) : RM.Matrix :=
  map (fun i => map (fun j => nth (6 * i + j) a 0) (seq 0 6)) (seq 0 6).

Definition vec_to_rot (w : tf.Vector3) : tf.Matrix3x3 :=
  tf.setRPY (tf.x w) (tf.y w) (tf.z w).

Definition skew (w : tf.Vector3) : tf.Matrix3x3 :=
  tf.setValue 0          (- tf.z w) (tf.y w)
              (tf.z w)   0          (- tf.x w)
              (- tf.y w) (tf.x w)   0.

Definition I3 : RM.Matrix := RM.Identity 3 3.
Definition Z3 : RM.Matrix := RM.Zero 3 3.

Section Filter.
Context {lib : Library}.

  (** [ESKF::ESKF] *)
Definition ESKF_ESKF (nh : NodeHandle) (u : Indeterminate) : ESKF :=
    let p := mkParams (param (imu_frequency nh) 50.0)
                      (param (sigma_acceleration nh) 0.1)
                      (param (sigma_gyroscop nh) 0.01)
                      (param (sigma_acceleration_bias nh) 0.0001)
                      (param (sigma_gyroscope_bias nh) 0.00001)
                      (param (gravity nh) 9.82)
                      (param (init_bias_acc_x nh) 0.0)
                      (param (init_bias_acc_y nh) 0.0)
                      (param (init_bias_acc_z nh) 0.0)
                      (param (acc_queue_size nh) 5%Z) in
    {| params := p;
       nominal :=
         {| _velocity := tf.zero3;
            _rotation := tf.identity;
            _quaternion := quaternion_setRPY 0.0 0.0 0.0;
            _position := tf.zero3;
            _bias_acc := tf.mkVector3 (_init_bias_acc_x p) (_init_bias_acc_y p)
                                      (_init_bias_acc_z p);
            _bias_gyr := tf.zero3 |};
       error :=
         {| _d_velocity := tf.zero3;
            _d_theta := tf.zero3;
            _d_rotation := tf.identity;
            _d_position := tf.zero3;
            _d_bias_acc := tf.zero3;
            _d_bias_gyr := tf.zero3 |};
       imu :=
         {| _imu_acceleration := tf.zero3;
            _imu_angular_velocity := tf.zero3;
            _imu_orientation := quaternion_setRPY 0.0 0.0 0.0 |};
       meas :=
         {| _m_velocity := tf.zero3;
            _m_rotation := tf.identity;
            _m_quaternion := quaternion_setRPY 0.0 0.0 0.0;
            _m_position := tf.zero3;
            _m_theta := tf.zero3;
            _got_measurements := false;
            _m_pose_sigma := any_m_pose_sigma u;
            _m_twist_sigma := any_m_twist_sigma u |};
       cov :=
         {| _Fx := RM.Zero 15 15;
            _Fn := RM.Zero 15 12;
            _Sigma := RM.Zero 15 15;
            _Q := RM.Zero 12 12 |};
       _gravity := tf.mkVector3 0.0 0.0 (_g p);
       clock :=
         {| _init_time := true;
            _dt := any_dt u;
            _imu_time := any_imu_time u |};
       queue := {| _acc_queue := []; _acc_queue_count := 0%Z |} |}.

  (** [ESKF::update_time] *)
Definition update_time (m : msg.Imu) (f : ESKF) : ESKF :=
    let c := clock f in
    let dt_init :=
      if _init_time c
      then (1.0 / _imu_freq (params f), false)
      else (msg.toSec (msg.imu_stamp m) - msg.toSec (_imu_time c),
            _init_time c) in
    with_clock {| _init_time := snd dt_init;
                  _dt := fst dt_init;
                  _imu_time := msg.imu_stamp m |} f.

  (** The averaging loop of [update_imu] over the queue [q] of size [n]. *)
Definition acc_avg (q : list msg.Vector3) (n : Z) : tf.Vector3 :=
    fold_left
      (fun avg i =>
         let s := nth i q (msg.mkVector3 0 0 0) in
         tf.mkVector3 (tf.x avg + msg.x s / IZR n)
                      (tf.y avg + msg.y s / IZR n)
                      (tf.z avg + msg.z s / IZR n))
      (seq 0 (Z.to_nat n)) tf.zero3.

  (** [ESKF::update_imu].  The counter is incremented without a bound; the
      source's [int] would overflow after 2^31 - 1 samples. *)
Definition update_imu (m : msg.Imu) (f : ESKF) : ESKF :=
    let q := queue f in
    let n := _acc_queue_size (params f) in
    let count := _acc_queue_count q in
    let queue_acc :=
      if (count <? n)%Z
      then (_acc_queue q ++ [msg.linear_acceleration m],
            msg.vector3MsgToTF (msg.linear_acceleration m))
      else
        let q' := assign (_acc_queue q) (Z.to_nat (Z.rem count n))
                         (msg.linear_acceleration m) in
        (q', acc_avg q' n) in
    let w := msg.angular_velocity m in
    let o := msg.orientation m in
    with_imu {| _imu_acceleration := snd queue_acc;
                _imu_angular_velocity :=
                  tf.mkVector3 (msg.x w) (msg.y w) (msg.z w);
                _imu_orientation :=
                  tf.mkQuaternion (msg.qx o) (msg.qy o) (msg.qz o) (msg.qw o) |}
      (with_queue {| _acc_queue := fst queue_acc;
                     _acc_queue_count := (count + 1)%Z |} f).

  (** [ESKF::propagate_state] *)
Definition propagate_state (f : ESKF) : ESKF :=
    let n := nominal f in
    let a := _imu_acceleration (imu f) in
    let w := _imu_angular_velocity (imu f) in
    let dt := _dt (clock f) in
    let velocity :=
      tf.vadd (_velocity n)
        (tf.vscale
           (tf.vadd (tf.mv (_rotation n) (tf.vsub a (_bias_acc n)))
                    (_gravity f)) dt) in
    let rotation :=
      tf.mm (_rotation n) (vec_to_rot (tf.vscale (tf.vsub w (_bias_gyr n)) dt)) in
    let position :=
      tf.vadd (tf.vadd (_position n) (tf.vscale (_velocity n) dt))
        (tf.vscale
           (tf.vscale
              (tf.sscale 0.5
                 (tf.vadd (tf.mv (_rotation n) (tf.vsub a (_bias_acc n)))
                          (_gravity f))) dt) dt) in
    let bias_acc := _bias_acc n in
    let bias_gyr := _bias_gyr n in
    with_nominal {| _velocity := velocity;
                    _rotation := rotation;
                    _quaternion := getRotation rotation;
                    _position := position;
                    _bias_acc := bias_acc;
                    _bias_gyr := bias_gyr |} f.

  (** [ESKF::propagate_error]: its body is empty. *)
Definition propagate_error (f : ESKF) : ESKF := f.

  (** The three matrices [propagate_covariance] assembles. *)
Definition jacobian_Fx (f : ESKF) : RM.Matrix :=
    let n := nominal f in
    let dt := _dt (clock f) in
    let R := tf.matrixTFToEigen (_rotation n) in
    let R_1 := tf.matrixTFToEigen
                 (skew (tf.vsub (_imu_acceleration (imu f)) (_bias_acc n))) in
    let R_2 := tf.matrixTFToEigen
                 (vec_to_rot
                    (tf.vscale
                       (tf.vsub (_imu_angular_velocity (imu f)) (_bias_gyr n))
                       dt)) in
    RM.blocks
      [ [I3; RM.scale_r (RM.opp R *m R_1) dt; Z3; RM.scale_r (RM.opp R) dt; Z3];
        [Z3; R_2^T; Z3; Z3; RM.scale_r (RM.opp I3) dt];
        [RM.scale_r I3 dt; Z3; I3; Z3; Z3];
        [Z3; Z3; Z3; I3; Z3];
        [Z3; Z3; Z3; Z3; I3] ].

Definition jacobian_Fn (f : ESKF) : RM.Matrix :=
    let R := tf.matrixTFToEigen (_rotation (nominal f)) in
    RM.blocks
      [ [R; Z3; Z3; Z3];
        [Z3; I3; Z3; Z3];
        [Z3; Z3; Z3; Z3];
        [Z3; Z3; I3; Z3];
        [Z3; Z3; Z3; I3] ].

Definition noise_Q (f : ESKF) : RM.Matrix :=
    let p := params f in
    let dt := _dt (clock f) in
    RM.blocks
      [ [RM.scale_l ((_sigma_acc p * dt) ^ 2) I3; Z3; Z3; Z3];
        [Z3; RM.scale_l ((_sigma_gyr p * dt) ^ 2) I3; Z3; Z3];
        [Z3; Z3; RM.scale_l ((_sigma_bias_acc p * dt) ^ 2) I3; Z3];
        [Z3; Z3; Z3; RM.scale_l ((_sigma_bias_gyr p * dt) ^ 2) I3] ].

  (** [ESKF::propagate_covariance] *)
Definition propagate_covariance (f : ESKF) : ESKF :=
    let Fx := jacobian_Fx f in
    let Fn := jacobian_Fn f in
    let Q := noise_Q f in
    with_cov {| _Fx := Fx;
                _Fn := Fn;
                _Sigma := Fx *m _Sigma (cov f) *m Fx^T +m Fn *m Q *m Fn^T;
                _Q := Q |} f.

  (** The two 6 x 6 blocks [publish_odom] assembles. *)
Definition pose_sigma (f : ESKF) : RM.Matrix :=
    let S := _Sigma (cov f) in
    let R := tf.matrixTFToEigen (_rotation (nominal f)) in
    RM.blocks
      [ [RM.block 3 3 6 6 S;      RM.block 3 3 3 6 S *m R^T];
        [R *m RM.block 3 3 6 3 S; R *m RM.block 3 3 3 3 S *m R^T] ].

Definition twist_sigma (f : ESKF) : RM.Matrix :=
    let S := _Sigma (cov f) in
    let R := tf.matrixTFToEigen (_rotation (nominal f)) in
    RM.blocks
      [ [RM.block 3 3 0 0 S; RM.Zero 3 3 *m R^T];
        [R *m RM.Zero 3 3;
         RM.scale_r R (_sigma_gyr (params f)) *m RM.Identity 3 3 *m R^T] ].

  (** [ESKF::publish_odom]: the message handed to [_odom_pub]. *)
Definition publish_odom (f : ESKF) : msg.Odometry :=
    let n := nominal f in
    {| msg.odom_frame_id := msg.frame.world;
       msg.odom_stamp := _imu_time (clock f);
       msg.pose_position :=
         msg.mkVector3 (tf.x (_position n)) (tf.y (_position n))
                       (tf.z (_position n));
       msg.pose_orientation :=
         msg.mkQuaternion (tf.qx (_quaternion n)) (tf.qy (_quaternion n))
                          (tf.qz (_quaternion n)) (tf.qw (_quaternion n));
       msg.pose_covariance := to_array6 (pose_sigma f);
       msg.twist_linear :=
         msg.mkVector3 (tf.x (_velocity n)) (tf.y (_velocity n))
                       (tf.z (_velocity n));
       msg.twist_angular :=
         msg.mkVector3 (tf.x (_imu_angular_velocity (imu f)))
                       (tf.y (_imu_angular_velocity (imu f)))
                       (tf.z (_imu_angular_velocity (imu f)));
       msg.twist_covariance := to_array6 (twist_sigma f) |}.

  (** [ESKF::publish_bias]: the message handed to [_bias_pub]. *)
Definition publish_bias (f : ESKF) : msg.TwistStamped :=
    let n := nominal f in
    {| msg.ts_frame_id := msg.frame.world;
       msg.ts_stamp := _imu_time (clock f);
       msg.ts_linear :=
         msg.mkVector3 (tf.x (_bias_acc n)) (tf.y (_bias_acc n))
                       (tf.z (_bias_acc n));
       msg.ts_angular :=
         msg.mkVector3 (tf.x (_bias_gyr n)) (tf.y (_bias_gyr n))
                       (tf.z (_bias_gyr n)) |}.

  (** [ESKF::measurement_callback] *)
Definition measurement_callback (m : msg.Odometry) (f : ESKF) : ESKF :=
    let q := msg.pose_orientation m in
    let m_quaternion :=
      tf.mkQuaternion (msg.qx q) (msg.qy q) (msg.qz q) (msg.qw q) in
    let m_rotation := setRotation m_quaternion in
    let rpy := getRPY m_rotation in
    with_meas
      {| _m_velocity :=
           tf.mkVector3 (msg.x (msg.twist_linear m)) (msg.y (msg.twist_linear m))
                        (msg.z (msg.twist_linear m));
         _m_rotation := m_rotation;
         _m_quaternion := m_quaternion;
         _m_position :=
           tf.mkVector3 (msg.x (msg.pose_position m))
                        (msg.y (msg.pose_position m))
                        (msg.z (msg.pose_position m));
         _m_theta := tf.mkVector3 (fst (fst rpy)) (snd (fst rpy)) (snd rpy);
         _got_measurements := true;
         _m_pose_sigma := of_array6 (msg.pose_covariance m);
         _m_twist_sigma := of_array6 (msg.twist_covariance m) |} f.

  (** The locals of [update_error]. *)
Definition obs_H : RM.Matrix :=
    RM.blocks [ [Z3; I3; Z3; Z3; Z3];
                [Z3; Z3; I3; Z3; Z3] ].

Definition obs_y (f : ESKF) : RM.Matrix :=
    let m := meas f in
    RM.colvec [ tf.x (_m_theta m);    tf.y (_m_theta m);    tf.z (_m_theta m);
                tf.x (_m_position m); tf.y (_m_position m); tf.z (_m_position m) ].

Definition error_x (f : ESKF) : RM.Matrix :=
    let e := error f in
    RM.colvec
      [ tf.x (_d_velocity e); tf.y (_d_velocity e); tf.z (_d_velocity e);
        tf.x (_d_theta e);    tf.y (_d_theta e);    tf.z (_d_theta e);
        tf.x (_d_position e); tf.y (_d_position e); tf.z (_d_position e);
        tf.x (_d_bias_acc e); tf.y (_d_bias_acc e); tf.z (_d_bias_acc e);
        tf.x (_d_bias_gyr e); tf.y (_d_bias_gyr e); tf.z (_d_bias_gyr e) ].

Definition innovation_cov (f : ESKF) : RM.Matrix :=
    obs_H *m _Sigma (cov f) *m obs_H^T +m _m_pose_sigma (meas f).

Definition gain_K (f : ESKF) : RM.Matrix :=
    _Sigma (cov f) *m obs_H^T *m inverse (innovation_cov f).

  (** [ESKF::update_error] *)
Definition update_error (f : ESKF) : ESKF :=
    let H := obs_H in
    let y := obs_y f in
    let x := error_x f in
    let K := gain_K f in
    let x := K *m (y -m H *m x) in
    let d_theta := tf.mkVector3 (RM.at_ x 3) (RM.at_ x 4) (RM.at_ x 5) in
    let M := RM.Identity 15 15 -m K *m H in
    with_cov
      {| _Fx := _Fx (cov f);
         _Fn := _Fn (cov f);
         _Sigma := M *m _Sigma (cov f) *m M^T
                   +m K *m _m_pose_sigma (meas f) *m K^T;
         _Q := _Q (cov f) |}
      (with_error
         {| _d_velocity := tf.mkVector3 (RM.at_ x 0) (RM.at_ x 1) (RM.at_ x 2);
            _d_theta := d_theta;
            _d_rotation := tf.setRPY (tf.x d_theta) (tf.y d_theta) (tf.z d_theta);
            _d_position := tf.mkVector3 (RM.at_ x 6) (RM.at_ x 7) (RM.at_ x 8);
            _d_bias_acc := tf.mkVector3 (RM.at_ x 9) (RM.at_ x 10) (RM.at_ x 11);
            _d_bias_gyr := tf.mkVector3 (RM.at_ x 12) (RM.at_ x 13) (RM.at_ x 14) |}
         f).

  (** [ESKF::update_state] *)
Definition update_state (f : ESKF) : ESKF :=
    let n := nominal f in
    let e := error f in
    let rotation := tf.mm (_rotation n) (_d_rotation e) in
    with_nominal
      {| _velocity := tf.vadd (_velocity n) (_d_velocity e);
         _rotation := rotation;
         _quaternion := getRotation rotation;
         _position := tf.vadd (_position n) (_d_position e);
         _bias_acc := tf.vadd (_bias_acc n) (_d_bias_acc e);
         _bias_gyr := tf.vadd (_bias_gyr n) (_d_bias_gyr e) |} f.

  (** [ESKF::reset_error] *)
Definition reset_error (f : ESKF) : ESKF :=
    with_error
      {| _d_velocity := tf.zero3;
         _d_theta := tf.zero3;
         _d_rotation := tf.identity;
         _d_position := tf.zero3;
         _d_bias_acc := tf.zero3;
         _d_bias_gyr := tf.zero3 |} f.

Definition clear_got_measurements (f : ESKF) : ESKF :=
    let m := meas f in
    with_meas
      {| _m_velocity := _m_velocity m;
         _m_rotation := _m_rotation m;
         _m_quaternion := _m_quaternion m;
         _m_position := _m_position m;
         _m_theta := _m_theta m;
         _got_measurements := false;
         _m_pose_sigma := _m_pose_sigma m;
         _m_twist_sigma := _m_twist_sigma m |} f.

  (** The three propagation calls that open [imu_callback]. *)
Definition propagate (f : ESKF) : ESKF :=
    propagate_covariance (propagate_error (propagate_state f)).

  (** The measurement update inside the [if] of [imu_callback]. *)
Definition correct (f : ESKF) : ESKF :=
    reset_error (update_state (update_error f)).

  (** [ESKF::imu_callback]: the new state and what was published, in
      order. *)
Definition imu_callback (m : msg.Imu) (f : ESKF) : ESKF * list Output :=
    let f := update_time m f in
    let f := update_imu m f in
    let f := propagate f in
    if _got_measurements (meas f)
    then
      let f := correct f in
      let b := publish_bias f in
      let f := clear_got_measurements f in
      (f, [bias_pub b; odom_pub (publish_odom f)])
    else (f, [odom_pub (publish_odom f)]).

  (** The two kinds of event and the event loop: each event is handled to
      completion before the next. *)
Inductive Event :=
  | imu_event (m : msg.Imu)
  | measurement_event (m : msg.Odometry).

Definition handle (ev : Event) (f : ESKF) : ESKF * list Output :=
    match ev with
    | imu_event m => imu_callback m f
    | measurement_event m => (measurement_callback m f, [])
    end.

Fixpoint run (evs : list Event) (f : ESKF) : ESKF * list Output :=
    match evs with
    | [] => (f, [])
    | ev :: evs' =>
        let '(f1, out1) := handle ev f in
        let '(f2, out2) := run evs' f1 in
        (f2, out1 ++ out2)
    end.
End Filter.

(** [B] is a two-sided inverse of the square matrix [A]; [A] is
    invertible; and what is assumed of Eigen's [inverse()]: on an invertible
    matrix it returns a two-sided inverse. *)
Definition is_inverse (A B : RM.Matrix) : Prop :=
  RM.shaped (length A) (length A) B /\
  A *m B = RM.Identity (length A) (length A) /\
  B *m A = RM.Identity (length A) (length A).
Definition invertible (A : RM.Matrix) : Prop := exists B, is_inverse A B.
Definition inverse_contract (lib : Library) : Prop :=
  forall A, invertible A -> is_inverse A (inverse A).

(* ================================================================= *)
(** * A reference instance of the library conversions

    The properties below hold for every [Library]; closed examples need
    one.  This instance follows the formulas of tf's LinearMath and takes
    for the matrix inverse the two-sided inverse whenever one exists. *)

Module Reference.
Definition atan2 (b a : R) : R :=
    if Rlt_dec 0 a then atan (b / a)
    else if Rlt_dec a 0
         then (if Rle_dec 0 b then atan (b / a) + PI else atan (b / a) - PI)
         else if Rlt_dec 0 b then PI / 2
              else if Rlt_dec b 0 then - PI / 2 else 0.

Definition getRotation (m : tf.Matrix3x3) : tf.Quaternion :=
    let xx := tf.x (tf.r0 m) in let xy := tf.y (tf.r0 m) in
    let xz := tf.z (tf.r0 m) in
    let yx := tf.x (tf.r1 m) in let yy := tf.y (tf.r1 m) in
    let yz := tf.z (tf.r1 m) in
    let zx := tf.x (tf.r2 m) in let zy := tf.y (tf.r2 m) in
    let zz := tf.z (tf.r2 m) in
    let tr := xx + yy + zz in
    if Rlt_dec 0 tr then
      let s := sqrt (tr + 1) in
      let h := 0.5 / s in
      tf.mkQuaternion ((zy - yz) * h) ((xz - zx) * h) ((yx - xy) * h) (s * 0.5)
    else if Rlt_dec xx yy then
      if Rlt_dec yy zz then
        let s := sqrt (zz - xx - yy + 1) in
        let h := 0.5 / s in
        tf.mkQuaternion ((xz + zx) * h) ((yz + zy) * h) (s * 0.5) ((yx - xy) * h)
      else
        let s := sqrt (yy - zz - xx + 1) in
        let h := 0.5 / s in
        tf.mkQuaternion ((xy + yx) * h) (s * 0.5) ((zy + yz) * h) ((xz - zx) * h)
    else if Rlt_dec xx zz then
      let s := sqrt (zz - xx - yy + 1) in
      let h := 0.5 / s in
      tf.mkQuaternion ((xz + zx) * h) ((yz + zy) * h) (s * 0.5) ((yx - xy) * h)
    else
      let s := sqrt (xx - yy - zz + 1) in
      let h := 0.5 / s in
      tf.mkQuaternion (s * 0.5) ((yx + xy) * h) ((zx + xz) * h) ((zy - yz) * h).

Definition setRotation (q : tf.Quaternion) : tf.Matrix3x3 :=
    let d := tf.qx q * tf.qx q + tf.qy q * tf.qy q + tf.qz q * tf.qz q
             + tf.qw q * tf.qw q in
    let s := 2 / d in
    let xs := tf.qx q * s in let ys := tf.qy q * s in let zs := tf.qz q * s in
    let wx := tf.qw q * xs in let wy := tf.qw q * ys in let wz := tf.qw q * zs in
    let xx := tf.qx q * xs in let xy := tf.qx q * ys in let xz := tf.qx q * zs in
    let yy := tf.qy q * ys in let yz := tf.qy q * zs in let zz := tf.qz q * zs in
    tf.setValue (1 - (yy + zz)) (xy - wz) (xz + wy)
                (xy + wz) (1 - (xx + zz)) (yz - wx)
                (xz - wy) (yz + wx) (1 - (xx + yy)).

Definition getRPY (m : tf.Matrix3x3) : R * R * R :=
    let zx := tf.x (tf.r2 m) in
    if Rle_dec 1 (Rabs zx) then
      let delta := atan2 (tf.y (tf.r2 m)) (tf.z (tf.r2 m)) in
      if Rlt_dec zx 0 then (delta, PI / 2, 0) else (delta, - PI / 2, 0)
    else
      let pitch := - asin zx in
      (atan2 (tf.y (tf.r2 m) / cos pitch) (tf.z (tf.r2 m) / cos pitch),
       pitch,
       atan2 (tf.x (tf.r1 m) / cos pitch) (tf.x (tf.r0 m) / cos pitch)).

Definition quaternion_setRPY (roll pitch yaw : R) : tf.Quaternion :=
    let cy := cos (yaw * 0.5) in let sy := sin (yaw * 0.5) in
    let cp := cos (pitch * 0.5) in let sp := sin (pitch * 0.5) in
    let cr := cos (roll * 0.5) in let sr := sin (roll * 0.5) in
    tf.mkQuaternion (sr * cp * cy - cr * sp * sy)
                    (cr * sp * cy + sr * cp * sy)
                    (cr * cp * sy - sr * sp * cy)
                    (cr * cp * cy + sr * sp * sy).

  (** The two-sided inverse of [A] whenever there is one. *)
Definition inverse (A : RM.Matrix) : RM.Matrix :=
    epsilon (inhabits []) (is_inverse A).

Definition library : Library :=
    Build_Library getRotation setRotation getRPY quaternion_setRPY inverse.
End Reference.

(* ================================================================= *)
(** * The particle-filter node of [src/gpf.cpp]

    Of [class GPF]: the members that the constructor and [odom_callback]
    write, with the mean vectors and covariances of the sizes the bodies
    use (6 and 6 x 6), and [compute_color].  The point cloud, the distance
    map and the particle set are not part of these sources. *)

(** [tf::Vector3::setX], [setY], [setZ] *)
Definition setX (v : tf.Vector3) (a : R) : tf.Vector3 :=
  tf.mkVector3 a (tf.y v) (tf.z v).
Definition setY (v : tf.Vector3) (a : R) : tf.Vector3 :=
  tf.mkVector3 (tf.x v) a (tf.z v).
Definition setZ (v : tf.Vector3) (a : R) : tf.Vector3 :=
  tf.mkVector3 (tf.x v) (tf.y v) a.

Record GPF := mkGPF {
  _position_prior : tf.Vector3;
  _theta_prior : tf.Vector3;
  _rotation_prior : tf.Matrix3x3;
  _quaternion_prior : tf.Quaternion;
  _mean_prior : RM.Matrix;        (* 6 x 1 *)
  _mean_posterior : RM.Matrix;    (* 6 x 1 *)
  _mean_meas : RM.Matrix;         (* 6 x 1 *)
  _cov_prior : RM.Matrix;         (* 6 x 6 *)
  _cov_posterior : RM.Matrix;     (* 6 x 6 *)
  _cov_meas : RM.Matrix }.        (* 6 x 6 *)

Section Prior.
Context {lib : Library}.

  (** [GPF::GPF] *)
Definition GPF_GPF : GPF :=
  {| _position_prior := tf.zero3;
     _theta_prior := tf.zero3;
     _rotation_prior := tf.identity;
     _quaternion_prior := quaternion_setRPY 0.0 0.0 0.0;
     _mean_prior := RM.Zero 6 1;
     _mean_posterior := RM.Zero 6 1;
     _mean_meas := RM.Zero 6 1;
     _cov_prior := RM.scale_l 0.01 (RM.Identity 6 6);
     _cov_posterior := RM.Zero 6 6;
     _cov_meas := RM.Zero 6 6 |}.

  (** [GPF::odom_callback].  The three angles go through [setX] one after
      the other, and the three assignments of the angle part of the mean
      all write entry 3 from the X component, as the source has them. *)
Definition odom_callback (m : msg.Odometry) (g : GPF) : GPF :=
  let p := msg.pose_position m in
  let o := msg.pose_orientation m in
  let position_prior :=
    setZ (setY (setX (_position_prior g) (msg.x p)) (msg.y p)) (msg.z p) in
  let quaternion_prior :=
    tf.mkQuaternion (msg.qx o) (msg.qy o) (msg.qz o) (msg.qw o) in
  let rotation_prior := setRotation quaternion_prior in
  let rpy := getRPY rotation_prior in
  let r := fst (fst rpy) in
  let p := snd (fst rpy) in
  let y := snd rpy in
  let theta_prior := setX (setX (setX (_theta_prior g) r) p) y in
  let mean_prior := assign (_mean_prior g) 0 [tf.x position_prior] in
  let mean_prior := assign mean_prior 1 [tf.y position_prior] in
  let mean_prior := assign mean_prior 2 [tf.z position_prior] in
  let mean_prior := assign mean_prior 3 [tf.x theta_prior] in
  let mean_prior := assign mean_prior 3 [tf.x theta_prior] in
  let mean_prior := assign mean_prior 3 [tf.x theta_prior] in
  {| _position_prior := position_prior;
     _theta_prior := theta_prior;
     _rotation_prior := rotation_prior;
     _quaternion_prior := quaternion_prior;
     _mean_prior := mean_prior;
     _mean_posterior := _mean_posterior g;
     _mean_meas := _mean_meas g;
     _cov_prior :=
       map (fun i => map (fun j => nth (i * 6 + j) (msg.pose_covariance m) 0)
                         (seq 0 6)) (seq 0 6);
     _cov_posterior := _cov_posterior g;
     _cov_meas := _cov_meas g |}.
End Prior.

(** ** Weights and colours

    [compute_color] starts its search for the extreme weights from
    [INFINITY] and [-INFINITY], so here a [double] is a real number, one of
    the two infinities or a NaN, with the comparisons and the arithmetic of
    IEEE 754 on them; rounding is left out as everywhere, and so is the
    sign of zero: a non-zero number divided by zero is given the sign of
    the number. *)
Inductive double :=
| NaN
| NegInf
| Fin (r : R)
| PosInf.

Definition Rltb (a b : R) : bool := if Rlt_dec a b then true else false.
Definition Rleb (a b : R) : bool := if Rle_dec a b then true else false.

(** [a < b] and [a <= b] *)
Definition dlt (a b : double) : bool :=
  match a, b with
  | NaN, _ | _, NaN => false
  | NegInf, NegInf => false
  | NegInf, _ => true
  | _, NegInf => false
  | PosInf, _ => false
  | Fin _, PosInf => true
  | Fin x, Fin y => Rltb x y
  end.
Definition dle (a b : double) : bool :=
  match a, b with
  | NaN, _ | _, NaN => false
  | NegInf, _ => true
  | _, NegInf => false
  | _, PosInf => true
  | PosInf, _ => false
  | Fin x, Fin y => Rleb x y
  end.

Definition dopp (a : double) : double :=
  match a with
  | NaN => NaN
  | NegInf => PosInf
  | Fin x => Fin (- x)
  | PosInf => NegInf
  end.
Definition dadd (a b : double) : double :=
  match a, b with
  | NaN, _ | _, NaN => NaN
  | NegInf, PosInf | PosInf, NegInf => NaN
  | NegInf, _ | _, NegInf => NegInf
  | PosInf, _ | _, PosInf => PosInf
  | Fin x, Fin y => Fin (x + y)
  end.
Definition dsub (a b : double) : double := dadd a (dopp b).
Definition ddiv (a b : double) : double :=
  match a, b with
  | NaN, _ | _, NaN => NaN
  | Fin x, Fin y =>
      if Req_dec_T y 0
      then (if Req_dec_T x 0 then NaN
            else if Rlt_dec 0 x then PosInf else NegInf)
      else Fin (x / y)
  | Fin _, _ => Fin 0
  | _, Fin y =>
      match a with
      | PosInf => if Rlt_dec y 0 then NegInf else PosInf
      | _ => if Rlt_dec y 0 then PosInf else NegInf
      end
  | _, _ => NaN
  end.

(** What [compute_color] reads of a [Particle]. *)
Record Particle := mkParticle { weight : double }.

(** The first loop of [compute_color]: [(minWeight, maxWeight)]. *)
Definition weight_range (particle : list Particle) : double * double :=
  fold_left
    (fun mm p =>
       let maxWeight := if dlt (snd mm) (weight p) then weight p else snd mm in
       let minWeight := if dlt (weight p) (fst mm) then weight p else fst mm in
       (minWeight, maxWeight))
    particle (PosInf, NegInf).

(** [GPF::compute_color] *)
Definition compute_color (particle : list Particle) : list (list double) :=
  let mm := weight_range particle in
  let minWeight := fst mm in
  let maxWeight := snd mm in
  let midWeight := ddiv (dadd maxWeight minWeight) (Fin 2.0) in
  map (fun p =>
         if dle minWeight (weight p) && dlt (weight p) midWeight
         then [ ddiv (dsub (weight p) minWeight) (dsub midWeight minWeight);
                Fin 1.0;
                Fin 0.0 ]
         else if dle midWeight (weight p) && dle (weight p) maxWeight
         then [ Fin 1.0;
                dsub (Fin 1.0)
                     (ddiv (dsub (weight p) midWeight)
                           (dsub maxWeight midWeight));
                Fin 0.0 ]
         else [ Fin 0.0; Fin 0.0; Fin 1.0 ])
      particle.

(* ================================================================= *)
(** * Vocabulary of the properties *)

(** A parameter server with nothing set, one that sets only
    [imu_frequency] to 1 Hz, and unset members. *)
Definition nh_defaults : NodeHandle :=
  mkNodeHandle None None None None None None None None None None.
Definition nh_1Hz : NodeHandle :=
  mkNodeHandle (Some 1) None None None None None None None None None.
Definition no_values : Indeterminate :=
  mkIndeterminate 0 (msg.mkTime 0 0) [] [].
Definition default_params : Params :=
  mkParams 50.0 0.1 0.01 0.0001 0.00001 9.82 0.0 0.0 0.0 5.

(** The 3 x 3 blocks of a matrix, as a grid of [r] by [c] blocks, and the
    3 x 3 matrix [a * I]. *)
Definition block_grid (r c : nat) (A : RM.Matrix) : list (list RM.Matrix) :=
  map (fun i => map (fun j => RM.block 3 3 (3 * i) (3 * j) A) (seq 0 c))
      (seq 0 r).
Definition diag3 (a : R) : RM.Matrix := [ [a; 0; 0]; [0; a; 0]; [0; 0; a] ].

(** ** Propagation *)

(** The acceleration in the world frame, [R (a - b_a) + g], and the
    rotation increment [vec_to_rot ((w - b_g) dt)] of one step. *)
Definition world_acceleration (f : ESKF) : tf.Vector3 :=
  tf.vadd (tf.mv (_rotation (nominal f))
                 (tf.vsub (_imu_acceleration (imu f)) (_bias_acc (nominal f))))
          (_gravity f).
Definition delta_rotation (f : ESKF) : tf.Matrix3x3 :=
  vec_to_rot (tf.vscale (tf.vsub (_imu_angular_velocity (imu f))
                                 (_bias_gyr (nominal f))) (_dt (clock f))).

(** The elementary rotations about the fixed axes. *)
Definition rot_x (t : R) : tf.Matrix3x3 :=
  tf.setValue 1 0 0   0 (cos t) (- sin t)   0 (sin t) (cos t).
Definition rot_y (t : R) : tf.Matrix3x3 :=
  tf.setValue (cos t) 0 (sin t)   0 1 0   (- sin t) 0 (cos t).
Definition rot_z (t : R) : tf.Matrix3x3 :=
  tf.setValue (cos t) (- sin t) 0   (sin t) (cos t) 0   0 0 1.

(** From the words of the specification: the exponential map of a rotation
    vector, by Rodrigues' formula
    [I + (sin t / t) K + ((1 - cos t) / t^2) K^2], [K = skew w], [t = |w|]. *)
Definition exp_so3 (w : tf.Vector3) : tf.Matrix3x3 :=
  let x := tf.x w in let y := tf.y w in let z := tf.z w in
  let theta := sqrt (x * x + y * y + z * z) in
  let a := sin theta / theta in
  let b := (1 - cos theta) / (theta * theta) in
  tf.setValue (1 - b * (y * y + z * z)) (- a * z + b * x * y) (a * y + b * x * z)
              (a * z + b * x * y) (1 - b * (x * x + z * z)) (- a * x + b * y * z)
              (- a * y + b * x * z) (a * x + b * y * z) (1 - b * (x * x + y * y)).

(** ** The smoothing queue *)

(** Pushing a sequence of inertial samples through [update_imu]. *)
Definition push_all (ms : list msg.Imu) (f : ESKF) : ESKF :=
  fold_left (fun f m => update_imu m f) ms f.

(** The last [n] elements of a list, the sum of one coordinate over a list
    of samples, and the arithmetic mean of a list of samples. *)
Definition lastn {A : Type} (n : nat) (l : list A) : list A :=
  skipn (length l - n) l.
Definition total (g : msg.Vector3 -> R) (l : list msg.Vector3) : R :=
  fold_right (fun s acc => g s + acc) 0 l.
Definition mean (l : list msg.Vector3) : tf.Vector3 :=
  tf.mkVector3 (total msg.x l / INR (length l))
               (total msg.y l / INR (length l))
               (total msg.z l / INR (length l)).

(** The queue after the samples [samples], capacity [N]: while filling it
    is the list of samples; afterwards it is the window of the last [N]
    samples, split as [a ++ b] and stored rotated as [b ++ a], the next
    write going to the head of [a]. *)
Definition ring_inv (N : Z) (samples : list msg.Vector3) (f : ESKF) : Prop :=
  let k := Z.of_nat (length samples) in
  _acc_queue_size (params f) = N /\
  _acc_queue_count (queue f) = k /\
  ((k <= N)%Z -> _acc_queue (queue f) = samples) /\
  ((N <= k)%Z ->
   exists old a b,
     samples = old ++ a ++ b /\
     _acc_queue (queue f) = b ++ a /\
     Z.of_nat (length (a ++ b)) = N /\
     Z.of_nat (length b) = Z.rem k N).

(** What [update_imu] hands to propagation after the samples [samples]. *)
Definition push_output (N : Z) (samples : list msg.Vector3) : tf.Vector3 :=
  if (Z.of_nat (length samples) <=? N)%Z
  then msg.vector3MsgToTF (last samples (msg.mkVector3 0 0 0))
  else mean (lastn (Z.to_nat N) samples).

(** ** Correction *)


Definition error_zero : Error :=
  mkError tf.zero3 tf.zero3 tf.identity tf.zero3 tf.zero3 tf.zero3.

(** The Joseph form [(I - K H) Sigma (I - K H)^T + K R K^T]. *)
Definition joseph {lib : Library} (f : ESKF) : RM.Matrix :=
  let K := gain_K f in
  let M := RM.Identity 15 15 -m K *m obs_H in
  M *m _Sigma (cov f) *m M^T +m K *m _m_pose_sigma (meas f) *m K^T.

(** ** The one-slot mailbox, from the words of the specification

    The filter together with at most one pending observation.  An
    observation event fills the slot, replacing what was there.  An inertial
    event propagates; if the slot is full it then corrects with the
    observation in the slot and empties the slot. *)
Definition Mailbox : Type := ESKF * option msg.Odometry.

Definition mailbox_step {lib : Library} (ev : Event) (s : Mailbox)
  : Mailbox * list Output :=
  match ev, snd s with
  | measurement_event o, _ => ((fst s, Some o), [])
  | imu_event m, None =>
      let f := propagate (update_imu m (update_time m (fst s))) in
      ((f, None), [odom_pub (publish_odom f)])
  | imu_event m, Some o =>
      let f := propagate (update_imu m (update_time m
                 (measurement_callback o (fst s)))) in
      let f := correct f in
      let b := publish_bias f in
      let f := clear_got_measurements f in
      ((f, None), [bias_pub b; odom_pub (publish_odom f)])
  end.

Fixpoint mailbox_run {lib : Library} (evs : list Event) (s : Mailbox)
  : Mailbox * list Output :=
  match evs with
  | [] => (s, [])
  | ev :: evs' =>
      let '(s1, out1) := mailbox_step ev s in
      let '(s2, out2) := mailbox_run evs' s1 in
      (s2, out1 ++ out2)
  end.

(** The filter state that stands for a mailbox: the pending observation
    has been stored by [measurement_callback]. *)
Definition stored {lib : Library} (s : Mailbox) : ESKF :=
  match snd s with
  | Some o => measurement_callback o (fst s)
  | None => fst s
  end.

(** The observations that reach a correction, in order. *)
Fixpoint applied (pending : option msg.Odometry) (evs : list Event)
  : list msg.Odometry :=
  match evs with
  | [] => []
  | measurement_event o :: evs' => applied (Some o) evs'
  | imu_event _ :: evs' =>
      match pending with Some o => [o] | None => [] end ++ applied None evs'
  end.

Definition is_bias (o : Output) : bool :=
  match o with bias_pub _ => true | odom_pub _ => false end.
Definition is_measurement (ev : Event) : bool :=
  match ev with measurement_event _ => true | imu_event _ => false end.

(** ** Odometry output *)

(** The sub-blocks of [Sigma] by error component: attitude error is rows
    and columns 3-5, position error 6-8. *)
Definition Sigma_att_att (f : ESKF) : RM.Matrix :=
  RM.block 3 3 3 3 (_Sigma (cov f)).
Definition Sigma_pos_pos (f : ESKF) : RM.Matrix :=
  RM.block 3 3 6 6 (_Sigma (cov f)).
Definition Sigma_att_pos (f : ESKF) : RM.Matrix :=
  RM.block 3 3 3 6 (_Sigma (cov f)).
Definition Sigma_pos_att (f : ESKF) : RM.Matrix :=
  RM.block 3 3 6 3 (_Sigma (cov f)).

(** ** Observations that differ in their twist part *)

Definition same_pose (m1 m2 : msg.Odometry) : Prop :=
  msg.pose_position m1 = msg.pose_position m2 /\
  msg.pose_orientation m1 = msg.pose_orientation m2 /\
  msg.pose_covariance m1 = msg.pose_covariance m2.

(** The filter [f] with other values in the two members that hold the
    twist part of an observation. *)
Definition retwist (v : tf.Vector3) (ts : RM.Matrix) (f : ESKF) : ESKF :=
  let m := meas f in
  with_meas
    {| _m_velocity := v;
       _m_rotation := _m_rotation m;
       _m_quaternion := _m_quaternion m;
       _m_position := _m_position m;
       _m_theta := _m_theta m;
       _got_measurements := _got_measurements m;
       _m_pose_sigma := _m_pose_sigma m;
       _m_twist_sigma := ts |} f.

Definition twist_blind (f g : ESKF) : Prop := exists v ts, g = retwist v ts f.

(** ** The stationary scenario *)

(** Sample number [k] (from 0): stamped [k * 0.02 s], acceleration
    [(0, 0, az)], no rotation. *)
Definition still_sample (az : R) (k : nat) : msg.Imu :=
  msg.mkImu (msg.mkTime 0 (20000000 * Z.of_nat k))
            (msg.mkQuaternion 0 0 0 1)
            (msg.mkVector3 0 0 0)
            (msg.mkVector3 0 0 az).

Definition still_events (az : R) (n : nat) : list Event :=
  map (fun k => imu_event (still_sample az k)) (seq 0 n).

(** The filter after the first [n] samples, started with the default
    parameters. *)
Fixpoint still_filter {lib : Library} (az : R) (n : nat) : ESKF :=
  match n with
  | O => ESKF_ESKF nh_defaults no_values
  | S k => fst (imu_callback (still_sample az k) (still_filter az k))
  end.

(** What the scenario keeps fixed, after [n] samples, and the nominal
    velocity and position then. *)
Definition still_inv (az : R) (n : nat) (f : ESKF) : Prop :=
  params f = default_params /\
  _gravity f = tf.mkVector3 0.0 0.0 9.82 /\
  _rotation (nominal f) = tf.identity /\
  _bias_acc (nominal f) = tf.mkVector3 0.0 0.0 0.0 /\
  _bias_gyr (nominal f) = tf.zero3 /\
  _got_measurements (meas f) = false /\
  (match n with
   | O => _init_time (clock f) = true
   | S k => _init_time (clock f) = false /\
            _imu_time (clock f) = msg.mkTime 0 (20000000 * Z.of_nat k)
   end) /\
  _acc_queue (queue f) = repeat (msg.mkVector3 0 0 az) (Nat.min n 5) /\
  _acc_queue_count (queue f) = Z.of_nat n.

Definition still_nominal (az : R) (n : nat) (f : ESKF) : Prop :=
  _velocity (nominal f) = tf.mkVector3 0 0 ((az + 9.82) * 0.02 * INR n) /\
  _position (nominal f) = tf.mkVector3 0 0 ((az + 9.82) * 0.0002 * INR n * INR n).

(** Traces of the velocity-error block (rows and columns 0-2) and of the
    position-error block (6-8). *)
Definition trace_vel (S : RM.Matrix) : R := RM.trace (RM.block 3 3 0 0 S).
Definition trace_pos (S : RM.Matrix) : R := RM.trace (RM.block 3 3 6 6 S).

(** [Fx] and [Fn Q Fn^T] of the scenario: identity rotation, acceleration
    [(0, 0, az)], zero biases and angular velocity, [dt = 0.02], default
    noise parameters. *)
Definition still_Fx (az : R) : RM.Matrix :=
  RM.blocks
    [ [diag3 1; [ [0; az * 0.02; 0]; [- az * 0.02; 0; 0]; [0; 0; 0] ]; Z3;
       diag3 (- 0.02); Z3];
      [Z3; diag3 1; Z3; Z3; diag3 (- 0.02)];
      [diag3 0.02; Z3; diag3 1; Z3; Z3];
      [Z3; Z3; Z3; diag3 1; Z3];
      [Z3; Z3; Z3; Z3; diag3 1] ].

Definition still_noise : RM.Matrix :=
  RM.blocks
    [ [diag3 ((0.1 * 0.02) ^ 2); Z3; Z3; Z3; Z3];
      [Z3; diag3 ((0.01 * 0.02) ^ 2); Z3; Z3; Z3];
      [Z3; Z3; Z3; Z3; Z3];
      [Z3; Z3; Z3; diag3 ((0.0001 * 0.02) ^ 2); Z3];
      [Z3; Z3; Z3; Z3; diag3 ((0.00001 * 0.02) ^ 2)] ].

(** The same recursion in exact rationals, which evaluate. *)
Module QM.
Definition qadd (a b : Q) : Q := Qred (a + b).
Definition qmul (a b : Q) : Q := Qred (a * b).
Definition Matrix := @Eigen.Matrix Q.
Definition mul : Matrix -> Matrix -> Matrix := Eigen.mul 0%Q qadd qmul.
Definition add : Matrix -> Matrix -> Matrix := Eigen.add qadd.
Definition transpose : Matrix -> Matrix := Eigen.transpose 0%Q.
Definition trace : Matrix -> Q := Eigen.trace 0%Q qadd.
Definition block : nat -> nat -> nat -> nat -> Matrix -> Matrix :=
  @Eigen.block Q.
Definition blocks : list (list Matrix) -> Matrix := @Eigen.blocks Q.
Definition I3 : Matrix := Eigen.Identity 0%Q 1%Q 3 3.
Definition Z3 : Matrix := Eigen.Zero 0%Q 3 3.
Definition diag3 (a : Q) : Matrix := [ [a; 0; 0]; [0; a; 0]; [0; 0; a] ]%Q.
Definition ltb (a b : Q) : bool :=
  match (a ?= b)%Q with Lt => true | _ => false end.
End QM.

Definition liftQ (A : QM.Matrix) : RM.Matrix := Eigen.lift Q2R A.

Definition still_FxQ (az : Q) : QM.Matrix :=
  QM.blocks
    [ [QM.I3;
       [ [0; Qred (az * (2 # 100)); 0]; [Qred (- az * (2 # 100)); 0; 0];
         [0; 0; 0] ]%Q;
       QM.Z3; QM.diag3 (- (2 # 100)); QM.Z3];
      [QM.Z3; QM.I3; QM.Z3; QM.Z3; QM.diag3 (- (2 # 100))];
      [QM.diag3 (2 # 100); QM.Z3; QM.I3; QM.Z3; QM.Z3];
      [QM.Z3; QM.Z3; QM.Z3; QM.I3; QM.Z3];
      [QM.Z3; QM.Z3; QM.Z3; QM.Z3; QM.I3] ].

Definition still_noiseQ : QM.Matrix :=
  let s (x : Q) := Qred ((x * (2 # 100)) * (x * (2 # 100))) in
  QM.blocks
    [ [QM.diag3 (s (1 # 10)); QM.Z3; QM.Z3; QM.Z3; QM.Z3];
      [QM.Z3; QM.diag3 (s (1 # 100)); QM.Z3; QM.Z3; QM.Z3];
      [QM.Z3; QM.Z3; QM.Z3; QM.Z3; QM.Z3];
      [QM.Z3; QM.Z3; QM.Z3; QM.diag3 (s (1 # 10000)); QM.Z3];
      [QM.Z3; QM.Z3; QM.Z3; QM.Z3; QM.diag3 (s (1 # 100000))] ].

Definition still_stepQ (az : Q) (S : QM.Matrix) : QM.Matrix :=
  let F := still_FxQ az in
  QM.add (QM.mul (QM.mul F S) (QM.transpose F)) still_noiseQ.

Definition still_SigmaQ (az : Q) (n : nat) : QM.Matrix :=
  Nat.iter n (still_stepQ az) (Eigen.Zero 0%Q 15 15).

Definition trace_velQ (S : QM.Matrix) : Q := QM.trace (QM.block 3 3 0 0 S).
Definition trace_posQ (S : QM.Matrix) : Q := QM.trace (QM.block 3 3 6 6 S).

(** Along [n] steps from [S]: the velocity trace grows at every step; the
    position trace grows at every step, except that at the very first step
    ([first]) it is zero before and after. *)
Fixpoint growth_check (az : Q) (n : nat) (first : bool) (S : QM.Matrix) : bool :=
  match n with
  | O => true
  | Datatypes.S n' =>
      let S' := still_stepQ az S in
      QM.ltb (trace_velQ S) (trace_velQ S')
      && (if first
          then Qeq_bool (trace_posQ S) 0 && Qeq_bool (trace_posQ S') 0
          else QM.ltb (trace_posQ S) (trace_posQ S'))
      && growth_check az n' false S'
  end.

(** ** Statements that the properties below correct, as they were written *)

(** The stationary scenario at the reading [(0, 0, 9.82)]: velocity and
    position within [1e-9] of zero, both traces growing from step to
    step. *)
Definition stationary_as_written {lib : Library} : Prop :=
  forall n, (n <= 50)%nat ->
    let f := still_filter 9.82 n in
    Rabs (tf.x (_velocity (nominal f))) <= 1e-9 /\
    Rabs (tf.y (_velocity (nominal f))) <= 1e-9 /\
    Rabs (tf.z (_velocity (nominal f))) <= 1e-9 /\
    Rabs (tf.x (_position (nominal f))) <= 1e-9 /\
    Rabs (tf.y (_position (nominal f))) <= 1e-9 /\
    Rabs (tf.z (_position (nominal f))) <= 1e-9 /\
    ((1 <= n < 50)%nat ->
     trace_vel (_Sigma (cov f))
     < trace_vel (_Sigma (cov (still_filter 9.82 (S n)))) /\
     trace_pos (_Sigma (cov f))
     < trace_pos (_Sigma (cov (still_filter 9.82 (S n))))).

(** The orientation update by the exponential map. *)
Definition exponential_as_written {lib : Library} (f : ESKF) : Prop :=
  let n := nominal f in
  _rotation (nominal (propagate_state f)) =
  tf.mm (_rotation n)
        (exp_so3 (tf.vscale (tf.vsub (_imu_angular_velocity (imu f))
                                     (_bias_gyr n)) (_dt (clock f)))).

(** The Jacobians of a propagation step that starts with the rotation [R]:
    the exponential map in the attitude block of [Fx], and [R] itself in
    the blocks of [Fx] and [Fn] that carry the rotation. *)
Definition jacobians_as_written {lib : Library} (f : ESKF) : Prop :=
  let c' := cov (propagate f) in
  let dt := _dt (clock f) in
  let p := params f in
  let R := tf.matrixTFToEigen (_rotation (nominal f)) in
  let S := tf.matrixTFToEigen
             (skew (tf.vsub (_imu_acceleration (imu f)) (_bias_acc (nominal f)))) in
  let X := tf.matrixTFToEigen
             (exp_so3 (tf.vscale (tf.vsub (_imu_angular_velocity (imu f))
                                          (_bias_gyr (nominal f))) dt)) in
  _Sigma c' = _Fx c' *m _Sigma (cov f) *m (_Fx c')^T
              +m _Fn c' *m _Q c' *m (_Fn c')^T /\
  block_grid 5 5 (_Fx c') =
    [ [diag3 1; RM.scale_r (RM.opp (R *m S)) dt; Z3; RM.scale_r (RM.opp R) dt; Z3];
      [Z3; X^T; Z3; Z3; diag3 (- dt)];
      [diag3 dt; Z3; diag3 1; Z3; Z3];
      [Z3; Z3; Z3; diag3 1; Z3];
      [Z3; Z3; Z3; Z3; diag3 1] ] /\
  block_grid 4 4 (_Q c') =
    [ [diag3 ((_sigma_acc p)^2 * dt^2); Z3; Z3; Z3];
      [Z3; diag3 ((_sigma_gyr p)^2 * dt^2); Z3; Z3];
      [Z3; Z3; diag3 ((_sigma_bias_acc p)^2 * dt^2); Z3];
      [Z3; Z3; Z3; diag3 ((_sigma_bias_gyr p)^2 * dt^2)] ] /\
  block_grid 5 4 (_Fn c') =
    [ [R; Z3; Z3; Z3];
      [Z3; diag3 1; Z3; Z3];
      [Z3; Z3; Z3; Z3];
      [Z3; Z3; diag3 1; Z3];
      [Z3; Z3; Z3; diag3 1] ].

(** The smoothed acceleration as the mean of the last [min k N] samples. *)
Definition partial_mean_as_written (N : Z) (f : ESKF) (ms : list msg.Imu)
  : Prop :=
  let samples := map msg.linear_acceleration ms in
  _imu_acceleration (imu (push_all ms f))
  = mean (lastn (Nat.min (length samples) (Z.to_nat N)) samples).

(** The pose covariance with the attitude block first and unrotated, the
    position block last and rotated. *)
Definition attitude_first_as_written (f : ESKF) : Prop :=
  let P := of_array6 (msg.pose_covariance (publish_odom f)) in
  let R := tf.matrixTFToEigen (_rotation (nominal f)) in
  RM.block 3 3 0 0 P = Sigma_att_att f /\
  (RM.block 3 3 3 3 P = R *m Sigma_pos_pos f *m R^T \/
   RM.block 3 3 3 3 P = R *m Sigma_pos_pos f \/
   RM.block 3 3 3 3 P = Sigma_pos_pos f *m R^T).

(** ** Rotation matrices *)

(** The cross product, and the transpose and the opposite of a 3 x 3
    matrix. *)
Definition cross (u v : tf.Vector3) : tf.Vector3 :=
  tf.mkVector3 (tf.y u * tf.z v - tf.z u * tf.y v)
               (tf.z u * tf.x v - tf.x u * tf.z v)
               (tf.x u * tf.y v - tf.y u * tf.x v).
Definition transpose3 (m : tf.Matrix3x3) : tf.Matrix3x3 :=
  tf.setValue (tf.x (tf.r0 m)) (tf.x (tf.r1 m)) (tf.x (tf.r2 m))
              (tf.y (tf.r0 m)) (tf.y (tf.r1 m)) (tf.y (tf.r2 m))
              (tf.z (tf.r0 m)) (tf.z (tf.r1 m)) (tf.z (tf.r2 m)).
Definition opp3 (m : tf.Matrix3x3) : tf.Matrix3x3 :=
  tf.setValue (- tf.x (tf.r0 m)) (- tf.y (tf.r0 m)) (- tf.z (tf.r0 m))
              (- tf.x (tf.r1 m)) (- tf.y (tf.r1 m)) (- tf.z (tf.r1 m))
              (- tf.x (tf.r2 m)) (- tf.y (tf.r2 m)) (- tf.z (tf.r2 m)).

(** A rotation matrix: its transpose is its inverse on both sides. *)
Definition orthonormal (m : tf.Matrix3x3) : Prop :=
  tf.mm m (transpose3 m) = tf.identity /\ tf.mm (transpose3 m) m = tf.identity.

(** ** Entries of matrices *)

(** Row [k] of an identity matrix with [n] columns, the scalar product of
    two rows, and the sum of [g 0 .. g (n-1)]. *)
Definition unit_row (n k : nat) : list R :=
  map (fun j => if Nat.eqb k j then 1 else 0) (seq 0 n).
Definition dotR : list R -> list R -> R := Eigen.dot 0 Rplus Rmult.
Fixpoint sum_n (n : nat) (g : nat -> R) : R :=
  match n with
  | O => 0
  | S n' => sum_n n' g + g n'
  end.

(** A symmetric [n] x [n] matrix. *)
Definition symmetric (n : nat) (A : RM.Matrix) : Prop :=
  RM.shaped n n A /\
  forall i j, (i < n)%nat -> (j < n)%nat -> RM.coeff A i j = RM.coeff A j i.

(** ** Events and the queue *)

Definition is_imu (ev : Event) : bool :=
  match ev with imu_event _ => true | measurement_event _ => false end.

(** After [k] inertial samples a queue of capacity [N] has counted [k]
    samples and holds [min k N] of them. *)
Definition queue_bounded (N : Z) (k : nat) (f : ESKF) : Prop :=
  _acc_queue_size (params f) = N /\
  _acc_queue_count (queue f) = Z.of_nat k /\
  length (_acc_queue (queue f)) = Nat.min k (Z.to_nat N).

(** ** Inertial samples that differ in their orientation *)

Definition same_inertial (m1 m2 : msg.Imu) : Prop :=
  msg.imu_stamp m1 = msg.imu_stamp m2 /\
  msg.angular_velocity m1 = msg.angular_velocity m2 /\
  msg.linear_acceleration m1 = msg.linear_acceleration m2.

(** The filter [f] with another value in the member that holds the
    orientation of the inertial sample. *)
Definition reorient (q : tf.Quaternion) (f : ESKF) : ESKF :=
  with_imu {| _imu_acceleration := _imu_acceleration (imu f);
              _imu_angular_velocity := _imu_angular_velocity (imu f);
              _imu_orientation := q |} f.

Definition orientation_blind (f g : ESKF) : Prop := exists q, g = reorient q f.

(** ** The prior of the particle filter *)

(** The odometry messages [ms] handled one after the other. *)
Definition odom_callbacks {lib : Library} (ms : list msg.Odometry) (g : GPF)
  : GPF :=
  fold_left (fun g m => odom_callback m g) ms g.

(** The yaw that [odom_callback] reads off a message. *)
Definition yaw_of {lib : Library} (m : msg.Odometry) : R :=
  let o := msg.pose_orientation m in
  snd (getRPY (setRotation (tf.mkQuaternion (msg.qx o) (msg.qy o) (msg.qz o)
                                            (msg.qw o)))).

(** ** Weights *)

(** The least and the greatest of a list of numbers. *)
Definition minimum (ws : list R) : R :=
  match ws with [] => 0 | w :: ws' => fold_left Rmin ws' w end.
Definition maximum (ws : list R) : R :=
  match ws with [] => 0 | w :: ws' => fold_left Rmax ws' w end.

(** Particles with the finite weights [ws]. *)
Definition particles_of (ws : list R) : list Particle :=
  map (fun w => mkParticle (Fin w)) ws.

(** ** Concrete inputs *)

(** An inertial sample turning a quarter turn per second about X and Y. *)
Definition quarter_turns : msg.Imu :=
  msg.mkImu (msg.mkTime 0 0) (msg.mkQuaternion 0 0 0 1)
            (msg.mkVector3 (PI / 2) (PI / 2) 0) (msg.mkVector3 0 0 0).

(** Inertial samples with acceleration [(a, 0, 0)], and a filter with a
    queue of capacity [N]. *)
Definition sample_x (a : R) : msg.Imu :=
  msg.mkImu (msg.mkTime 0 0) (msg.mkQuaternion 0 0 0 1)
            (msg.mkVector3 0 0 0) (msg.mkVector3 a 0 0).
Definition filter_capacity (N : Z) : ESKF :=
  ESKF_ESKF (lib := Reference.library)
    (mkNodeHandle None None None None None None None None None (Some N))
    no_values.

(** A covariance with attitude variance 2 and position variance 1. *)
Definition Sigma_example : RM.Matrix :=
  RM.blocks [ [Z3; Z3; Z3; Z3; Z3];
              [Z3; diag3 2; Z3; Z3; Z3];
              [Z3; Z3; diag3 1; Z3; Z3];
              [Z3; Z3; Z3; Z3; Z3];
              [Z3; Z3; Z3; Z3; Z3] ].
Definition filter_example : ESKF :=
  with_cov (mkCovariances (RM.Zero 15 15) (RM.Zero 15 12) Sigma_example
                          (RM.Zero 12 12))
           (ESKF_ESKF (lib := Reference.library) nh_defaults no_values).

(** Two observations at the origin with unit pose covariance that differ
    in their twist part, and a fresh filter that has stored the first. *)
Definition observation (vx : R) (twist_cov : list R) : msg.Odometry :=
  msg.mkOdometry msg.frame.world (msg.mkTime 0 0)
                 (msg.mkVector3 0 0 0) (msg.mkQuaternion 0 0 0 1)
                 (to_array6 (RM.Identity 6 6))
                 (msg.mkVector3 vx 0 0) (msg.mkVector3 0 0 0) twist_cov.
Definition filter_observed : ESKF :=
  measurement_callback (lib := Reference.library) (observation 0 [])
    (ESKF_ESKF (lib := Reference.library) nh_defaults no_values).

(** A filter past its first inertial sample whose last stamp is zero, and
    two inertial samples with an observation in between. *)
Definition filter_running : ESKF :=
  with_clock (mkClock false 0 (msg.mkTime 0 0)) filter_example.
Definition events_example : list Event :=
  [ imu_event (sample_x 1);
    measurement_event (observation 0 []);
    imu_event (sample_x 2) ].

(** The sample [quarter_turns] with another orientation. *)
Definition quarter_turns_tilted : msg.Imu :=
  msg.mkImu (msg.mkTime 0 0) (msg.mkQuaternion 1 0 0 0)
            (msg.mkVector3 (PI / 2) (PI / 2) 0) (msg.mkVector3 0 0 0).

(** Three particles with weights 1, 3 and 2, and two with weight 1. *)
Definition particles_example : list Particle := particles_of [1; 3; 2].
Definition particles_equal : list Particle := particles_of [1; 1].

(* ================================================================= *)
(** * Proof tools *)

(** Decimal constants as quotients of integers, for [field]. *)
Ltac dec_norm := cbv [Q2R Qnum Qden Z.pow_pos Pos.iter Pos.mul].

(** Evaluation of the list structure of a matrix expression, leaving the
    real arithmetic of its entries in place. *)
Ltac mat_eval :=
  cbv [RM.coeff RM.Zero RM.Identity RM.transpose RM.mul RM.add RM.sub RM.opp
       RM.scale_l RM.scale_r RM.blocks RM.block RM.colvec RM.at_ RM.trace
       Eigen.coeff Eigen.Zero Eigen.Identity Eigen.transpose Eigen.mul
       Eigen.add Eigen.sub Eigen.opp Eigen.scale_l Eigen.scale_r Eigen.blocks
       Eigen.block Eigen.colvec Eigen.at_ Eigen.trace Eigen.rows Eigen.cols
       Eigen.col Eigen.dot Eigen.map2 Eigen.hcat Eigen.hcats
       I3 Z3 tf.matrixTFToEigen to_array6 of_array6
       map seq app concat flat_map fold_left fold_right repeat firstn skipn
       nth hd length Nat.eqb Nat.add Nat.mul].

Ltac list_eq :=
  repeat match goal with
         | |- (_ :: _) = (_ :: _) => apply (f_equal2 (@cons _))
         end;
  try reflexivity.

Ltac tf_unfold :=
  cbv [tf.mm tf.mv tf.dot tf.tdotx tf.tdoty tf.tdotz tf.setValue tf.identity
       tf.vadd tf.vsub tf.vscale tf.sscale tf.zero3 tf.setRPY tf.setEulerYPR
       tf.x tf.y tf.z tf.r0 tf.r1 tf.r2 vec_to_rot skew].

Lemma vector3_eq (u v : tf.Vector3) :
  tf.x u = tf.x v -> tf.y u = tf.y v -> tf.z u = tf.z v -> u = v.
Proof. destruct u, v; simpl; intros; subst; reflexivity. Qed.

Lemma matrix3x3_eq (m n : tf.Matrix3x3) :
  tf.r0 m = tf.r0 n -> tf.r1 m = tf.r1 n -> tf.r2 m = tf.r2 n -> m = n.
Proof. destruct m, n; simpl; intros; subst; reflexivity. Qed.

Ltac tf_eq :=
  repeat first [apply matrix3x3_eq | apply vector3_eq]; tf_unfold.

(** ** Matrices: a scalar map that respects the operations commutes with
    them *)

Module EigenFacts.
Import Eigen.

Lemma map2_map {X Y : Type} (f : X -> Y) (g : X -> X -> X) (h : Y -> Y -> Y)
      (Hg : forall a b, f (g a b) = h (f a) (f b)) (u v : list X) :
  map2 h (map f u) (map f v) = map f (map2 g u v).
Proof.
  revert v; induction u as [|a u IH]; intros [|b v]; simpl; auto.
  now rewrite Hg, IH.
Qed.

Section Transfer.
Context {T U : Type} (f : T -> U).
Variables (t0 : T) (tadd tmul : T -> T -> T).
Variables (u0 : U) (uadd umul : U -> U -> U).
Hypothesis f0 : f t0 = u0.
Hypothesis fadd : forall a b, f (tadd a b) = uadd (f a) (f b).
Hypothesis fmul : forall a b, f (tmul a b) = umul (f a) (f b).

Lemma dot_lift (u v : list T) :
  f (dot t0 tadd tmul u v) = dot u0 uadd umul (map f u) (map f v).
Proof.
  revert v; induction u as [|a u IH]; intros [|b v]; simpl; auto.
  now rewrite fadd, fmul, IH.
Qed.

Lemma cols_lift (A : Matrix) : cols (lift f A) = cols A.
Proof. destruct A; simpl; auto. unfold cols; simpl. apply length_map. Qed.

Lemma col_lift (A : Matrix) (j : nat) :
  col u0 (lift f A) j = map f (col t0 A j).
Proof.
  unfold col, lift. rewrite !map_map. apply map_ext; intro r.
  rewrite <- f0. apply map_nth.
Qed.

Lemma transpose_lift (A : Matrix) :
  transpose u0 (lift f A) = lift f (transpose t0 A).
Proof.
  unfold transpose. rewrite cols_lift. unfold lift at 2.
  rewrite map_map. apply map_ext; intro j. apply col_lift.
Qed.

Lemma mul_lift (A B : Matrix) :
  mul u0 uadd umul (lift f A) (lift f B) = lift f (mul t0 tadd tmul A B).
Proof.
  unfold mul. rewrite transpose_lift. unfold lift.
  rewrite !map_map. apply map_ext; intro r.
  rewrite !map_map. apply map_ext; intro c. symmetry; apply dot_lift.
Qed.

Lemma add_lift (A B : Matrix) :
  add uadd (lift f A) (lift f B) = lift f (add tadd A B).
Proof.
  unfold add, lift. apply map2_map. intros a b. symmetry.
  apply map2_map, fadd.
Qed.

Lemma coeff_lift (A : Matrix) (i j : nat) :
  coeff u0 (lift f A) i j = f (coeff t0 A i j).
Proof.
  unfold coeff, lift. rewrite <- f0.
  change (@nil U) with (map f []). now rewrite !map_nth.
Qed.

Lemma trace_lift (A : Matrix) :
  trace u0 uadd (lift f A) = f (trace t0 tadd A).
Proof.
  unfold trace, rows.
  replace (length (lift f A)) with (length A)
    by (unfold lift; now rewrite length_map).
  induction (seq 0 (length A)) as [|i l IH]; simpl; auto.
  now rewrite fadd, IH, coeff_lift.
Qed.
End Transfer.
End EigenFacts.

Lemma length_3 {A : Type} (l : list A) :
  length l = 3%nat -> exists a b c, l = [a; b; c].
Proof.
  destruct l as [|a [|b [|c [|d l]]]]; simpl; try discriminate. eauto.
Qed.

Lemma shaped_3_3 (B : RM.Matrix) :
  RM.shaped 3 3 B ->
  exists a b c d e f g h i, B = [ [a; b; c]; [d; e; f]; [g; h; i] ].
Proof.
  intros [HL HF]. destruct (length_3 B HL) as (r0 & r1 & r2 & ->).
  inversion HF as [|? ? H0 HF1]; subst.
  inversion HF1 as [|? ? H1 HF2]; subst.
  inversion HF2 as [|? ? H2 _]; subst.
  destruct (length_3 _ H0) as (a & b & c & ->).
  destruct (length_3 _ H1) as (d & e & f & ->).
  destruct (length_3 _ H2) as (g & h & i & ->).
  repeat eexists.
Qed.

Lemma Forall_firstn {A : Type} (P : A -> Prop) (n : nat) (l : list A) :
  Forall P l -> Forall P (firstn n l).
Proof.
  intros H. rewrite <- (firstn_skipn n l) in H. now apply Forall_app in H.
Qed.

Lemma Forall_skipn {A : Type} (P : A -> Prop) (n : nat) (l : list A) :
  Forall P l -> Forall P (skipn n l).
Proof.
  intros H. rewrite <- (firstn_skipn n l) in H. now apply Forall_app in H.
Qed.

Lemma block_shaped (r c p q i j : nat) (A : RM.Matrix) :
  RM.shaped r c A -> (i + p <= r)%nat -> (j + q <= c)%nat ->
  RM.shaped p q (RM.block p q i j A).
Proof.
  intros [HL HF] Hi Hj. unfold RM.block, Eigen.block. split.
  - rewrite length_map, length_firstn, length_skipn. lia.
  - apply Forall_map, Forall_firstn, Forall_skipn.
    revert HF. apply Forall_impl. intros row Hrow.
    rewrite length_firstn, length_skipn. lia.
Qed.

(** ** The tf operations *)

Lemma mm_identity_r (m : tf.Matrix3x3) : tf.mm m tf.identity = m.
Proof. destruct m as [[? ? ?] [? ? ?] [? ? ?]]. tf_eq; ring. Qed.

Lemma mm_identity_l (m : tf.Matrix3x3) : tf.mm tf.identity m = m.
Proof. destruct m as [[? ? ?] [? ? ?] [? ? ?]]. tf_eq; ring. Qed.

Lemma mm_assoc (a b c : tf.Matrix3x3) :
  tf.mm (tf.mm a b) c = tf.mm a (tf.mm b c).
Proof.
  destruct a as [[? ? ?] [? ? ?] [? ? ?]], b as [[? ? ?] [? ? ?] [? ? ?]],
           c as [[? ? ?] [? ? ?] [? ? ?]].
  tf_eq; ring.
Qed.

Lemma setRPY_euler (roll pitch yaw : R) :
  tf.setRPY roll pitch yaw
  = tf.mm (rot_z yaw) (tf.mm (rot_y pitch) (rot_x roll)).
Proof. unfold rot_x, rot_y, rot_z. tf_eq; ring. Qed.

Lemma vec_to_rot_still (d : R) :
  vec_to_rot (tf.vscale (tf.vsub tf.zero3 tf.zero3) d) = tf.identity.
Proof.
  tf_eq; replace ((0 - 0) * d) with 0 by ring; rewrite ?sin_0, ?cos_0; ring.
Qed.

Lemma exp_so3_axis (w : tf.Vector3) : tf.mv (exp_so3 w) w = w.
Proof. destruct w as [x y z]. unfold exp_so3. tf_eq; ring. Qed.

(** ** The event loop *)

Lemma handle_imu {lib : Library} (m : msg.Imu) (f : ESKF) :
  handle (imu_event m) f = imu_callback m f.
Proof. reflexivity. Qed.

Lemma meas_before_correction {lib : Library} (m : msg.Imu) (f : ESKF) :
  meas (propagate (update_imu m (update_time m f))) = meas f.
Proof. reflexivity. Qed.

Lemma imu_callback_pending {lib : Library} (m : msg.Imu) (f : ESKF) :
  _got_measurements (meas f) = true ->
  imu_callback m f =
  let g := correct (propagate (update_imu m (update_time m f))) in
  (clear_got_measurements g,
   [bias_pub (publish_bias g); odom_pub (publish_odom (clear_got_measurements g))]).
Proof.
  intros H. unfold imu_callback. rewrite meas_before_correction, H. reflexivity.
Qed.

Lemma imu_callback_idle {lib : Library} (m : msg.Imu) (f : ESKF) :
  _got_measurements (meas f) = false ->
  imu_callback m f =
  let g := propagate (update_imu m (update_time m f)) in
  (g, [odom_pub (publish_odom g)]).
Proof.
  intros H. unfold imu_callback. rewrite meas_before_correction, H. reflexivity.
Qed.

Lemma run_app {lib : Library} (l1 l2 : list Event) (f : ESKF) :
  run (l1 ++ l2) f =
  (fst (run l2 (fst (run l1 f))), snd (run l1 f) ++ snd (run l2 (fst (run l1 f)))).
Proof.
  revert f. induction l1 as [|ev l1 IH]; intros f.
  - cbn [app run fst snd]. now destruct (run l2 f).
  - cbn [app run]. destruct (handle ev f) as [f1 o1]. rewrite IH.
    destruct (run l1 f1) as [f2 o2]. cbn [fst snd].
    now rewrite app_assoc.
Qed.

Lemma run_one {lib : Library} (ev : Event) (f : ESKF) :
  fst (run [ev] f) = fst (handle ev f).
Proof. cbn [run]. now destruct (handle ev f). Qed.

Lemma run_snoc {lib : Library} (evs : list Event) (ev : Event) (f : ESKF) :
  fst (run (evs ++ [ev]) f) = fst (handle ev (fst (run evs f))).
Proof. rewrite run_app. cbn [fst]. apply run_one. Qed.

(* ================================================================= *)
(** * Propagation of the nominal state *)

(** C2.  One propagation step sets the velocity to [v + (R (a - b_a) + g) dt],
    the position to [p + v dt + (1/2) (R (a - b_a) + g) dt^2] with the
    velocity [v] from before the step, and leaves both biases as they
    were. *)
Theorem propagate_state_kinematics {lib : Library} (f : ESKF) :
  let n := nominal f in
  let n' := nominal (propagate f) in
  let dt := _dt (clock f) in
  let acc := world_acceleration f in
  _velocity n' = tf.vadd (_velocity n) (tf.vscale acc dt) /\
  _position n' = tf.vadd (tf.vadd (_position n) (tf.vscale (_velocity n) dt))
                         (tf.vscale acc (/ 2 * dt ^ 2)) /\
  _bias_acc n' = _bias_acc n /\
  _bias_gyr n' = _bias_gyr n.
Proof.
  cbv zeta. split; [reflexivity|]. split; [|split; reflexivity].
  unfold propagate, propagate_covariance, propagate_error, propagate_state.
  cbn [nominal with_cov with_nominal _position]. unfold world_acceleration.
  tf_eq; dec_norm; field.
Qed.

(** C3, as the code has it.  One propagation step sets the orientation to
    [R' = R * RPY((w - b_g) dt)], where [RPY] builds the rotation from the
    three components of the vector read as roll, pitch and yaw
    ([Rz(yaw) * Ry(pitch) * Rx(roll)]), and the quaternion is derived anew
    from [R']. *)
Theorem propagate_state_rotation {lib : Library} (f : ESKF) :
  let n := nominal f in
  let n' := nominal (propagate f) in
  let th := tf.vscale (tf.vsub (_imu_angular_velocity (imu f)) (_bias_gyr n))
                      (_dt (clock f)) in
  _rotation n' = tf.mm (_rotation n)
                   (tf.mm (rot_z (tf.z th))
                      (tf.mm (rot_y (tf.y th)) (rot_x (tf.x th)))) /\
  _quaternion n' = getRotation (_rotation n').
Proof.
  cbv zeta. split; [|reflexivity].
  rewrite <- setRPY_euler. reflexivity.
Qed.

(** C3, as it was written, fails: a filter at 1 Hz that turns a quarter
    turn about X and about Y in one step does not reach the orientation the
    exponential map gives (the exponential map leaves the rotation vector
    itself fixed; the roll-pitch-yaw construction does not). *)
Lemma vec_to_rot_not_exponential :
  ~ exponential_as_written (lib := Reference.library)
      (update_imu quarter_turns
         (update_time quarter_turns
            (ESKF_ESKF (lib := Reference.library) nh_1Hz no_values))).
Proof.
  unfold exponential_as_written. cbn. intros H.
  apply (f_equal (fun m => tf.y (tf.mv m (tf.mkVector3 (PI / 2) (PI / 2) 0))))
    in H.
  revert H.
  replace (tf.vscale (tf.vsub (tf.mkVector3 (PI / 2) (PI / 2) 0) tf.zero3)
                     (1.0 / 1))
    with (tf.mkVector3 (PI / 2) (PI / 2) 0) by (tf_eq; dec_norm; field).
  rewrite !mm_identity_l, exp_so3_axis.
  tf_unfold. rewrite sin_PI2, cos_PI2, sin_0, cos_0.
  pose proof PI_RGT_0. lra.
Qed.

(* ================================================================= *)
(** * The smoothing queue *)

Lemma total_app (g : msg.Vector3 -> R) (l1 l2 : list msg.Vector3) :
  total g (l1 ++ l2) = total g l1 + total g l2.
Proof. induction l1; simpl; [ring | rewrite IHl1; ring]. Qed.

Lemma acc_avg_loop (n : R) (q pre : list msg.Vector3) (acc : tf.Vector3) :
  fold_left
    (fun avg i =>
       let s := nth i (pre ++ q) (msg.mkVector3 0 0 0) in
       tf.mkVector3 (tf.x avg + msg.x s / n) (tf.y avg + msg.y s / n)
                    (tf.z avg + msg.z s / n))
    (seq (length pre) (length q)) acc
  = tf.mkVector3 (tf.x acc + total msg.x q / n) (tf.y acc + total msg.y q / n)
                 (tf.z acc + total msg.z q / n).
Proof.
  revert pre acc. induction q as [|s q IH]; intros pre acc.
  - simpl. apply vector3_eq; simpl; unfold Rdiv; ring.
  - simpl seq. simpl fold_left.
    replace (pre ++ s :: q) with ((pre ++ [s]) ++ q)
      by (now rewrite <- app_assoc).
    replace (S (length pre)) with (length (pre ++ [s]))
      by (rewrite length_app; simpl; lia).
    rewrite IH. rewrite <- app_assoc. simpl app.
    rewrite nth_middle. apply vector3_eq; simpl; unfold Rdiv; ring.
Qed.

Lemma acc_avg_mean (q : list msg.Vector3) (n : Z) :
  Z.to_nat n = length q -> (1 <= n)%Z -> acc_avg q n = mean q.
Proof.
  intros Hlen Hn. unfold acc_avg. rewrite Hlen.
  pose proof (acc_avg_loop (IZR n) q [] tf.zero3) as H. simpl in H.
  rewrite H.
  unfold mean. rewrite <- Hlen, INR_IZR_INZ, Z2Nat.id by lia.
  apply vector3_eq; simpl; ring.
Qed.

Lemma mean_swap (a b : list msg.Vector3) : mean (b ++ a) = mean (a ++ b).
Proof.
  unfold mean. rewrite !total_app, !length_app, (Nat.add_comm (length b)).
  apply vector3_eq; simpl; unfold Rdiv; ring.
Qed.

Lemma assign_middle {A : Type} (b : list A) (a s : A) (l : list A) :
  assign (b ++ a :: l) (length b) s = b ++ s :: l.
Proof. induction b; simpl; [reflexivity | now rewrite IHb]. Qed.

Lemma assign_repeat {A : Type} (a : A) (n i : nat) :
  assign (repeat a n) i a = repeat a n.
Proof.
  revert i. induction n as [|n IH]; intros [|i]; simpl; auto. now rewrite IH.
Qed.

Lemma lastn_suffix {A : Type} (old w : list A) :
  lastn (length w) (old ++ w) = w.
Proof.
  unfold lastn. rewrite length_app.
  replace (length old + length w - length w)%nat with (length old) by lia.
  rewrite skipn_app, skipn_all, Nat.sub_diag. reflexivity.
Qed.

Lemma update_imu_ring (N : Z) (samples : list msg.Vector3) (m : msg.Imu)
      (f : ESKF) :
  (1 <= N)%Z ->
  ring_inv N samples f ->
  ring_inv N (samples ++ [msg.linear_acceleration m]) (update_imu m f) /\
  _imu_acceleration (imu (update_imu m f))
  = push_output N (samples ++ [msg.linear_acceleration m]).
Proof.
  intros HN (Hsize & Hcount & Hfill & Hring).
  set (s := msg.linear_acceleration m).
  unfold ring_inv, push_output. rewrite length_app. simpl length.
  unfold update_imu. rewrite Hsize, Hcount.
  cbn [params queue imu with_imu with_queue
       _acc_queue_size _acc_queue _acc_queue_count _imu_acceleration fst snd].
  fold s.
  destruct (Z.ltb_spec (Z.of_nat (length samples)) N) as [Hlt | Hge].
  - (* filling *)
    cbn [fst snd]. rewrite Hfill by lia.
    assert (Hle : (Z.of_nat (length samples + 1) <= N)%Z) by lia.
    apply Z.leb_le in Hle. rewrite Hle. rewrite last_last. fold s.
    repeat split; try lia.
    intros HNk. exists [], (samples ++ [s]), []. rewrite app_nil_r.
    repeat split; auto.
    + rewrite length_app; simpl; lia.
    + simpl. replace (Z.of_nat (length samples + 1)) with N by lia.
      symmetry. apply Z.rem_same. lia.
  - (* overwriting *)
    cbn [fst snd].
    destruct (Hring Hge) as (old & a & b & Hs & Hq & Hlen & Hb).
    assert (Hgt : (Z.of_nat (length samples + 1) <=? N)%Z = false)
      by (apply Z.leb_gt; lia).
    rewrite Hgt, Hq, <- Hb, Nat2Z.id.
    assert (Hbn : (Z.of_nat (length b) < N)%Z).
    { rewrite Hb. apply Z.rem_bound_pos; lia. }
    destruct a as [|a0 a'].
    { simpl in Hlen. lia. }
    rewrite assign_middle.
    assert (Hwin : samples ++ [s] = (old ++ [a0]) ++ a' ++ (b ++ [s])).
    { rewrite Hs. now rewrite <- !app_assoc. }
    assert (Hwlen : Z.to_nat N = length (a' ++ b ++ [s])).
    { rewrite length_app in Hlen. rewrite !length_app. simpl in *. lia. }
    split; [repeat split; try lia|].
    + intros _.
      destruct (Z.eq_dec (Z.of_nat (length b) + 1) N) as [Hwrap | Hnowrap].
      * assert (a' = []).
        { rewrite length_app in Hlen. simpl in Hlen.
          destruct a'; [reflexivity | simpl in Hlen; lia]. }
        subst a'. exists (old ++ [a0]), (b ++ [s]), [].
        rewrite app_nil_r. simpl app in *.
        repeat split; auto.
        -- rewrite length_app; simpl. lia.
        -- simpl.
           replace (Z.of_nat (length samples + 1))
             with (Z.of_nat (length samples) + 1)%Z by lia.
           rewrite (Z.rem_mod_nonneg) by lia.
           rewrite <- Zplus_mod_idemp_l.
           rewrite <- (Z.rem_mod_nonneg (Z.of_nat (length samples)) N) by lia.
           rewrite <- Hb, Hwrap. symmetry. apply Z_mod_same_full.
      * exists (old ++ [a0]), a', (b ++ [s]).
        repeat split; auto.
        -- now rewrite <- app_assoc.
        -- rewrite length_app in *. rewrite length_app. simpl in *. lia.
        -- rewrite length_app; simpl.
           replace (Z.of_nat (length samples + 1))
             with (Z.of_nat (length samples) + 1)%Z by lia.
           rewrite (Z.rem_mod_nonneg) by lia.
           rewrite <- Zplus_mod_idemp_l.
           rewrite <- (Z.rem_mod_nonneg (Z.of_nat (length samples)) N) by lia.
           rewrite <- Hb. rewrite Z.mod_small; lia.
    + rewrite acc_avg_mean; try lia.
      * replace (b ++ s :: a') with ((b ++ [s]) ++ a')
          by (now rewrite <- app_assoc).
        rewrite mean_swap, Hwin, Hwlen, lastn_suffix. reflexivity.
      * rewrite Hwlen, !length_app. simpl. lia.
Qed.

Lemma push_all_ring (N : Z) (ms : list msg.Imu) (f : ESKF) :
  (1 <= N)%Z ->
  _acc_queue_size (params f) = N ->
  _acc_queue (queue f) = [] ->
  _acc_queue_count (queue f) = 0%Z ->
  ring_inv N (map msg.linear_acceleration ms) (push_all ms f) /\
  (ms <> [] ->
   _imu_acceleration (imu (push_all ms f))
   = push_output N (map msg.linear_acceleration ms)).
Proof.
  intros HN Hsize Hq Hc.
  induction ms as [|m ms IH] using rev_ind.
  - split; [|congruence]. unfold ring_inv. simpl.
    repeat split; auto. intros; lia.
  - unfold push_all in *. rewrite fold_left_app. simpl fold_left.
    rewrite map_app. simpl map.
    destruct IH as [IH _].
    destruct (update_imu_ring N _ m _ HN IH) as [H1 H2]. split; auto.
Qed.

(** C4, as the code has it.  With a queue of capacity [N >= 1], empty at
    the start, and [k] the number of samples pushed so far (the counter
    still within the range of [int]): while [k <= N] the acceleration
    handed to propagation is the latest raw sample; once [k > N] it is the
    arithmetic mean of the most recent [N] samples. *)
Theorem smoothing_output (N : Z) (f : ESKF) (ms : list msg.Imu) (m : msg.Imu) :
  (1 <= N)%Z ->
  _acc_queue_size (params f) = N ->
  _acc_queue (queue f) = [] ->
  _acc_queue_count (queue f) = 0%Z ->
  let samples := map msg.linear_acceleration (ms ++ [m]) in
  let k := Z.of_nat (length samples) in
  let out := _imu_acceleration (imu (push_all (ms ++ [m]) f)) in
  (k <= 2147483647)%Z ->
  ((k <= N)%Z -> out = msg.vector3MsgToTF (msg.linear_acceleration m)) /\
  ((N < k)%Z -> out = mean (lastn (Z.to_nat N) samples)).
Proof.
  intros HN Hsize Hq Hc samples k out _.
  destruct (push_all_ring N (ms ++ [m]) f HN Hsize Hq Hc) as [_ H].
  assert (Hne : ms ++ [m] <> []) by (destruct ms; discriminate).
  specialize (H Hne). subst out. rewrite H. unfold push_output.
  fold samples. fold k. split; intros Hk.
  - apply Z.leb_le in Hk. rewrite Hk. unfold samples.
    rewrite map_app. simpl. now rewrite last_last.
  - apply Z.leb_gt in Hk. now rewrite Hk.
Qed.

(** Three samples into a queue of capacity 2. *)
Lemma smoothing_output_witness :
  let ms := [sample_x 0; sample_x 2] in
  let m := sample_x 4 in
  let samples := map msg.linear_acceleration (ms ++ [m]) in
  let k := Z.of_nat (length samples) in
  let out := _imu_acceleration (imu (push_all (ms ++ [m]) (filter_capacity 2))) in
  ((k <= 2)%Z -> out = msg.vector3MsgToTF (msg.linear_acceleration m)) /\
  ((2 < k)%Z -> out = mean (lastn (Z.to_nat 2) samples)).
Proof.
  apply (smoothing_output 2 (filter_capacity 2) [sample_x 0; sample_x 2]
           (sample_x 4));
    [lia | reflexivity | reflexivity | reflexivity | simpl; lia].
Defined.

(** C4, as it was written, fails: with capacity 3, after the samples
    [(0,0,0)] and [(2,0,0)] the output is the raw [(2,0,0)], not their mean
    [(1,0,0)]. *)
Lemma partial_mean_fails :
  ~ partial_mean_as_written 3 (filter_capacity 3) [sample_x 0; sample_x 2].
Proof.
  unfold partial_mean_as_written.
  destruct (push_all_ring 3 [sample_x 0; sample_x 2] (filter_capacity 3))
    as [_ Hraw]; try reflexivity; [lia|].
  rewrite Hraw by discriminate. unfold push_output.
  cbn [map length Z.of_nat Pos.of_succ_nat Pos.succ Z.leb Z.compare
       Pos.compare Pos.compare_cont last].
  cbv [mean lastn total map length Nat.min Z.to_nat Pos.to_nat Pos.iter_op
       Nat.add Nat.sub skipn fold_right sample_x msg.linear_acceleration
       msg.vector3MsgToTF msg.x msg.y msg.z INR].
  intros H. injection H as Hx. lra.
Qed.

(* ================================================================= *)
(** * Propagation of the covariance *)

(** The matrices that [propagate_covariance] assembles, block by block,
    from the state it is called in. *)
Lemma propagate_covariance_blocks (f : ESKF) :
  let c' := cov (propagate_covariance f) in
  let dt := _dt (clock f) in
  let p := params f in
  let R := tf.matrixTFToEigen (_rotation (nominal f)) in
  let S := tf.matrixTFToEigen
             (skew (tf.vsub (_imu_acceleration (imu f)) (_bias_acc (nominal f)))) in
  let E := tf.matrixTFToEigen (delta_rotation f) in
  _Sigma c' = _Fx c' *m _Sigma (cov f) *m (_Fx c')^T
              +m _Fn c' *m _Q c' *m (_Fn c')^T /\
  block_grid 5 5 (_Fx c') =
    [ [diag3 1; RM.scale_r (RM.opp (R *m S)) dt; Z3; RM.scale_r (RM.opp R) dt; Z3];
      [Z3; E^T; Z3; Z3; diag3 (- dt)];
      [diag3 dt; Z3; diag3 1; Z3; Z3];
      [Z3; Z3; Z3; diag3 1; Z3];
      [Z3; Z3; Z3; Z3; diag3 1] ] /\
  block_grid 4 4 (_Q c') =
    [ [diag3 ((_sigma_acc p)^2 * dt^2); Z3; Z3; Z3];
      [Z3; diag3 ((_sigma_gyr p)^2 * dt^2); Z3; Z3];
      [Z3; Z3; diag3 ((_sigma_bias_acc p)^2 * dt^2); Z3];
      [Z3; Z3; Z3; diag3 ((_sigma_bias_gyr p)^2 * dt^2)] ] /\
  block_grid 5 4 (_Fn c') =
    [ [R; Z3; Z3; Z3];
      [Z3; diag3 1; Z3; Z3];
      [Z3; Z3; Z3; Z3];
      [Z3; Z3; diag3 1; Z3];
      [Z3; Z3; Z3; diag3 1] ] /\
  RM.block 3 12 6 0 (_Fn c') = RM.Zero 3 12 /\
  RM.shaped 15 15 (_Fx c') /\ RM.shaped 15 12 (_Fn c') /\
  RM.shaped 12 12 (_Q c').
Proof.
  cbv zeta. split; [reflexivity|].
  unfold propagate_covariance, jacobian_Fx, jacobian_Fn, noise_Q, delta_rotation.
  cbn [cov with_cov _Fx _Fn _Q].
  generalize (vec_to_rot
        (tf.vscale (tf.vsub (_imu_angular_velocity (imu f)) (_bias_gyr (nominal f)))
           (_dt (clock f)))) as E.
  generalize (skew (tf.vsub (_imu_acceleration (imu f)) (_bias_acc (nominal f)))) as S.
  generalize (_rotation (nominal f)) as R.
  intros [[? ? ?] [? ? ?] [? ? ?]] [[? ? ?] [? ? ?] [? ? ?]] [[? ? ?] [? ? ?] [? ? ?]].
  unfold block_grid, diag3, RM.shaped, Eigen.shaped.
  repeat match goal with |- _ /\ _ => split end;
    mat_eval; cbv [tf.x tf.y tf.z tf.r0 tf.r1 tf.r2];
    first [ solve [repeat constructor] | solve [list_eq; ring] ].
Qed.

Lemma eigen_of_mm (a b : tf.Matrix3x3) :
  tf.matrixTFToEigen (tf.mm a b) = tf.matrixTFToEigen a *m tf.matrixTFToEigen b.
Proof.
  destruct a as [[? ? ?] [? ? ?] [? ? ?]], b as [[? ? ?] [? ? ?] [? ? ?]].
  mat_eval. tf_unfold. list_eq; ring.
Qed.

Lemma eigen_inj (a b : tf.Matrix3x3) :
  tf.matrixTFToEigen a = tf.matrixTFToEigen b -> a = b.
Proof.
  destruct a as [[? ? ?] [? ? ?] [? ? ?]], b as [[? ? ?] [? ? ?] [? ? ?]].
  cbv [tf.matrixTFToEigen tf.x tf.y tf.z tf.r0 tf.r1 tf.r2].
  intros H. injection H; intros; subst; reflexivity.
Qed.

Lemma eigen_transpose_inj (a b : tf.Matrix3x3) :
  (tf.matrixTFToEigen a)^T = (tf.matrixTFToEigen b)^T -> a = b.
Proof.
  destruct a as [[? ? ?] [? ? ?] [? ? ?]], b as [[? ? ?] [? ? ?] [? ? ?]].
  mat_eval. cbv [tf.x tf.y tf.z tf.r0 tf.r1 tf.r2].
  intros H. injection H; intros; subst; reflexivity.
Qed.

(** What [propagate_state], which runs first, leaves for
    [propagate_covariance]. *)
Lemma propagate_covariance_after {lib : Library} (f : ESKF) :
  cov (propagate f) = cov (propagate_covariance (propagate_state f)) /\
  _rotation (nominal (propagate_state f))
    = tf.mm (_rotation (nominal f)) (delta_rotation f) /\
  delta_rotation (propagate_state f) = delta_rotation f /\
  _bias_acc (nominal (propagate_state f)) = _bias_acc (nominal f) /\
  imu (propagate_state f) = imu f /\
  clock (propagate_state f) = clock f /\
  params (propagate_state f) = params f /\
  cov (propagate_state f) = cov f.
Proof. repeat split. Qed.

(** C5.  One propagation step, [propagate_state] and then
    [propagate_covariance], from a state with rotation [R].  With
    [D = vec_to_rot ((w - b_g) dt)], the roll-pitch-yaw matrix
    [Rz Ry Rx] of the three components, and [R' = R D], the rotation that
    the step has already stored when the covariance is propagated: the
    covariance becomes [Fx Sigma Fx^T + Fn Q Fn^T]; in the block order
    velocity, attitude, position, accelerometer bias, gyroscope bias,
    [Fx] has the identity on its diagonal except for the attitude block,
    which is [D^T]; [-R' skew(a - b_a) dt] from attitude to velocity,
    [-R' dt] from accelerometer bias to velocity, [-I dt] from gyroscope
    bias to attitude, [I dt] from velocity to position, and zero
    elsewhere.  [Q] is block diagonal with [sigma^2 dt^2 I] for the four
    noises; [Fn] has [R'] in its velocity rows and its position rows are
    zero. *)
Theorem covariance_propagation {lib : Library} (f : ESKF) :
  let f' := propagate f in
  let c' := cov f' in
  let dt := _dt (clock f) in
  let p := params f in
  let w := tf.vscale (tf.vsub (_imu_angular_velocity (imu f))
                              (_bias_gyr (nominal f))) dt in
  let R := tf.matrixTFToEigen (_rotation (nominal f)) in
  let D := tf.matrixTFToEigen (delta_rotation f) in
  let R' := R *m D in
  let S := tf.matrixTFToEigen
             (skew (tf.vsub (_imu_acceleration (imu f)) (_bias_acc (nominal f)))) in
  delta_rotation f
    = tf.mm (rot_z (tf.z w)) (tf.mm (rot_y (tf.y w)) (rot_x (tf.x w))) /\
  tf.matrixTFToEigen (_rotation (nominal f')) = R' /\
  _Sigma c' = _Fx c' *m _Sigma (cov f) *m (_Fx c')^T
              +m _Fn c' *m _Q c' *m (_Fn c')^T /\
  block_grid 5 5 (_Fx c') =
    [ [diag3 1; RM.scale_r (RM.opp (R' *m S)) dt; Z3; RM.scale_r (RM.opp R') dt; Z3];
      [Z3; D^T; Z3; Z3; diag3 (- dt)];
      [diag3 dt; Z3; diag3 1; Z3; Z3];
      [Z3; Z3; Z3; diag3 1; Z3];
      [Z3; Z3; Z3; Z3; diag3 1] ] /\
  block_grid 4 4 (_Q c') =
    [ [diag3 ((_sigma_acc p)^2 * dt^2); Z3; Z3; Z3];
      [Z3; diag3 ((_sigma_gyr p)^2 * dt^2); Z3; Z3];
      [Z3; Z3; diag3 ((_sigma_bias_acc p)^2 * dt^2); Z3];
      [Z3; Z3; Z3; diag3 ((_sigma_bias_gyr p)^2 * dt^2)] ] /\
  block_grid 5 4 (_Fn c') =
    [ [R'; Z3; Z3; Z3];
      [Z3; diag3 1; Z3; Z3];
      [Z3; Z3; Z3; Z3];
      [Z3; Z3; diag3 1; Z3];
      [Z3; Z3; Z3; diag3 1] ] /\
  RM.block 3 12 6 0 (_Fn c') = RM.Zero 3 12 /\
  RM.shaped 15 15 (_Fx c') /\ RM.shaped 15 12 (_Fn c') /\
  RM.shaped 12 12 (_Q c').
Proof.
  cbv zeta.
  destruct (propagate_covariance_after f)
    as (Hc & HR & HD & Hb & Hi & Hk & Hp & Hs).
  destruct (propagate_covariance_blocks (propagate_state f))
    as (H1 & H2 & H3 & H4 & H5 & H6 & H7 & H8).
  cbv zeta in H1, H2, H3, H4, H5, H6, H7, H8.
  fold (delta_rotation (propagate_state f)) in H2.
  rewrite HR, HD, Hb, Hi, Hk, Hp, Hs, eigen_of_mm in *.
  rewrite Hc.
  split; [unfold delta_rotation, vec_to_rot; apply setRPY_euler|].
  split; [change (nominal (propagate f)) with (nominal (propagate_state f));
          rewrite HR; apply eigen_of_mm|].
  repeat match goal with |- _ /\ _ => split end; assumption.
Qed.

(** If the Jacobians were as C5 was written, the rotation increment would
    be the exponential map and the step would not have turned the
    rotation. *)
Lemma as_written_increment {lib : Library} (f : ESKF) :
  jacobians_as_written f ->
  delta_rotation f
  = exp_so3 (tf.vscale (tf.vsub (_imu_angular_velocity (imu f))
                                (_bias_gyr (nominal f))) (_dt (clock f))) /\
  tf.mm (_rotation (nominal f)) (delta_rotation f) = _rotation (nominal f).
Proof.
  intros (_ & HFx & _ & HFn). cbv zeta in HFx, HFn.
  destruct (propagate_covariance_after f)
    as (Hc & HR & HD & Hb & Hi & Hk & Hp & Hs).
  destruct (propagate_covariance_blocks (propagate_state f))
    as (_ & H2 & _ & H4 & _).
  cbv zeta in H2, H4.
  fold (delta_rotation (propagate_state f)) in H2.
  rewrite ?HR, ?HD, ?Hb, ?Hi, ?Hk in H2, H4.
  rewrite Hc, H2 in HFx. rewrite Hc, H4 in HFn.
  split.
  - apply eigen_transpose_inj.
    exact (f_equal (fun g => nth 1 (nth 1 g []) []) HFx).
  - apply eigen_inj.
    exact (f_equal (fun g => nth 0 (nth 0 g []) []) HFn).
Qed.

(** C5, as it was written, fails for the first sample of a filter with
    [imu_frequency] 1 that turns a quarter turn per second about X and Y:
    the step starts with [R = I] and [dt = 1]; the attitude block of [Fx]
    is the transpose of [D = Ry(pi/2) Rx(pi/2)], which sends the vector
    [(pi/2, pi/2, 0)] to [(pi/2, 0, -pi/2)], while the exponential map of
    a vector leaves that vector in place; and the velocity rows of [Fx]
    and [Fn] hold [R' = D], not [I]. *)
Lemma jacobians_not_as_written :
  ~ jacobians_as_written (lib := Reference.library)
      (update_imu quarter_turns
         (update_time quarter_turns
            (ESKF_ESKF (lib := Reference.library) nh_1Hz no_values))).
Proof.
  intros H. apply as_written_increment in H. destruct H as [H _].
  revert H. unfold delta_rotation. cbn. intros H.
  apply (f_equal (fun m => tf.y (tf.mv m (tf.mkVector3 (PI / 2) (PI / 2) 0))))
    in H.
  revert H.
  replace (tf.vscale (tf.vsub (tf.mkVector3 (PI / 2) (PI / 2) 0) tf.zero3)
                     (1.0 / 1))
    with (tf.mkVector3 (PI / 2) (PI / 2) 0) by (tf_eq; dec_norm; field).
  rewrite exp_so3_axis.
  tf_unfold. rewrite sin_PI2, cos_PI2, sin_0, cos_0.
  pose proof PI_RGT_0. lra.
Qed.

(* ================================================================= *)
(** * Correction *)


Lemma reference_inverse_contract : inverse_contract Reference.library.
Proof.
  intros A H. unfold inverse. cbn. unfold Reference.inverse.
  now apply epsilon_spec.
Qed.


Lemma innovation_observed :
  obs_H *m _Sigma (cov filter_observed) *m obs_H^T
  +m _m_pose_sigma (meas filter_observed) = RM.Identity 6 6.
Proof.
  unfold filter_observed, observation, measurement_callback.
  cbn [cov meas with_meas _Sigma _m_pose_sigma ESKF_ESKF msg.pose_covariance].
  unfold obs_H. mat_eval. list_eq; ring.
Qed.

Lemma identity_6_invertible : invertible (RM.Identity 6 6).
Proof.
  exists (RM.Identity 6 6). unfold is_inverse, RM.shaped, Eigen.shaped.
  repeat split; mat_eval; first [ solve [repeat constructor] | list_eq; ring ].
Qed.


(** C7.  After a correction cycle (error update, injection, reset) the
    error-state mean is zero in all its components and the error rotation
    is the identity, whatever the observation and the covariance; the reset
    leaves [Sigma] as the Joseph form made it; and in every state the
    filter reaches from its construction, at the start of every event, the
    error-state mean is zero. *)
Theorem correction_resets_error {lib : Library} (f : ESKF) :
  error (correct f) = error_zero /\
  _Sigma (cov (correct f)) = joseph f /\
  forall nh u evs, error (fst (run evs (ESKF_ESKF nh u))) = error_zero.
Proof.
  split; [reflexivity|]. split; [reflexivity|].
  intros nh u evs.
  assert (H0 : error (ESKF_ESKF nh u) = error_zero) by reflexivity.
  revert H0. generalize (ESKF_ESKF nh u) as g.
  induction evs as [|ev evs IH]; intros g Hg; [exact Hg|].
  cbn [run].
  destruct (handle ev g) as [g1 o1] eqn:E1.
  specialize (IH g1).
  destruct (run evs g1) as [g2 o2]. cbn [fst] in *. apply IH.
  destruct ev as [m|m]; cbn [handle] in E1.
  - unfold imu_callback in E1.
    destruct (_got_measurements _) in E1; inversion E1; subst;
      [reflexivity | exact Hg].
  - inversion E1; subst; exact Hg.
Qed.

(* ================================================================= *)
(** * Events and the pending observation *)

Lemma handle_mailbox_step {lib : Library} (ev : Event) (s : Mailbox) :
  _got_measurements (meas (fst s)) = false ->
  handle ev (stored s) = (stored (fst (mailbox_step ev s)), snd (mailbox_step ev s))
  /\ _got_measurements (meas (fst (fst (mailbox_step ev s)))) = false.
Proof.
  destruct s as [f [o|]]; destruct ev as [m|m];
    unfold stored, mailbox_step, handle; cbn [fst snd]; intros Hflag.
  - rewrite imu_callback_pending by reflexivity. split; reflexivity.
  - split; [reflexivity | exact Hflag].
  - rewrite imu_callback_idle by exact Hflag. split; [reflexivity | exact Hflag].
  - split; [reflexivity | exact Hflag].
Qed.

Lemma run_mailbox_run {lib : Library} (evs : list Event) (s : Mailbox) :
  _got_measurements (meas (fst s)) = false ->
  run evs (stored s) = (stored (fst (mailbox_run evs s)), snd (mailbox_run evs s))
  /\ _got_measurements (meas (fst (fst (mailbox_run evs s)))) = false.
Proof.
  revert s. induction evs as [|ev evs IH]; intros s Hflag.
  - cbn [run mailbox_run fst snd]. auto.
  - cbn [run mailbox_run]. destruct (handle_mailbox_step ev s Hflag) as [H1 H2].
    rewrite H1. destruct (mailbox_step ev s) as [s1 o1]. cbn [fst snd] in *.
    destruct (IH s1 H2) as [H3 H4]. rewrite H3.
    destruct (mailbox_run evs s1) as [s2 o2]. cbn [fst snd] in *. auto.
Qed.

Lemma mailbox_bias_count {lib : Library} (evs : list Event) (s : Mailbox) :
  length (filter is_bias (snd (mailbox_run evs s))) = length (applied (snd s) evs).
Proof.
  revert s. induction evs as [|ev evs IH]; intros [f p]; [reflexivity|].
  cbn [mailbox_run applied snd].
  destruct ev as [m|o]; destruct p as [o'|]; unfold mailbox_step; cbn [fst snd];
    match goal with
    | |- context [mailbox_run evs ?s1] =>
        specialize (IH s1); destruct (mailbox_run evs s1) as [s2 o2]
    end; cbn [fst snd app filter is_bias length] in *; rewrite ?IH; reflexivity.
Qed.

Lemma applied_le (evs : list Event) (p : option msg.Odometry) :
  (length (applied p evs)
   <= length (filter is_measurement evs)
      + match p with Some _ => 1 | None => 0 end)%nat.
Proof.
  revert p. induction evs as [|ev evs IH]; intros p; simpl.
  - lia.
  - destruct ev as [m|o]; simpl.
    + specialize (IH None). destruct p; simpl in *; lia.
    + specialize (IH (Some o)). simpl in IH. lia.
Qed.

(** C8.  Whatever the interleaving of inertial and observation events
    after the construction, the filter behaves as the one-slot mailbox: at
    most one observation is pending and a new one replaces it; a correction
    runs only inside an inertial event, after its propagation, with the
    pending observation, and empties the slot in that same event; an
    inertial event with an empty slot only propagates.  The number of
    corrections (bias messages published) is the number of observations
    applied, each at most once, so at most the number of observation
    events. *)
Theorem pending_observation_protocol {lib : Library}
        (nh : NodeHandle) (u : Indeterminate) (evs : list Event) :
  let r := mailbox_run evs (ESKF_ESKF nh u, None) in
  run evs (ESKF_ESKF nh u) = (stored (fst r), snd r) /\
  length (filter is_bias (snd r)) = length (applied None evs) /\
  (length (applied None evs) <= length (filter is_measurement evs))%nat.
Proof.
  cbv zeta. split; [|split].
  - apply (run_mailbox_run evs (ESKF_ESKF nh u, None)). reflexivity.
  - apply (mailbox_bias_count evs (ESKF_ESKF nh u, None)).
  - pose proof (applied_le evs None). simpl in *. lia.
Qed.

(* ================================================================= *)
(** * The odometry message *)

(** C9, as the code has it.  The 6 x 6 pose covariance of the odometry
    message is in the order position, attitude: the position-error block of
    [Sigma] top left, taken as it is; the attitude-error block bottom
    right, conjugated by the nominal rotation ([R Sigma_aa R^T]); the
    attitude-position block times [R^T] top right and [R] times the
    position-attitude block bottom left. *)
Theorem odom_pose_covariance (f : ESKF) :
  RM.shaped 15 15 (_Sigma (cov f)) ->
  let P := of_array6 (msg.pose_covariance (publish_odom f)) in
  let R := tf.matrixTFToEigen (_rotation (nominal f)) in
  block_grid 2 2 P =
    [ [Sigma_pos_pos f;      Sigma_att_pos f *m R^T];
      [R *m Sigma_pos_att f; R *m Sigma_att_att f *m R^T] ].
Proof.
  intros HS. cbv zeta.
  unfold publish_odom, pose_sigma, Sigma_pos_pos, Sigma_att_pos, Sigma_pos_att,
    Sigma_att_att.
  cbn [msg.pose_covariance].
  destruct (shaped_3_3 _ (block_shaped 15 15 3 3 6 6 _ HS ltac:(lia) ltac:(lia)))
    as (a1 & a2 & a3 & a4 & a5 & a6 & a7 & a8 & a9 & ->).
  destruct (shaped_3_3 _ (block_shaped 15 15 3 3 3 6 _ HS ltac:(lia) ltac:(lia)))
    as (b1 & b2 & b3 & b4 & b5 & b6 & b7 & b8 & b9 & ->).
  destruct (shaped_3_3 _ (block_shaped 15 15 3 3 6 3 _ HS ltac:(lia) ltac:(lia)))
    as (c1 & c2 & c3 & c4 & c5 & c6 & c7 & c8 & c9 & ->).
  destruct (shaped_3_3 _ (block_shaped 15 15 3 3 3 3 _ HS ltac:(lia) ltac:(lia)))
    as (d1 & d2 & d3 & d4 & d5 & d6 & d7 & d8 & d9 & ->).
  destruct (_rotation (nominal f)) as [[? ? ?] [? ? ?] [? ? ?]].
  unfold block_grid. mat_eval. reflexivity.
Qed.

(** C9, as it was written, fails: with attitude variance 2 and position
    variance 1 the top-left block of the pose covariance holds the position
    variance 1, not the attitude variance. *)
Lemma pose_covariance_not_attitude_first :
  ~ attitude_first_as_written filter_example.
Proof.
  unfold attitude_first_as_written. intros [H _]. revert H.
  unfold Sigma_att_att, filter_example, Sigma_example, diag3, publish_odom,
    pose_sigma.
  cbn [msg.pose_covariance cov with_cov _Sigma nominal _rotation ESKF_ESKF].
  mat_eval. intros H. inversion H. lra.
Qed.

Lemma odom_pose_covariance_witness :
  block_grid 2 2 (of_array6 (msg.pose_covariance (publish_odom filter_example))) =
    [ [Sigma_pos_pos filter_example;
       Sigma_att_pos filter_example
         *m (tf.matrixTFToEigen (_rotation (nominal filter_example)))^T];
      [tf.matrixTFToEigen (_rotation (nominal filter_example))
         *m Sigma_pos_att filter_example;
       tf.matrixTFToEigen (_rotation (nominal filter_example))
         *m Sigma_att_att filter_example
         *m (tf.matrixTFToEigen (_rotation (nominal filter_example)))^T] ].
Proof.
  apply (odom_pose_covariance filter_example).
  unfold filter_example, Sigma_example, diag3. cbn [cov with_cov _Sigma].
  split; mat_eval; repeat constructor.
Defined.

(* ================================================================= *)
(** * The twist part of an observation *)

Section Retwist.
Context {lib : Library}.
Variables (v : tf.Vector3) (ts : RM.Matrix).

Lemma retwist_same (f : ESKF) :
  retwist (_m_velocity (meas f)) (_m_twist_sigma (meas f)) f = f.
Proof. destruct f as [? ? ? ? [] ? ? ? ?]. reflexivity. Qed.

Lemma update_time_retwist (m : msg.Imu) (f : ESKF) :
  update_time m (retwist v ts f) = retwist v ts (update_time m f).
Proof. reflexivity. Qed.

Lemma update_imu_retwist (m : msg.Imu) (f : ESKF) :
  update_imu m (retwist v ts f) = retwist v ts (update_imu m f).
Proof. reflexivity. Qed.

Lemma propagate_state_retwist (f : ESKF) :
  propagate_state (retwist v ts f) = retwist v ts (propagate_state f).
Proof. reflexivity. Qed.

Lemma propagate_covariance_retwist (f : ESKF) :
  propagate_covariance (retwist v ts f) = retwist v ts (propagate_covariance f).
Proof. reflexivity. Qed.

Lemma propagate_retwist (f : ESKF) :
  propagate (retwist v ts f) = retwist v ts (propagate f).
Proof.
  unfold propagate, propagate_error.
  now rewrite propagate_state_retwist, propagate_covariance_retwist.
Qed.

Lemma update_error_retwist (f : ESKF) :
  update_error (retwist v ts f) = retwist v ts (update_error f).
Proof. reflexivity. Qed.

Lemma update_state_retwist (f : ESKF) :
  update_state (retwist v ts f) = retwist v ts (update_state f).
Proof. reflexivity. Qed.

Lemma reset_error_retwist (f : ESKF) :
  reset_error (retwist v ts f) = retwist v ts (reset_error f).
Proof. reflexivity. Qed.

Lemma correct_retwist (f : ESKF) :
  correct (retwist v ts f) = retwist v ts (correct f).
Proof.
  unfold correct.
  now rewrite update_error_retwist, update_state_retwist, reset_error_retwist.
Qed.

Lemma clear_retwist (f : ESKF) :
  clear_got_measurements (retwist v ts f)
  = retwist v ts (clear_got_measurements f).
Proof. reflexivity. Qed.

Lemma publish_odom_retwist (f : ESKF) :
  publish_odom (retwist v ts f) = publish_odom f.
Proof. reflexivity. Qed.

Lemma publish_bias_retwist (f : ESKF) :
  publish_bias (retwist v ts f) = publish_bias f.
Proof. reflexivity. Qed.

Lemma imu_callback_retwist (m : msg.Imu) (f : ESKF) :
  imu_callback m (retwist v ts f)
  = (retwist v ts (fst (imu_callback m f)), snd (imu_callback m f)).
Proof.
  unfold imu_callback.
  rewrite update_time_retwist, update_imu_retwist, propagate_retwist.
  rewrite meas_before_correction.
  change (_got_measurements
            (meas (retwist v ts (propagate (update_imu m (update_time m f))))))
    with (_got_measurements
            (meas (propagate (update_imu m (update_time m f))))).
  rewrite meas_before_correction.
  destruct (_got_measurements (meas f)); cbn [fst snd].
  - now rewrite correct_retwist, clear_retwist, publish_bias_retwist,
      publish_odom_retwist.
  - now rewrite publish_odom_retwist.
Qed.
End Retwist.

Lemma twist_blind_refl (f : ESKF) : twist_blind f f.
Proof.
  exists (_m_velocity (meas f)), (_m_twist_sigma (meas f)).
  symmetry; apply retwist_same.
Qed.

Lemma measurement_callback_same_pose {lib : Library}
      (m1 m2 : msg.Odometry) (f : ESKF) :
  same_pose m1 m2 ->
  twist_blind (measurement_callback m1 f) (measurement_callback m2 f).
Proof.
  intros (Hp & Ho & Hc).
  exists (_m_velocity (meas (measurement_callback m2 f))),
         (_m_twist_sigma (meas (measurement_callback m2 f))).
  unfold measurement_callback, retwist.
  cbn [meas with_meas _m_velocity _m_rotation _m_quaternion _m_position
       _m_theta _got_measurements _m_pose_sigma _m_twist_sigma].
  rewrite Hp, Ho, Hc. reflexivity.
Qed.

Lemma handle_retwist {lib : Library} (ev : Event) (v : tf.Vector3)
      (ts : RM.Matrix) (f : ESKF) :
  twist_blind (fst (handle ev f)) (fst (handle ev (retwist v ts f))) /\
  snd (handle ev (retwist v ts f)) = snd (handle ev f).
Proof.
  destruct ev as [m|m]; unfold handle.
  - rewrite imu_callback_retwist. cbn [fst snd].
    split; [exists v, ts; reflexivity | reflexivity].
  - cbn [fst snd]. split; [apply twist_blind_refl | reflexivity].
Qed.

Lemma run_twist_blind {lib : Library} (evs : list Event) (f g : ESKF) :
  twist_blind f g ->
  twist_blind (fst (run evs f)) (fst (run evs g)) /\
  snd (run evs g) = snd (run evs f).
Proof.
  revert f g. induction evs as [|ev evs IH]; intros f g Hfg.
  - cbn [run fst snd]. auto.
  - destruct Hfg as (v & ts & ->).
    destruct (handle_retwist ev v ts f) as [H1 H2].
    cbn [run].
    destruct (handle ev f) as [f1 o1], (handle ev (retwist v ts f)) as [g1 p1].
    cbn [fst snd] in *. subst p1.
    destruct (IH f1 g1 H1) as [H3 H4].
    destruct (run evs f1) as [f2 o2], (run evs g1) as [g2 p2].
    cbn [fst snd] in *. now subst p2.
Qed.

Lemma twist_blind_visible (f g : ESKF) :
  twist_blind f g ->
  nominal g = nominal f /\ error g = error f /\ cov g = cov f.
Proof. intros (v & ts & ->). repeat split. Qed.

(** C10.  Two observations that agree on pose position, orientation and
    pose covariance and differ in their twist part are stored with their
    own velocity and twist covariance, and whatever events follow (the next
    inertial sample and its correction among them) the nominal state,
    [Sigma] and everything published are the same for both. *)
Theorem twist_never_used {lib : Library}
        (f : ESKF) (m1 m2 : msg.Odometry) (evs : list Event) :
  same_pose m1 m2 ->
  let r1 := run evs (measurement_callback m1 f) in
  let r2 := run evs (measurement_callback m2 f) in
  _m_velocity (meas (measurement_callback m1 f))
    = msg.vector3MsgToTF (msg.twist_linear m1) /\
  _m_twist_sigma (meas (measurement_callback m1 f))
    = of_array6 (msg.twist_covariance m1) /\
  nominal (fst r1) = nominal (fst r2) /\
  _Sigma (cov (fst r1)) = _Sigma (cov (fst r2)) /\
  snd r1 = snd r2.
Proof.
  intros Hsame. cbv zeta.
  split; [reflexivity|]. split; [reflexivity|].
  destruct (run_twist_blind evs _ _ (measurement_callback_same_pose m1 m2 f Hsame))
    as [H1 H2].
  destruct (twist_blind_visible _ _ H1) as (Hn & _ & Hc).
  rewrite Hn, Hc, H2. repeat split.
Qed.

(** Two observations that differ in velocity and twist covariance, followed
    by one inertial sample. *)
Lemma twist_never_used_witness :
  let f := ESKF_ESKF (lib := Reference.library) nh_defaults no_values in
  let evs := [imu_event (sample_x 1)] in
  nominal (fst (run (lib := Reference.library) evs
                  (measurement_callback (lib := Reference.library)
                     (observation 0 []) f)))
  = nominal (fst (run (lib := Reference.library) evs
                    (measurement_callback (lib := Reference.library)
                       (observation 5 (to_array6 (RM.Identity 6 6))) f))).
Proof.
  refine (proj1 (proj2 (proj2
    (twist_never_used (lib := Reference.library)
       (ESKF_ESKF (lib := Reference.library) nh_defaults no_values)
       (observation 0 []) (observation 5 (to_array6 (RM.Identity 6 6)))
       [imu_event (sample_x 1)] _)))).
  repeat split.
Defined.

(* ================================================================= *)
(** * The stationary scenario *)

Lemma still_filter_run {lib : Library} (az : R) (n : nat) :
  still_filter az n
  = fst (run (still_events az n) (ESKF_ESKF nh_defaults no_values)).
Proof.
  induction n as [|n IH].
  - reflexivity.
  - unfold still_events. rewrite seq_S, map_app. cbn [map Nat.add].
    rewrite run_snoc, handle_imu. fold (still_events az n).
    rewrite <- IH. reflexivity.
Qed.

Lemma still_inv_0 {lib : Library} (az : R) :
  still_inv az 0 (ESKF_ESKF nh_defaults no_values).
Proof. repeat split. Qed.

Lemma still_dt (az : R) (n : nat) (f : ESKF) :
  still_inv az n f ->
  _dt (clock (update_time (still_sample az n) f)) = 0.02.
Proof.
  intros (Hp & _ & _ & _ & _ & _ & Hc & _).
  unfold update_time. cbn [clock with_clock _dt].
  destruct n as [|k].
  - rewrite Hc, Hp. cbn. lra.
  - destruct Hc as [Hc1 Hc2]. rewrite Hc1, Hc2. cbn [fst].
    unfold msg.toSec, still_sample. cbn [msg.imu_stamp msg.sec msg.nsec].
    rewrite !mult_IZR, <- !INR_IZR_INZ, S_INR. lra.
Qed.

Lemma still_acceleration (az : R) (n : nat) (f : ESKF) :
  still_inv az n f ->
  _imu_acceleration (imu (update_imu (still_sample az n)
                            (update_time (still_sample az n) f)))
  = tf.mkVector3 0 0 az.
Proof.
  intros (Hp & _ & _ & _ & _ & _ & _ & Hq & Hcnt).
  unfold update_imu.
  cbn [imu with_imu _imu_acceleration queue with_queue update_time with_clock
       params].
  rewrite Hp, Hq, Hcnt. cbn [_acc_queue_size default_params].
  destruct (Z.ltb_spec (Z.of_nat n) 5) as [Hlt|Hge]; cbn [snd].
  - reflexivity.
  - rewrite Nat.min_r by lia. rewrite assign_repeat.
    change (msg.linear_acceleration (still_sample az n))
      with (msg.mkVector3 0 0 az).
    unfold acc_avg.
    cbv [fold_left seq Z.to_nat Pos.to_nat Pos.iter_op Nat.add nth repeat
         msg.x msg.y msg.z tf.x tf.y tf.z tf.zero3].
    apply vector3_eq; cbv [tf.x tf.y tf.z]; field.
Qed.

(** One propagation of a level filter at rest in the scenario. *)
Lemma propagate_still {lib : Library} (az vz pz : R) (g : ESKF) :
  _gravity g = tf.mkVector3 0.0 0.0 9.82 ->
  _rotation (nominal g) = tf.identity ->
  _bias_acc (nominal g) = tf.mkVector3 0.0 0.0 0.0 ->
  _bias_gyr (nominal g) = tf.zero3 ->
  _imu_acceleration (imu g) = tf.mkVector3 0 0 az ->
  _imu_angular_velocity (imu g) = tf.zero3 ->
  _dt (clock g) = 0.02 ->
  _velocity (nominal g) = tf.mkVector3 0 0 vz ->
  _position (nominal g) = tf.mkVector3 0 0 pz ->
  _velocity (nominal (propagate g)) = tf.mkVector3 0 0 (vz + (az + 9.82) * 0.02) /\
  _rotation (nominal (propagate g)) = tf.identity /\
  _position (nominal (propagate g))
    = tf.mkVector3 0 0 (pz + vz * 0.02 + (az + 9.82) * 0.0002) /\
  _bias_acc (nominal (propagate g)) = tf.mkVector3 0.0 0.0 0.0 /\
  _bias_gyr (nominal (propagate g)) = tf.zero3.
Proof.
  intros Hg HR Hba Hbg Ha Hw Hdt Hv Hp.
  unfold propagate, propagate_covariance, propagate_error, propagate_state.
  cbn [nominal with_cov with_nominal _velocity _rotation _position _bias_acc
       _bias_gyr _gravity imu clock].
  rewrite Hg, HR, Hba, Hbg, Ha, Hw, Hdt, Hv, Hp.
  repeat split.
  - tf_eq; dec_norm; field.
  - rewrite vec_to_rot_still. tf_eq; ring.
  - tf_eq; dec_norm; field.
Qed.

Lemma still_step {lib : Library} (az : R) (n : nat) (f : ESKF) :
  still_inv az n f -> still_nominal az n f ->
  still_inv az (S n) (fst (imu_callback (still_sample az n) f)) /\
  still_nominal az (S n) (fst (imu_callback (still_sample az n) f)).
Proof.
  intros Hinv Hnom.
  pose proof (still_dt az n f Hinv) as Hdt.
  pose proof (still_acceleration az n f Hinv) as Hacc.
  destruct Hinv as (Hp & Hg & HR & Hba & Hbg & Hm & Hc & Hq & Hcnt).
  destruct Hnom as [Hv Hpos].
  rewrite imu_callback_idle by exact Hm. cbn [fst].
  set (g := update_imu (still_sample az n) (update_time (still_sample az n) f)) in *.
  destruct (propagate_still az _ _ g Hg HR Hba Hbg Hacc eq_refl Hdt Hv Hpos)
    as (Hv' & HR' & Hp' & Hba' & Hbg').
  split; [|split].
  - unfold still_inv.
    split; [exact Hp|]. split; [exact Hg|]. split; [exact HR'|].
    split; [exact Hba'|]. split; [exact Hbg'|]. split; [exact Hm|].
    split; [|split].
    + change (clock (propagate g)) with (clock (update_time (still_sample az n) f)).
      unfold update_time. cbn [clock with_clock _init_time _imu_time].
      split; [|reflexivity].
      destruct n; [rewrite Hc | destruct Hc as [-> _]]; reflexivity.
    + change (_acc_queue (queue (propagate g))) with (_acc_queue (queue g)).
      unfold g, update_imu.
      cbn [queue with_imu with_queue _acc_queue update_time with_clock params].
      rewrite Hp, Hq, Hcnt. cbn [_acc_queue_size default_params].
      destruct (Z.ltb_spec (Z.of_nat n) 5) as [Hlt|Hge]; cbn [fst].
      * rewrite !Nat.min_l by lia.
        change (msg.linear_acceleration (still_sample az n))
          with (msg.mkVector3 0 0 az).
        rewrite <- repeat_cons. reflexivity.
      * rewrite !Nat.min_r by lia. apply assign_repeat.
    + change (_acc_queue_count (queue (propagate g)))
        with (_acc_queue_count (queue f) + 1)%Z.
      rewrite Hcnt. lia.
  - rewrite Hv'. f_equal. rewrite S_INR. dec_norm. field.
  - rewrite Hp'. f_equal. rewrite S_INR. dec_norm. field.
Qed.

Lemma still_filter_inv {lib : Library} (az : R) (n : nat) :
  still_inv az n (still_filter az n) /\ still_nominal az n (still_filter az n).
Proof.
  induction n as [|n [IH1 IH2]].
  - split; [apply still_inv_0|]. split; cbn; apply vector3_eq; cbn; lra.
  - cbn [still_filter]. now apply still_step.
Qed.

(** ** From the rationals to the reals *)

Lemma Q2R_zero : Q2R 0 = 0.
Proof. unfold Q2R; simpl; lra. Qed.

Lemma Q2R_qadd (a b : Q) : Q2R (QM.qadd a b) = Q2R a + Q2R b.
Proof.
  unfold QM.qadd. rewrite (Qeq_eqR _ _ (Qred_correct _)). apply Q2R_plus.
Qed.

Lemma Q2R_qmul (a b : Q) : Q2R (QM.qmul a b) = Q2R a * Q2R b.
Proof.
  unfold QM.qmul. rewrite (Qeq_eqR _ _ (Qred_correct _)). apply Q2R_mult.
Qed.

Lemma liftQ_mul (A B : QM.Matrix) : liftQ A *m liftQ B = liftQ (QM.mul A B).
Proof.
  apply (EigenFacts.mul_lift Q2R);
    [apply Q2R_zero | apply Q2R_qadd | apply Q2R_qmul].
Qed.

Lemma liftQ_add (A B : QM.Matrix) : liftQ A +m liftQ B = liftQ (QM.add A B).
Proof. apply (EigenFacts.add_lift Q2R), Q2R_qadd. Qed.

Lemma liftQ_transpose (A : QM.Matrix) : (liftQ A)^T = liftQ (QM.transpose A).
Proof. apply (EigenFacts.transpose_lift Q2R), Q2R_zero. Qed.

Lemma liftQ_block (p q i j : nat) (A : QM.Matrix) :
  RM.block p q i j (liftQ A) = liftQ (QM.block p q i j A).
Proof.
  unfold RM.block, QM.block, Eigen.block, liftQ, Eigen.lift.
  rewrite skipn_map, firstn_map, !map_map. apply map_ext; intros r.
  now rewrite skipn_map, firstn_map.
Qed.

Lemma liftQ_trace (A : QM.Matrix) : RM.trace (liftQ A) = Q2R (QM.trace A).
Proof.
  apply (EigenFacts.trace_lift Q2R); [apply Q2R_zero | apply Q2R_qadd].
Qed.

Lemma trace_vel_liftQ (S : QM.Matrix) :
  trace_vel (liftQ S) = Q2R (trace_velQ S).
Proof. unfold trace_vel, trace_velQ. now rewrite liftQ_block, liftQ_trace. Qed.

Lemma trace_pos_liftQ (S : QM.Matrix) :
  trace_pos (liftQ S) = Q2R (trace_posQ S).
Proof. unfold trace_pos, trace_posQ. now rewrite liftQ_block, liftQ_trace. Qed.

Lemma liftQ_zero : RM.Zero 15 15 = liftQ (Eigen.Zero 0%Q 15 15).
Proof.
  unfold liftQ, Eigen.lift, RM.Zero, Eigen.Zero.
  rewrite !map_repeat, Q2R_zero. reflexivity.
Qed.

Ltac liftQ_entries :=
  unfold liftQ, Eigen.lift;
  cbv [still_Fx still_FxQ still_noise still_noiseQ diag3
       QM.blocks QM.I3 QM.Z3 QM.diag3];
  mat_eval; list_eq;
  rewrite ?(Qeq_eqR _ _ (Qred_correct _)); unfold Q2R; simpl; lra.

Lemma still_Fx_down : still_Fx (- 9.82) = liftQ (still_FxQ (- 982 # 100)).
Proof. liftQ_entries. Qed.

Lemma still_Fx_up : still_Fx 9.82 = liftQ (still_FxQ (982 # 100)).
Proof. liftQ_entries. Qed.

Lemma still_noise_liftQ : still_noise = liftQ still_noiseQ.
Proof. liftQ_entries. Qed.

Lemma still_step_liftQ (az : R) (azQ : Q) (S : QM.Matrix) :
  still_Fx az = liftQ (still_FxQ azQ) ->
  still_Fx az *m liftQ S *m (still_Fx az)^T +m still_noise
  = liftQ (still_stepQ azQ S).
Proof.
  intros ->. rewrite still_noise_liftQ.
  now rewrite liftQ_transpose, !liftQ_mul, liftQ_add.
Qed.

Lemma ltb_Rlt (a b : Q) : QM.ltb a b = true -> Q2R a < Q2R b.
Proof.
  unfold QM.ltb. intros H. apply Qlt_Rlt. apply Qlt_alt.
  destruct (a ?= b)%Q; congruence.
Qed.

Lemma growth_check_sound (az : Q) (n : nat) (S : QM.Matrix) (first : bool) :
  growth_check az n first S = true ->
  forall k, (k < n)%nat ->
    Q2R (trace_velQ (Nat.iter k (still_stepQ az) S))
    < Q2R (trace_velQ (Nat.iter (Datatypes.S k) (still_stepQ az) S)) /\
    (if first && Nat.eqb k 0
     then Q2R (trace_posQ (Nat.iter k (still_stepQ az) S)) = 0 /\
          Q2R (trace_posQ (Nat.iter (Datatypes.S k) (still_stepQ az) S)) = 0
     else Q2R (trace_posQ (Nat.iter k (still_stepQ az) S))
          < Q2R (trace_posQ (Nat.iter (Datatypes.S k) (still_stepQ az) S))).
Proof.
  revert S first. induction n as [|n IH]; intros S first H k Hk; [lia|].
  cbn [growth_check] in H.
  apply andb_prop in H. destruct H as [H H3].
  apply andb_prop in H. destruct H as [H1 H2].
  destruct k as [|k].
  - cbn [Nat.iter nat_rect Nat.eqb]. split; [now apply ltb_Rlt|].
    rewrite andb_true_r. destruct first.
    + apply andb_prop in H2. destruct H2 as [Ha Hb].
      apply Qeq_bool_eq in Ha, Hb.
      rewrite (Qeq_eqR _ _ Ha), (Qeq_eqR _ _ Hb). split; apply Q2R_zero.
    + now apply ltb_Rlt.
  - specialize (IH _ _ H3 k ltac:(lia)).
    rewrite (Nat.iter_succ_r k), (Nat.iter_succ_r (Datatypes.S k)).
    replace (first && Nat.eqb (Datatypes.S k) 0)%bool with false
      by (cbn; now rewrite andb_false_r).
    cbn [andb] in IH. exact IH.
Qed.

Lemma growth_down :
  growth_check (- 982 # 100) 50 true (Eigen.Zero 0%Q 15 15) = true.
Proof. vm_compute. reflexivity. Qed.

Lemma growth_up :
  growth_check (982 # 100) 50 true (Eigen.Zero 0%Q 15 15) = true.
Proof. vm_compute. reflexivity. Qed.

(** ** The covariance of the scenario *)

Lemma jacobian_Fx_still {lib : Library} (az : R) (h : ESKF) :
  _rotation (nominal h) = tf.identity ->
  _bias_acc (nominal h) = tf.mkVector3 0.0 0.0 0.0 ->
  _bias_gyr (nominal h) = tf.zero3 ->
  _imu_acceleration (imu h) = tf.mkVector3 0 0 az ->
  _imu_angular_velocity (imu h) = tf.zero3 ->
  _dt (clock h) = 0.02 ->
  jacobian_Fx h = still_Fx az.
Proof.
  intros HR Hba Hbg Ha Hw Hdt. unfold jacobian_Fx.
  rewrite HR, Hba, Hbg, Ha, Hw, Hdt, vec_to_rot_still.
  unfold still_Fx, diag3. mat_eval. tf_unfold. list_eq; lra.
Qed.

Lemma noise_still {lib : Library} (h : ESKF) :
  params h = default_params ->
  _rotation (nominal h) = tf.identity ->
  _dt (clock h) = 0.02 ->
  jacobian_Fn h *m noise_Q h *m (jacobian_Fn h)^T = still_noise.
Proof.
  intros Hp HR Hdt. unfold jacobian_Fn, noise_Q.
  rewrite Hp, HR, Hdt.
  cbn [default_params _sigma_acc _sigma_gyr _sigma_bias_acc _sigma_bias_gyr].
  unfold still_noise, diag3. mat_eval. tf_unfold. list_eq; lra.
Qed.

Lemma still_step_cov {lib : Library} (az : R) (n : nat) (f : ESKF) :
  still_inv az n f ->
  _Sigma (cov (fst (imu_callback (still_sample az n) f)))
  = still_Fx az *m _Sigma (cov f) *m (still_Fx az)^T +m still_noise.
Proof.
  intros Hinv.
  pose proof (still_dt az n f Hinv) as Hdt.
  pose proof (still_acceleration az n f Hinv) as Hacc.
  destruct Hinv as (Hp & Hg & HR & Hba & Hbg & Hm & Hc & Hq & Hcnt).
  rewrite imu_callback_idle by exact Hm. cbn [fst].
  set (g := update_imu (still_sample az n) (update_time (still_sample az n) f)) in *.
  unfold propagate, propagate_error, propagate_covariance.
  cbn [cov with_cov _Sigma].
  change (_Sigma (cov (propagate_state g))) with (_Sigma (cov f)).
  assert (HR' : _rotation (nominal (propagate_state g)) = tf.identity).
  { unfold propagate_state. cbn [nominal with_nominal _rotation].
    change (nominal g) with (nominal f).
    rewrite HR, Hbg.
    change (_imu_angular_velocity (imu g)) with tf.zero3.
    rewrite vec_to_rot_still. tf_eq; ring. }
  rewrite (jacobian_Fx_still az (propagate_state g) HR' Hba Hbg Hacc eq_refl Hdt).
  rewrite (noise_still (propagate_state g) Hp HR' Hdt).
  reflexivity.
Qed.

Lemma still_filter_Sigma {lib : Library} (az : R) (azQ : Q) (n : nat) :
  still_Fx az = liftQ (still_FxQ azQ) ->
  _Sigma (cov (still_filter az n)) = liftQ (still_SigmaQ azQ n).
Proof.
  intros HF. induction n as [|n IH].
  - apply liftQ_zero.
  - cbn [still_filter].
    rewrite (still_step_cov az n _ (proj1 (still_filter_inv az n))), IH.
    rewrite (still_step_liftQ az azQ _ HF). reflexivity.
Qed.

Lemma still_growth {lib : Library} (az : R) (azQ : Q) (n : nat) :
  still_Fx az = liftQ (still_FxQ azQ) ->
  growth_check azQ 50 true (Eigen.Zero 0%Q 15 15) = true ->
  (n < 50)%nat ->
  trace_vel (_Sigma (cov (still_filter az n)))
  < trace_vel (_Sigma (cov (still_filter az (S n)))) /\
  (if Nat.eqb n 0
   then trace_pos (_Sigma (cov (still_filter az n))) = 0 /\
        trace_pos (_Sigma (cov (still_filter az (S n)))) = 0
   else trace_pos (_Sigma (cov (still_filter az n)))
        < trace_pos (_Sigma (cov (still_filter az (S n))))).
Proof.
  intros HF Hchk Hn.
  rewrite !(still_filter_Sigma az azQ _ HF).
  rewrite !trace_vel_liftQ, !trace_pos_liftQ.
  exact (growth_check_sound azQ 50 _ true Hchk n Hn).
Qed.

(** C1, as it was written, fails: with the reading [(0, 0, 9.82)] the
    configured gravity [(0, 0, 9.82)] is added to it, and after 50 steps
    the vertical velocity is 19.64, not within [1e-9] of zero. *)
Lemma gravity_adds_up : ~ stationary_as_written (lib := Reference.library).
Proof.
  intros H. destruct (H 50%nat (le_n _)) as (_ & _ & Hz & _).
  destruct (still_filter_inv (lib := Reference.library) 9.82 50) as [_ [Hv _]].
  rewrite Hv in Hz. cbn [tf.z] in Hz.
  replace (INR 50) with 50 in Hz by (rewrite INR_IZR_INZ; reflexivity).
  rewrite Rabs_pos_eq in Hz; lra.
Qed.

(** C1, as the code has it.  Default parameters (gravity 9.82, 50 Hz),
    samples 0.02 s apart with zero angular velocity, no observation; step
    [n + 1] of the 50 steps.  With the reading [(0, 0, -9.82)] the nominal
    velocity and position stay exactly [(0, 0, 0)]; with the reading
    [(0, 0, 9.82)] the velocity is [(0, 0, 0.3928 (n+1))] and the position
    [(0, 0, 0.003928 (n+1)^2)].  With either reading the trace of the
    velocity block of [Sigma] grows strictly at every step, and the trace
    of the position block grows strictly at every step but the first, where
    it is zero before and after. *)
Theorem stationary_scenario {lib : Library} (n : nat) :
  (n < 50)%nat ->
  let down := still_filter (- 9.82) in
  let up := still_filter 9.82 in
  _velocity (nominal (down (S n))) = tf.mkVector3 0 0 0 /\
  _position (nominal (down (S n))) = tf.mkVector3 0 0 0 /\
  _velocity (nominal (up (S n))) = tf.mkVector3 0 0 (0.3928 * INR (S n)) /\
  _position (nominal (up (S n)))
    = tf.mkVector3 0 0 (0.003928 * INR (S n) * INR (S n)) /\
  trace_vel (_Sigma (cov (down n))) < trace_vel (_Sigma (cov (down (S n)))) /\
  trace_vel (_Sigma (cov (up n))) < trace_vel (_Sigma (cov (up (S n)))) /\
  (if Nat.eqb n 0
   then trace_pos (_Sigma (cov (down n))) = 0 /\
        trace_pos (_Sigma (cov (down (S n)))) = 0
   else trace_pos (_Sigma (cov (down n)))
        < trace_pos (_Sigma (cov (down (S n))))) /\
  (if Nat.eqb n 0
   then trace_pos (_Sigma (cov (up n))) = 0 /\
        trace_pos (_Sigma (cov (up (S n)))) = 0
   else trace_pos (_Sigma (cov (up n))) < trace_pos (_Sigma (cov (up (S n))))).
Proof.
  intros Hn down up.
  destruct (still_filter_inv (- 9.82) (S n)) as [_ [Hvd Hpd]].
  destruct (still_filter_inv 9.82 (S n)) as [_ [Hvu Hpu]].
  destruct (still_growth (- 9.82) _ n still_Fx_down growth_down Hn) as [Gvd Gpd].
  destruct (still_growth 9.82 _ n still_Fx_up growth_up Hn) as [Gvu Gpu].
  subst down up. cbv beta.
  rewrite Hvd, Hpd, Hvu, Hpu.
  repeat match goal with |- _ /\ _ => split end; try assumption;
    f_equal; lra.
Qed.

(** The third step. *)
Lemma stationary_scenario_witness :
  _velocity (nominal (still_filter (lib := Reference.library) (- 9.82) 3))
  = tf.mkVector3 0 0 0.
Proof.
  exact (proj1 (stationary_scenario (lib := Reference.library) 2 ltac:(lia))).
Defined.

(* ================================================================= *)
(** * Rotation matrices: [skew] and [vec_to_rot] *)

Ltac tf3_unfold := cbv [cross transpose3 opp3]; tf_unfold.
Ltac tf3_eq :=
  repeat first [apply matrix3x3_eq | apply vector3_eq]; tf3_unfold.

(** X1. [skew w] is the matrix of the cross product with [w]: it maps [v]
    to [w x v], it maps [w] to zero, and its transpose is its opposite. *)
Theorem skew_cross (w v : tf.Vector3) :
  tf.mv (skew w) v = cross w v /\
  tf.mv (skew w) w = tf.zero3 /\
  transpose3 (skew w) = opp3 (skew w).
Proof.
  destruct w as [wx wy wz], v as [vx vy vz].
  repeat split; tf3_eq; ring.
Qed.

Lemma transpose3_mm (a b : tf.Matrix3x3) :
  transpose3 (tf.mm a b) = tf.mm (transpose3 b) (transpose3 a).
Proof.
  destruct a as [[? ? ?] [? ? ?] [? ? ?]], b as [[? ? ?] [? ? ?] [? ? ?]].
  tf3_eq; ring.
Qed.

Lemma orthonormal_identity : orthonormal tf.identity.
Proof. split; tf3_eq; ring. Qed.

Lemma orthonormal_mm (a b : tf.Matrix3x3) :
  orthonormal a -> orthonormal b -> orthonormal (tf.mm a b).
Proof.
  intros [Ha1 Ha2] [Hb1 Hb2]. unfold orthonormal. rewrite transpose3_mm. split.
  - rewrite mm_assoc, <- (mm_assoc b), Hb1, mm_identity_l. exact Ha1.
  - rewrite mm_assoc, <- (mm_assoc (transpose3 a)), Ha2, mm_identity_l. exact Hb2.
Qed.

Lemma orthonormal_rot_x (t : R) : orthonormal (rot_x t).
Proof.
  pose proof (sin2_cos2 t) as H. unfold Rsqr in H.
  split; unfold rot_x; tf3_eq; nra.
Qed.

Lemma orthonormal_rot_y (t : R) : orthonormal (rot_y t).
Proof.
  pose proof (sin2_cos2 t) as H. unfold Rsqr in H.
  split; unfold rot_y; tf3_eq; nra.
Qed.

Lemma orthonormal_rot_z (t : R) : orthonormal (rot_z t).
Proof.
  pose proof (sin2_cos2 t) as H. unfold Rsqr in H.
  split; unfold rot_z; tf3_eq; nra.
Qed.

Lemma orthonormal_setRPY (roll pitch yaw : R) :
  orthonormal (tf.setRPY roll pitch yaw).
Proof.
  rewrite setRPY_euler.
  auto using orthonormal_mm, orthonormal_rot_x, orthonormal_rot_y,
    orthonormal_rot_z.
Qed.

(** X2. Whatever vector it is given, [vec_to_rot] returns a rotation
    matrix: the product with its transpose is the identity on both
    sides. *)
Theorem vec_to_rot_orthonormal (w : tf.Vector3) : orthonormal (vec_to_rot w).
Proof.
  unfold vec_to_rot. rewrite setRPY_euler.
  repeat apply orthonormal_mm;
    [apply orthonormal_rot_z | apply orthonormal_rot_y | apply orthonormal_rot_x].
Qed.

Lemma rodrigues_coefficients (t : R) :
  t <> 0 ->
  let theta := sqrt (t * t) in
  sin theta / theta * t = sin t /\
  (1 - cos theta) / (theta * theta) * (t * t) = 1 - cos t.
Proof.
  intros Ht. cbv zeta.
  replace (sqrt (t * t)) with (Rabs t) by (symmetry; apply sqrt_Rsqr_abs).
  unfold Rabs. destruct (Rcase_abs t) as [Hneg|Hpos].
  - rewrite sin_neg, cos_neg. split; field; lra.
  - split; field; lra.
Qed.

(** X3. For a vector along one coordinate axis the Euler construction of
    [vec_to_rot] is the exponential map of that rotation vector. *)
Theorem vec_to_rot_single_axis (t : R) :
  vec_to_rot (tf.mkVector3 t 0 0) = exp_so3 (tf.mkVector3 t 0 0) /\
  vec_to_rot (tf.mkVector3 0 t 0) = exp_so3 (tf.mkVector3 0 t 0) /\
  vec_to_rot (tf.mkVector3 0 0 t) = exp_so3 (tf.mkVector3 0 0 t).
Proof.
  destruct (Req_dec t 0) as [->|Ht].
  - repeat split; unfold exp_so3; tf_eq; rewrite ?sin_0, ?cos_0; ring.
  - destruct (rodrigues_coefficients t Ht) as [Ha Hb]. cbv zeta in Ha, Hb.
    repeat split; unfold exp_so3; tf_eq;
      replace (t * t + 0 * 0 + 0 * 0) with (t * t) by ring;
      replace (0 * 0 + t * t + 0 * 0) with (t * t) by ring;
      replace (0 * 0 + 0 * 0 + t * t) with (t * t) by ring;
      rewrite ?sin_0, ?cos_0;
      set (a := sin (sqrt (t * t)) / sqrt (t * t)) in *;
      set (b := (1 - cos (sqrt (t * t))) / (sqrt (t * t) * sqrt (t * t))) in *;
      nra.
Qed.

(* ================================================================= *)
(** * Products with rows and columns of the identity *)

Lemma dot_unit_from (s n k : nat) (v : list R) :
  dotR (map (fun j => if Nat.eqb k j then 1 else 0) (seq s n)) v
  = if (s <=? k) && (k <? s + n) then nth (k - s) v 0 else 0.
Proof.
  revert s v. induction n as [|n IH]; intros s v.
  - simpl. destruct (Nat.leb_spec s k), (Nat.ltb_spec k (s + 0));
      simpl; try reflexivity; lia.
  - simpl seq. simpl map. destruct v as [|a v].
    + simpl. destruct (_ && _); [destruct (k - s)%nat|]; reflexivity.
    + unfold dotR in *. simpl Eigen.dot. rewrite IH.
      destruct (Nat.eqb_spec k s) as [->|Hne].
      * rewrite Nat.sub_diag. simpl nth.
        replace (S s <=? s) with false by (symmetry; apply Nat.leb_gt; lia).
        replace (s <=? s) with true by (symmetry; apply Nat.leb_le; lia).
        replace (s <? s + S n) with true by (symmetry; apply Nat.ltb_lt; lia).
        simpl. ring.
      * destruct (Nat.leb_spec s k) as [Hle|Hgt].
        -- replace (S s <=? k) with true by (symmetry; apply Nat.leb_le; lia).
           replace (k <? S s + n) with (k <? s + S n)
             by (f_equal; lia).
           simpl andb. destruct (k <? s + S n).
           ++ replace (k - s)%nat with (S (k - S s)) by lia. simpl. ring.
           ++ ring.
        -- replace (S s <=? k) with false by (symmetry; apply Nat.leb_gt; lia).
           simpl. ring.
Qed.

Lemma dot_unit_l (n k : nat) (v : list R) :
  (k < n)%nat -> dotR (unit_row n k) v = nth k v 0.
Proof.
  intros Hk. unfold unit_row. rewrite dot_unit_from.
  simpl. replace (k <? n) with true by (symmetry; apply Nat.ltb_lt; lia).
  now rewrite Nat.sub_0_r.
Qed.

Lemma dot_comm (u v : list R) : dotR u v = dotR v u.
Proof.
  unfold dotR. revert v. induction u as [|a u IH]; intros [|b v]; simpl; auto.
  rewrite IH. ring.
Qed.

Lemma dot_unit_r (n k : nat) (v : list R) :
  (k < n)%nat -> dotR v (unit_row n k) = nth k v 0.
Proof. intros. rewrite dot_comm. now apply dot_unit_l. Qed.

Lemma skipn_cons_nth {A : Type} (d : A) (r : list A) (s : nat) :
  (s < length r)%nat -> skipn s r = nth s r d :: skipn (S s) r.
Proof.
  revert r. induction s as [|s IH]; intros [|a r] H; simpl in *; try lia; auto.
  apply IH. lia.
Qed.

Lemma nth_window {A : Type} (d : A) (r : list A) (s n : nat) :
  (s + n <= length r)%nat ->
  map (fun k => nth k r d) (seq s n) = firstn n (skipn s r).
Proof.
  revert s. induction n as [|n IH]; intros s H; [reflexivity|].
  simpl seq. simpl map. rewrite IH by lia.
  rewrite (skipn_cons_nth d r s) by lia. reflexivity.
Qed.

Lemma nth_all {A : Type} (d : A) (r : list A) :
  map (fun k => nth k r d) (seq 0 (length r)) = r.
Proof.
  rewrite nth_window by lia. simpl. apply firstn_all.
Qed.

Lemma col_coeff (A : RM.Matrix) (j i : nat) :
  nth i (Eigen.col 0 A j) 0 = RM.coeff A i j.
Proof.
  unfold Eigen.col, RM.coeff, Eigen.coeff.
  transitivity (nth i (map (fun r => nth j r 0) A) ((fun r => nth j r 0) [])).
  - f_equal. cbv beta. now destruct j.
  - apply (map_nth (fun r => nth j r 0)).
Qed.

Lemma shaped_cols (r c : nat) (A : RM.Matrix) :
  RM.shaped (S r) c A -> Eigen.cols A = c.
Proof.
  intros [HL HF]. destruct A as [|a A]; [discriminate|].
  unfold Eigen.cols. simpl. now inversion HF.
Qed.

Lemma shaped_row (r c : nat) (A : RM.Matrix) (i : nat) :
  RM.shaped r c A -> (i < r)%nat -> length (nth i A []) = c.
Proof.
  intros [HL HF] Hi. rewrite Forall_forall in HF. apply HF, nth_In. lia.
Qed.

(** The rows [s .. s+n-1] of [A], selected by unit rows. *)
Lemma select_rows (r c s n : nat) (A : RM.Matrix) :
  RM.shaped (S r) c A -> (s + n <= S r)%nat ->
  map (fun k => unit_row (S r) k) (seq s n) *m A = firstn n (skipn s A).
Proof.
  intros HA Hs. unfold RM.mul, Eigen.mul. rewrite map_map.
  rewrite <- (nth_window [] A s n) by (destruct HA; lia).
  apply map_ext_in. intros k Hk. apply in_seq in Hk.
  unfold Eigen.transpose. rewrite map_map, (shaped_cols r c A HA).
  rewrite <- (shaped_row (S r) c A k HA) by lia.
  rewrite <- (nth_all 0 (nth k A [])) at 2.
  apply map_ext. intros j.
  change (Eigen.dot 0 Rplus Rmult) with dotR.
  rewrite dot_unit_l by lia. apply col_coeff.
Qed.

(** The columns [s .. s+n-1] of [A], selected by the transposes of unit
    rows. *)
Lemma select_cols (r c s n : nat) (A U : RM.Matrix) :
  RM.shaped r c A -> (s + n <= c)%nat ->
  U^T = map (fun k => unit_row c k) (seq s n) ->
  A *m U = map (fun row => firstn n (skipn s row)) A.
Proof.
  intros [HL HF] Hs HU. unfold RM.mul, Eigen.mul.
  fold (RM.transpose U). rewrite HU.
  apply map_ext_in. intros row Hrow.
  rewrite Forall_forall in HF. specialize (HF row Hrow).
  rewrite map_map. rewrite <- (nth_window 0 row s n) by lia.
  apply map_ext_in. intros k Hk. apply in_seq in Hk.
  change (Eigen.dot 0 Rplus Rmult) with dotR.
  apply dot_unit_r. lia.
Qed.

Lemma obs_H_units : obs_H = map (fun k => unit_row 15 k) (seq 3 6).
Proof. unfold obs_H, unit_row. mat_eval. reflexivity. Qed.

Lemma obs_H_tt_units : (obs_H^T)^T = map (fun k => unit_row 15 k) (seq 3 6).
Proof. unfold obs_H, unit_row. mat_eval. reflexivity. Qed.

Lemma identity_units (n : nat) :
  RM.Identity n n = map (fun k => unit_row n k) (seq 0 n).
Proof. reflexivity. Qed.

Lemma identity_15_tt :
  ((RM.Identity 15 15)^T)^T = map (fun k => unit_row 15 k) (seq 0 15).
Proof. unfold unit_row. mat_eval. reflexivity. Qed.

Lemma shaped_window (r c s n : nat) (A : RM.Matrix) :
  RM.shaped r c A -> (s + n <= r)%nat -> RM.shaped n c (firstn n (skipn s A)).
Proof.
  intros [HL HF] Hs. split.
  - rewrite length_firstn, length_skipn. lia.
  - now apply Forall_firstn, Forall_skipn.
Qed.

Ltac shaped_eval :=
  unfold RM.shaped, Eigen.shaped; mat_eval; split;
  [reflexivity | repeat constructor].

Lemma Sigma_example_shaped : RM.shaped 15 15 Sigma_example.
Proof. unfold Sigma_example, diag3. shaped_eval. Qed.

(* ================================================================= *)
(** * The innovation covariance *)

(** X4. The observation matrix only selects: for a 15 x 15 covariance,
    [H Sigma H^T] is its 6 x 6 block of attitude and position (rows and
    columns 3 to 8) and [Sigma H^T] its columns 3 to 8. *)
Theorem innovation_selects (S : RM.Matrix) :
  RM.shaped 15 15 S ->
  obs_H *m S *m obs_H^T = RM.block 6 6 3 3 S /\
  S *m obs_H^T = RM.block 15 6 0 3 S.
Proof.
  intros HS. split.
  - rewrite obs_H_units at 1.
    rewrite (select_rows 14 15 3 6 S HS) by lia.
    rewrite (select_cols 6 15 3 6 _ (obs_H^T)
               (shaped_window 15 15 3 6 S HS ltac:(lia)) ltac:(lia) obs_H_tt_units).
    reflexivity.
  - rewrite (select_cols 15 15 3 6 S (obs_H^T) HS ltac:(lia) obs_H_tt_units).
    unfold RM.block, Eigen.block. simpl skipn at 2.
    f_equal. symmetry. apply firstn_all2. destruct HS; lia.
Qed.

Lemma innovation_selects_witness :
  obs_H *m Sigma_example *m obs_H^T = RM.block 6 6 3 3 Sigma_example /\
  Sigma_example *m obs_H^T = RM.block 15 6 0 3 Sigma_example.
Proof. exact (innovation_selects Sigma_example Sigma_example_shaped). Defined.

(* ================================================================= *)
(** * A zero time step *)

Lemma mul_identity_l (S : RM.Matrix) :
  RM.shaped 15 15 S -> RM.Identity 15 15 *m S = S.
Proof.
  intros HS. rewrite identity_units, (select_rows 14 15 0 15 S HS) by lia.
  simpl skipn. apply firstn_all2. destruct HS; lia.
Qed.

Lemma mul_identity_r (S : RM.Matrix) :
  RM.shaped 15 15 S -> S *m (RM.Identity 15 15)^T = S.
Proof.
  intros HS.
  rewrite (select_cols 15 15 0 15 S _ HS ltac:(lia) identity_15_tt).
  destruct HS as [_ HF]. induction HF as [|row S Hrow HF IH]; [reflexivity|].
  cbn [map skipn] in *. rewrite IH. f_equal. apply firstn_all2. lia.
Qed.

Lemma add_zero_r (r c : nat) (A : RM.Matrix) :
  RM.shaped r c A -> A +m RM.Zero r c = A.
Proof.
  intros [HL HF]. subst r. unfold RM.add, Eigen.add, RM.Zero, Eigen.Zero.
  induction HF as [|row A Hrow HF IH]; [reflexivity|].
  simpl. rewrite IH. f_equal. subst c. clear.
  induction row as [|a row IH]; [reflexivity|]. simpl. rewrite IH. f_equal. ring.
Qed.

Lemma vec_to_rot_zero_dt (w : tf.Vector3) :
  vec_to_rot (tf.vscale w 0) = tf.identity.
Proof.
  tf_eq; rewrite !Rmult_0_r, ?sin_0, ?cos_0; ring.
Qed.

Lemma jacobian_Fx_zero_dt (f : ESKF) :
  _dt (clock f) = 0 -> jacobian_Fx f = RM.Identity 15 15.
Proof.
  intros Hdt. unfold jacobian_Fx. rewrite Hdt, vec_to_rot_zero_dt.
  generalize (skew (tf.vsub (_imu_acceleration (imu f)) (_bias_acc (nominal f)))) as S.
  generalize (_rotation (nominal f)) as R.
  intros [[? ? ?] [? ? ?] [? ? ?]] [[? ? ?] [? ? ?] [? ? ?]].
  mat_eval. tf_unfold. list_eq; ring.
Qed.

Lemma noise_Q_zero_dt (f : ESKF) :
  _dt (clock f) = 0 -> noise_Q f = RM.Zero 12 12.
Proof.
  intros Hdt. unfold noise_Q. rewrite Hdt. mat_eval. list_eq; ring.
Qed.

Lemma dot_zero_r (u : list R) (n : nat) : dotR u (repeat 0 n) = 0.
Proof.
  unfold dotR. revert n. induction u as [|a u IH]; intros [|n]; simpl; auto.
  rewrite IH. ring.
Qed.

Lemma dot_zero_l (n : nat) (v : list R) : dotR (repeat 0 n) v = 0.
Proof. rewrite dot_comm. apply dot_zero_r. Qed.

Lemma map_const {A B : Type} (b : B) (l : list A) :
  map (fun _ => b) l = repeat b (length l).
Proof. induction l; simpl; congruence. Qed.

Lemma repeat_map_seq {B : Type} (b : B) (c : nat) :
  repeat b c = map (fun _ => b) (seq 0 c).
Proof. now rewrite map_const, length_seq. Qed.

Lemma transpose_zero (n c : nat) :
  (RM.Zero (S n) c)^T = RM.Zero c (S n).
Proof.
  unfold RM.transpose, Eigen.transpose, RM.Zero, Eigen.Zero, Eigen.cols.
  cbn [repeat hd]. rewrite repeat_length.
  rewrite (repeat_map_seq (0 :: repeat 0 n) c).
  apply map_ext. intros j. unfold Eigen.col.
  change (repeat 0 c :: repeat (repeat 0 c) n) with (repeat (repeat 0 c) (S n)).
  rewrite map_repeat, nth_repeat. reflexivity.
Qed.

Lemma mul_zero_r (A : RM.Matrix) (n c : nat) :
  A *m RM.Zero (S n) c = RM.Zero (length A) c.
Proof.
  unfold RM.mul, Eigen.mul. fold (RM.transpose (RM.Zero (S n) c)).
  rewrite transpose_zero. unfold RM.Zero, Eigen.Zero.
  rewrite <- map_const. apply map_ext. intros r.
  rewrite <- (repeat_length (repeat 0 (S n)) c) at 2. rewrite <- map_const.
  apply map_ext_in. intros z Hz. apply repeat_spec in Hz. subst z.
  apply dot_zero_r.
Qed.

Lemma mul_zero_l (r c : nat) (B : RM.Matrix) :
  RM.Zero r c *m B = RM.Zero r (length (B^T)).
Proof.
  unfold RM.mul, Eigen.mul. fold (RM.transpose B).
  unfold RM.Zero, Eigen.Zero. rewrite map_repeat. f_equal.
  rewrite <- map_const. apply map_ext. intros v. apply dot_zero_l.
Qed.

Lemma noise_zero_dt (f : ESKF) :
  _dt (clock f) = 0 ->
  jacobian_Fn f *m noise_Q f *m (jacobian_Fn f)^T = RM.Zero 15 15.
Proof.
  intros Hdt. rewrite (noise_Q_zero_dt f Hdt), mul_zero_r, mul_zero_l.
  unfold jacobian_Fn.
  generalize (_rotation (nominal f)) as R.
  intros [[? ? ?] [? ? ?] [? ? ?]]. reflexivity.
Qed.

Lemma propagate_zero_dt {lib : Library} (f : ESKF) :
  RM.shaped 15 15 (_Sigma (cov f)) ->
  _dt (clock f) = 0 ->
  _velocity (nominal (propagate f)) = _velocity (nominal f) /\
  _rotation (nominal (propagate f)) = _rotation (nominal f) /\
  _position (nominal (propagate f)) = _position (nominal f) /\
  _bias_acc (nominal (propagate f)) = _bias_acc (nominal f) /\
  _bias_gyr (nominal (propagate f)) = _bias_gyr (nominal f) /\
  _Sigma (cov (propagate f)) = _Sigma (cov f).
Proof.
  intros HS Hdt.
  assert (Hdt' : _dt (clock (propagate_state f)) = 0) by exact Hdt.
  unfold propagate, propagate_error, propagate_covariance.
  cbn [nominal cov with_cov _Sigma].
  rewrite (jacobian_Fx_zero_dt _ Hdt'), (noise_zero_dt _ Hdt').
  change (_Sigma (cov (propagate_state f))) with (_Sigma (cov f)).
  rewrite (mul_identity_l _ HS), (mul_identity_r _ HS), (add_zero_r 15 15 _ HS).
  unfold propagate_state.
  cbn [nominal with_nominal _velocity _rotation _position _bias_acc _bias_gyr].
  rewrite Hdt, vec_to_rot_zero_dt, mm_identity_r.
  repeat split.
  - destruct (_velocity (nominal f)). tf_eq; ring.
  - destruct (_position (nominal f)). tf_eq; ring.
Qed.

(** X5. An inertial sample that carries the stamp of the sample before it
    gives a zero time step, and with no observation pending it leaves the
    nominal state and the covariance as they were. *)
Theorem repeated_stamp {lib : Library} (m : msg.Imu) (f : ESKF) :
  _init_time (clock f) = false ->
  msg.imu_stamp m = _imu_time (clock f) ->
  _got_measurements (meas f) = false ->
  RM.shaped 15 15 (_Sigma (cov f)) ->
  let f' := fst (imu_callback m f) in
  _dt (clock f') = 0 /\
  _velocity (nominal f') = _velocity (nominal f) /\
  _rotation (nominal f') = _rotation (nominal f) /\
  _position (nominal f') = _position (nominal f) /\
  _bias_acc (nominal f') = _bias_acc (nominal f) /\
  _bias_gyr (nominal f') = _bias_gyr (nominal f) /\
  _Sigma (cov f') = _Sigma (cov f).
Proof.
  intros Hinit Hstamp Hflag HS. cbv zeta.
  rewrite imu_callback_idle by exact Hflag. cbn [fst].
  set (g := update_imu m (update_time m f)).
  assert (Hdt : _dt (clock g) = 0).
  { unfold g, update_imu, update_time.
    cbn [clock with_imu with_queue with_clock _dt].
    rewrite Hinit, Hstamp. cbn [fst]. ring. }
  split; [exact Hdt|].
  exact (propagate_zero_dt g HS Hdt).
Qed.

Lemma repeated_stamp_witness :
  let f' := fst (imu_callback (lib := Reference.library) quarter_turns
                              filter_running) in
  _dt (clock f') = 0 /\
  _velocity (nominal f') = _velocity (nominal filter_running) /\
  _rotation (nominal f') = _rotation (nominal filter_running) /\
  _position (nominal f') = _position (nominal filter_running) /\
  _bias_acc (nominal f') = _bias_acc (nominal filter_running) /\
  _bias_gyr (nominal f') = _bias_gyr (nominal filter_running) /\
  _Sigma (cov f') = _Sigma (cov filter_running).
Proof.
  exact (repeated_stamp (lib := Reference.library) quarter_turns filter_running
           eq_refl eq_refl eq_refl Sigma_example_shaped).
Defined.

(* ================================================================= *)
(** * Invariants of the event loop *)

Section Loop.
Context {lib : Library}.

Lemma run_invariant (P : ESKF -> Prop) :
  (forall ev f, P f -> P (fst (handle ev f))) ->
  forall evs f, P f -> P (fst (run evs f)).
Proof.
  intros Hstep evs. induction evs as [|ev evs IH]; intros f Hf; [exact Hf|].
  cbn [run]. specialize (Hstep ev f Hf).
  destruct (handle ev f) as [f1 o1]. cbn [fst] in Hstep.
  specialize (IH f1 Hstep). now destruct (run evs f1).
Qed.

Lemma imu_callback_cases (m : msg.Imu) (f : ESKF) :
  let g := propagate (update_imu m (update_time m f)) in
  imu_callback m f = (g, [odom_pub (publish_odom g)]) \/
  imu_callback m f =
    (clear_got_measurements (correct g),
     [bias_pub (publish_bias (correct g));
      odom_pub (publish_odom (clear_got_measurements (correct g)))]).
Proof.
  cbv zeta. destruct (_got_measurements (meas f)) eqn:E.
  - right. now rewrite imu_callback_pending.
  - left. now rewrite imu_callback_idle.
Qed.

Lemma rotation_propagate (f : ESKF) :
  _rotation (nominal (propagate f))
  = tf.mm (_rotation (nominal f)) (delta_rotation f).
Proof. reflexivity. Qed.

Lemma rotation_correct (f : ESKF) :
  exists a b c,
    _rotation (nominal (clear_got_measurements (correct f)))
    = tf.mm (_rotation (nominal f)) (tf.setRPY a b c).
Proof.
  unfold correct, reset_error, update_state, update_error, clear_got_measurements.
  cbn [nominal error with_nominal with_error with_cov with_meas _rotation
       _d_rotation tf.x tf.y tf.z].
  do 3 eexists. reflexivity.
Qed.

Lemma nominal_before_propagate (m : msg.Imu) (f : ESKF) :
  nominal (update_imu m (update_time m f)) = nominal f.
Proof. reflexivity. Qed.

(** X6. From the constructor on and after any sequence of inertial samples
    and observations, the nominal rotation is a rotation matrix. *)
Theorem rotation_stays_orthonormal (nh : NodeHandle) (u : Indeterminate)
        (evs : list Event) :
  orthonormal (_rotation (nominal (fst (run evs (ESKF_ESKF nh u))))).
Proof.
  apply (run_invariant (fun f => orthonormal (_rotation (nominal f)))).
  - intros [m|o] f Hf; cbn [handle fst]; [|exact Hf].
    assert (Hp : orthonormal
              (_rotation (nominal (propagate (update_imu m (update_time m f)))))).
    { rewrite rotation_propagate, nominal_before_propagate.
      apply orthonormal_mm; [exact Hf | apply orthonormal_setRPY]. }
    destruct (imu_callback_cases m f) as [-> | ->]; cbn [fst]; [exact Hp|].
    destruct (rotation_correct (propagate (update_imu m (update_time m f))))
      as (a & b & c & ->).
    apply orthonormal_mm; [exact Hp | apply orthonormal_setRPY].
  - apply orthonormal_identity.
Qed.

Lemma quaternion_after_imu (m : msg.Imu) (f : ESKF) :
  let f' := fst (imu_callback m f) in
  _quaternion (nominal f') = getRotation (_rotation (nominal f')).
Proof.
  cbv zeta. destruct (imu_callback_cases m f) as [-> | ->]; reflexivity.
Qed.

(** X7. Once one inertial sample has been handled, the stored quaternion
    is the one [getRotation] gives for the stored rotation matrix, whatever
    the state was before and whatever events follow. *)
Theorem quaternion_follows_rotation (evs : list Event) (f : ESKF) :
  existsb is_imu evs = true ->
  let f' := fst (run evs f) in
  _quaternion (nominal f') = getRotation (_rotation (nominal f')).
Proof.
  cbv zeta. revert f.
  assert (Hkeep : forall evs f,
             _quaternion (nominal f) = getRotation (_rotation (nominal f)) ->
             _quaternion (nominal (fst (run evs f)))
             = getRotation (_rotation (nominal (fst (run evs f))))).
  { intros evs'.
    apply (run_invariant
             (fun f => _quaternion (nominal f)
                       = getRotation (_rotation (nominal f)))).
    intros [m|o] f Hf; cbn [handle fst]; [apply quaternion_after_imu | exact Hf]. }
  induction evs as [|ev evs IH]; intros f H; [discriminate|].
  cbn [run]. destruct ev as [m|o]; cbn [existsb is_imu orb] in H.
  - cbn [handle]. pose proof (quaternion_after_imu m f) as Hq. cbv zeta in Hq.
    destruct (imu_callback m f) as [f1 o1]. cbn [fst] in Hq.
    specialize (Hkeep evs f1 Hq). now destruct (run evs f1).
  - cbn [handle]. specialize (IH (measurement_callback o f) H).
    now destruct (run evs (measurement_callback o f)).
Qed.

(** ** Without observations *)

Lemma run_imu_only (ms : list msg.Imu) (f : ESKF) :
  _got_measurements (meas f) = false ->
  let r := run (map imu_event ms) f in
  _got_measurements (meas (fst r)) = false /\
  _bias_acc (nominal (fst r)) = _bias_acc (nominal f) /\
  _bias_gyr (nominal (fst r)) = _bias_gyr (nominal f) /\
  error (fst r) = error f /\
  filter is_bias (snd r) = [] /\
  length (snd r) = length ms.
Proof.
  cbv zeta. revert f. induction ms as [|m ms IH]; intros f Hf.
  - cbn [map run fst snd filter length]. repeat split; auto.
  - cbn [map run]. rewrite handle_imu, (imu_callback_idle m f Hf). cbv zeta.
    set (g := propagate (update_imu m (update_time m f))).
    assert (Hg : _got_measurements (meas g) = false) by exact Hf.
    destruct (IH g Hg) as (H1 & H2 & H3 & H4 & H5 & H6).
    destruct (run (map imu_event ms) g) as [f2 o2]. cbn [fst snd] in *.
    cbn [app filter is_bias length]. rewrite H5, H6.
    repeat split; assumption.
Qed.

(** X8. Open loop: a filter that is fed inertial samples only never
    publishes a bias message, publishes one message per sample, and keeps
    the accelerometer bias of the parameters and a zero gyroscope bias. *)
Theorem open_loop_keeps_biases (nh : NodeHandle) (u : Indeterminate)
        (ms : list msg.Imu) :
  let r := run (map imu_event ms) (ESKF_ESKF nh u) in
  filter is_bias (snd r) = [] /\
  length (snd r) = length ms /\
  _bias_acc (nominal (fst r))
    = tf.mkVector3 (param (init_bias_acc_x nh) 0.0)
                   (param (init_bias_acc_y nh) 0.0)
                   (param (init_bias_acc_z nh) 0.0) /\
  _bias_gyr (nominal (fst r)) = tf.zero3.
Proof.
  cbv zeta.
  destruct (run_imu_only ms (ESKF_ESKF nh u) eq_refl)
    as (_ & H2 & H3 & _ & H5 & H6).
  rewrite H2, H3. repeat split; assumption.
Qed.

(** ** The clock *)

Lemma clock_imu_callback (m : msg.Imu) (f : ESKF) :
  clock (fst (imu_callback m f)) = clock (update_time m f).
Proof. destruct (imu_callback_cases m f) as [-> | ->]; reflexivity. Qed.

Lemma clock_measurements (os : list msg.Odometry) (f : ESKF) :
  clock (fst (run (map measurement_event os) f)) = clock f.
Proof.
  revert f. induction os as [|o os IH]; intros f; [reflexivity|].
  cbn [map run handle]. specialize (IH (measurement_callback o f)).
  destruct (run (map measurement_event os) (measurement_callback o f)).
  exact IH.
Qed.

Lemma run_cons (ev : Event) (evs : list Event) (f : ESKF) :
  fst (run (ev :: evs) f) = fst (run evs (fst (handle ev f))).
Proof.
  cbn [run]. destruct (handle ev f) as [f1 o1]. cbn [fst].
  now destruct (run evs f1).
Qed.

(** X9. The time step is the nominal period [1 / imu_frequency] for the
    first inertial sample and the difference of the stamps of consecutive
    inertial samples afterwards; observations in between do not touch the
    clock, and neither stamp is compared with the observation's. *)
Theorem time_step_from_stamps (f : ESKF) (m1 m2 : msg.Imu)
        (os os' : list msg.Odometry) :
  let first := fst (run (map measurement_event os ++ [imu_event m1]) f) in
  let second := fst (run (map measurement_event os' ++ [imu_event m2]) first) in
  (_init_time (clock f) = true ->
   _dt (clock first) = 1.0 / _imu_freq (params f)) /\
  _init_time (clock first) = false /\
  _imu_time (clock first) = msg.imu_stamp m1 /\
  _dt (clock second)
    = msg.toSec (msg.imu_stamp m2) - msg.toSec (msg.imu_stamp m1).
Proof.
  cbv zeta.
  rewrite !run_snoc, !handle_imu, !clock_imu_callback.
  set (f1 := fst (run (map measurement_event os) f)).
  assert (Hc : clock f1 = clock f) by apply clock_measurements.
  assert (Hp : params f1 = params f).
  { unfold f1. apply (run_invariant (fun g => params g = params f)); [|reflexivity].
    intros [m|o] g Hg; cbn [handle fst]; [|exact Hg].
    destruct (imu_callback_cases m g) as [-> | ->]; exact Hg. }
  set (f2 := fst (imu_callback m1 f1)).
  set (f3 := fst (run (map measurement_event os') f2)).
  assert (Hc3 : clock f3 = clock f2) by apply clock_measurements.
  assert (Hc2 : clock f2 = clock (update_time m1 f1)) by apply clock_imu_callback.
  assert (Hi : _init_time (clock (update_time m1 f1)) = false).
  { unfold update_time. cbn [clock with_clock _init_time].
    destruct (_init_time (clock f1)); reflexivity. }
  repeat split.
  - intros Hinit. unfold update_time. cbn [clock with_clock _dt].
    rewrite Hc, Hinit, Hp. reflexivity.
  - exact Hi.
  - unfold update_time. cbn [clock with_clock _dt].
    rewrite Hc3, Hc2, Hi. reflexivity.
Qed.

(** ** The length of the acceleration queue *)

Lemma length_assign {A : Type} (l : list A) (i : nat) (a : A) :
  length (assign l i a) = length l.
Proof.
  revert i. induction l as [|b l IH]; intros [|i]; simpl; auto.
Qed.

Lemma queue_bounded_handle (N : Z) (k : nat) (ev : Event) (f : ESKF) :
  (1 <= N)%Z ->
  queue_bounded N k f ->
  queue_bounded N (if is_imu ev then S k else k) (fst (handle ev f)).
Proof.
  intros HN (Hs & Hc & Hl). destruct ev as [m|o]; cbn [handle is_imu fst].
  - assert (Hq : queue (fst (imu_callback m f)) = queue (update_imu m f)
                 /\ params (fst (imu_callback m f)) = params f).
    { destruct (imu_callback_cases m f) as [-> | ->]; split; reflexivity. }
    destruct Hq as [Hq Hp]. unfold queue_bounded. rewrite Hq, Hp.
    unfold update_imu. cbn [queue with_imu with_queue _acc_queue _acc_queue_count].
    rewrite Hs, Hc.
    destruct (Z.ltb_spec (Z.of_nat k) N) as [Hlt|Hge]; cbn [fst].
    + rewrite length_app, Hl. cbn [length]. repeat split; lia.
    + rewrite length_assign, Hl. repeat split; lia.
  - exact (conj Hs (conj Hc Hl)).
Qed.

Lemma queue_bounded_run (N : Z) (k : nat) (evs : list Event) (f : ESKF) :
  (1 <= N)%Z ->
  queue_bounded N k f ->
  queue_bounded N (length (filter is_imu evs) + k) (fst (run evs f)).
Proof.
  intros HN. revert k f. induction evs as [|ev evs IH]; intros k f Hf.
  - exact Hf.
  - rewrite run_cons.
    pose proof (queue_bounded_handle N k ev f HN Hf) as H1.
    specialize (IH _ _ H1). cbn [filter].
    destruct (is_imu ev); cbn [length]; [|exact IH].
    replace (S (length (filter is_imu evs)) + k)%nat
      with (length (filter is_imu evs) + S k)%nat by lia.
    exact IH.
Qed.

(** X10. With a capacity [N >= 1], after any sequence of events holding
    [k] inertial samples the counter is [k] and the queue holds
    [min k N] samples: it grows to the capacity and never beyond, so the
    index [count mod N] written by the overwrite branch is in range.  The
    counter is the source's [int], hence the bound on [k]. *)
Theorem queue_never_exceeds_capacity (nh : NodeHandle) (u : Indeterminate)
        (evs : list Event) :
  let N := param (acc_queue_size nh) 5%Z in
  let k := length (filter is_imu evs) in
  let f := fst (run evs (ESKF_ESKF nh u)) in
  (1 <= N)%Z ->
  (Z.of_nat k <= 2147483647)%Z ->
  _acc_queue_count (queue f) = Z.of_nat k /\
  length (_acc_queue (queue f)) = Nat.min k (Z.to_nat N).
Proof.
  cbv zeta. intros HN _.
  assert (H0 : queue_bounded (param (acc_queue_size nh) 5%Z) 0 (ESKF_ESKF nh u)).
  { repeat split. }
  destruct (queue_bounded_run _ 0 evs _ HN H0) as (_ & Hc & Hl).
  rewrite Nat.add_0_r in Hc, Hl. split; assumption.
Qed.

(** ** What an inertial sample publishes *)

Lemma publish_bias_clear (g : ESKF) :
  publish_bias (clear_got_measurements g) = publish_bias g.
Proof. reflexivity. Qed.

(** X11. Every inertial sample publishes exactly one odometry message,
    preceded by one bias message exactly when an observation was pending.  Both
    are built from the state the callback leaves behind; the odometry
    carries the stamp of the sample, its raw angular velocity as angular
    twist and the nominal position and velocity; and no observation is
    pending afterwards. *)
Theorem odom_every_sample (m : msg.Imu) (f : ESKF) :
  let f' := fst (imu_callback m f) in
  let out := snd (imu_callback m f) in
  let od := publish_odom f' in
  (out = [odom_pub od] \/ out = [bias_pub (publish_bias f'); odom_pub od]) /\
  (_got_measurements (meas f) = true ->
   out = [bias_pub (publish_bias f'); odom_pub od]) /\
  (_got_measurements (meas f) = false -> out = [odom_pub od]) /\
  msg.odom_stamp od = msg.imu_stamp m /\
  msg.twist_angular od = msg.angular_velocity m /\
  msg.vector3MsgToTF (msg.pose_position od) = _position (nominal f') /\
  msg.vector3MsgToTF (msg.twist_linear od) = _velocity (nominal f') /\
  _got_measurements (meas f') = false.
Proof.
  cbv zeta.
  assert (Hs : msg.odom_stamp (publish_odom (fst (imu_callback m f)))
               = msg.imu_stamp m).
  { unfold publish_odom. cbn [msg.odom_stamp]. now rewrite clock_imu_callback. }
  assert (Hw : _imu_angular_velocity (imu (fst (imu_callback m f)))
               = msg.vector3MsgToTF (msg.angular_velocity m)).
  { destruct (imu_callback_cases m f) as [-> | ->]; reflexivity. }
  assert (Hf : _got_measurements (meas (fst (imu_callback m f))) = false).
  { destruct (_got_measurements (meas f)) eqn:E.
    - now rewrite imu_callback_pending.
    - rewrite imu_callback_idle by exact E. exact E. }
  repeat match goal with |- _ /\ _ => split end; try assumption.
  - destruct (imu_callback_cases m f) as [-> | ->]; cbn [fst snd];
      [left | right; rewrite publish_bias_clear]; reflexivity.
  - intros E. rewrite (imu_callback_pending m f E). cbv zeta. cbn [fst snd].
    rewrite publish_bias_clear. reflexivity.
  - intros E. rewrite (imu_callback_idle m f E). reflexivity.
  - unfold publish_odom. cbn [msg.twist_angular]. rewrite Hw.
    now destruct (msg.angular_velocity m).
  - unfold publish_odom. cbn [msg.pose_position].
    now destruct (_position (nominal (fst (imu_callback m f)))).
  - unfold publish_odom. cbn [msg.twist_linear].
    now destruct (_velocity (nominal (fst (imu_callback m f)))).
Qed.
End Loop.

Lemma quaternion_follows_rotation_witness :
  let f' := fst (run (lib := Reference.library) events_example filter_example) in
  _quaternion (nominal f')
  = getRotation (Library := Reference.library) (_rotation (nominal f')).
Proof.
  exact (quaternion_follows_rotation (lib := Reference.library)
           events_example filter_example eq_refl).
Defined.

Lemma queue_never_exceeds_capacity_witness :
  let f := fst (run (lib := Reference.library) events_example
                    (ESKF_ESKF (lib := Reference.library) nh_defaults
                               no_values)) in
  _acc_queue_count (queue f) = 2%Z /\
  length (_acc_queue (queue f)) = 2%nat.
Proof.
  refine (queue_never_exceeds_capacity (lib := Reference.library)
            nh_defaults no_values events_example _ _);
    cbn; lia.
Defined.

(* ================================================================= *)
(** * Covariance arrays and the odometry message *)

Lemma length_6 {A : Type} (l : list A) :
  length l = 6%nat -> exists a b c d e f, l = [a; b; c; d; e; f].
Proof.
  destruct l as [|a [|b [|c [|d [|e [|f [|g l]]]]]]]; simpl; try discriminate.
  intros _. repeat eexists.
Qed.

Lemma shaped_6_6 (M : RM.Matrix) :
  RM.shaped 6 6 M ->
  exists r0 r1 r2 r3 r4 r5 : list R,
    M = [r0; r1; r2; r3; r4; r5] /\
    Forall (fun r => exists a b c d e f, r = [a; b; c; d; e; f]) M.
Proof.
  intros [HL HF]. destruct (length_6 M HL) as (r0 & r1 & r2 & r3 & r4 & r5 & ->).
  do 6 eexists. split; [reflexivity|].
  revert HF. apply Forall_impl. intros r. apply length_6.
Qed.

Ltac explicit_6_6 H :=
  let HF := fresh "HF" in
  destruct (shaped_6_6 _ H) as (? & ? & ? & ? & ? & ? & -> & HF);
  repeat match type of HF with
         | Forall _ (_ :: _) =>
             let H1 := fresh in let H2 := fresh in
             inversion HF as [|? ? H1 H2]; subst; clear HF; rename H2 into HF;
             destruct H1 as (? & ? & ? & ? & ? & ? & ->)
         end;
  clear HF.

Lemma of_array6_to_array6 (M : RM.Matrix) :
  RM.shaped 6 6 M -> of_array6 (to_array6 M) = M.
Proof. intros HM. explicit_6_6 HM. reflexivity. Qed.

(** X12. The 36-element array of a message and the 6 x 6 matrix it stands
    for: the array is row-major, reading an array always gives a 6 x 6
    matrix, and writing then reading (for a 6 x 6 matrix) or reading then
    writing (for an array of 36) gives back what one started from. *)
Theorem covariance_array_round_trip (M : RM.Matrix) (a : list R) :
  length (to_array6 M) = 36%nat /\
  (forall i j, (i < 6)%nat -> (j < 6)%nat ->
     nth (6 * i + j) (to_array6 M) 0 = RM.coeff M i j) /\
  RM.shaped 6 6 (of_array6 a) /\
  (RM.shaped 6 6 M -> of_array6 (to_array6 M) = M) /\
  (length a = 36%nat -> to_array6 (of_array6 a) = a).
Proof.
  split; [reflexivity|]. split; [|split; [|split]].
  - intros i j Hi Hj.
    do 6 (destruct i as [|i]; [do 6 (destruct j as [|j]; [reflexivity|]); lia|]).
    lia.
  - split; [reflexivity|]. unfold of_array6. cbn [map seq]. repeat constructor.
  - apply of_array6_to_array6.
  - intros Ha.
    do 36 (destruct a as [|? a]; [discriminate Ha|]).
    destruct a; [reflexivity | discriminate Ha].
Qed.

Lemma blocks_2_2_shaped (A B C D : RM.Matrix) :
  RM.shaped 3 3 A -> RM.shaped 3 3 B -> RM.shaped 3 3 C -> RM.shaped 3 3 D ->
  RM.shaped 6 6 (RM.blocks [ [A; B]; [C; D] ]).
Proof.
  intros HA HB HC HD.
  destruct (shaped_3_3 _ HA) as (? & ? & ? & ? & ? & ? & ? & ? & ? & ->).
  destruct (shaped_3_3 _ HB) as (? & ? & ? & ? & ? & ? & ? & ? & ? & ->).
  destruct (shaped_3_3 _ HC) as (? & ? & ? & ? & ? & ? & ? & ? & ? & ->).
  destruct (shaped_3_3 _ HD) as (? & ? & ? & ? & ? & ? & ? & ? & ? & ->).
  split; [reflexivity|]. mat_eval. repeat constructor.
Qed.

Lemma mul_3_3_shaped (A B : RM.Matrix) :
  RM.shaped 3 3 A -> RM.shaped 3 3 B -> RM.shaped 3 3 (A *m B).
Proof.
  intros HA HB.
  destruct (shaped_3_3 _ HA) as (? & ? & ? & ? & ? & ? & ? & ? & ? & ->).
  destruct (shaped_3_3 _ HB) as (? & ? & ? & ? & ? & ? & ? & ? & ? & ->).
  split; [reflexivity|]. mat_eval. repeat constructor.
Qed.

Lemma rotation_3_3 (m : tf.Matrix3x3) :
  RM.shaped 3 3 (tf.matrixTFToEigen m) /\
  RM.shaped 3 3 (tf.matrixTFToEigen m)^T.
Proof. split; (split; [reflexivity|]); mat_eval; repeat constructor. Qed.

Lemma pose_sigma_shaped (f : ESKF) :
  RM.shaped 15 15 (_Sigma (cov f)) -> RM.shaped 6 6 (pose_sigma f).
Proof.
  intros HS. unfold pose_sigma.
  destruct (rotation_3_3 (_rotation (nominal f))) as [HR HRt].
  apply blocks_2_2_shaped;
    repeat first [ apply mul_3_3_shaped
                 | exact HR | exact HRt
                 | apply (block_shaped 15 15); [exact HS | lia | lia] ].
Qed.

(** X13. The odometry of one filter read back as an observation, as when
    the output of one node is the pose input of another: the stored
    position, quaternion, velocity and pose covariance are those of the
    publishing filter, and the observation is marked pending. *)
Theorem odometry_as_observation {lib : Library} (f g : ESKF) :
  RM.shaped 15 15 (_Sigma (cov f)) ->
  let m := meas (measurement_callback (publish_odom f) g) in
  _got_measurements m = true /\
  _m_position m = _position (nominal f) /\
  _m_quaternion m = _quaternion (nominal f) /\
  _m_velocity m = _velocity (nominal f) /\
  _m_pose_sigma m = pose_sigma f.
Proof.
  intros HS. cbv zeta. unfold measurement_callback, publish_odom.
  cbn [meas with_meas _got_measurements _m_position _m_quaternion _m_velocity
       _m_pose_sigma msg.pose_position msg.pose_orientation msg.twist_linear
       msg.pose_covariance msg.x msg.y msg.z msg.qx msg.qy msg.qz msg.qw].
  repeat split.
  - now destruct (_position (nominal f)).
  - now destruct (_quaternion (nominal f)).
  - now destruct (_velocity (nominal f)).
  - apply of_array6_to_array6, pose_sigma_shaped, HS.
Qed.

Lemma odometry_as_observation_witness :
  let m := meas (measurement_callback (lib := Reference.library)
                   (publish_odom filter_example) filter_running) in
  _got_measurements m = true /\
  _m_position m = _position (nominal filter_example) /\
  _m_quaternion m = _quaternion (nominal filter_example) /\
  _m_velocity m = _velocity (nominal filter_example) /\
  _m_pose_sigma m = pose_sigma filter_example.
Proof.
  exact (odometry_as_observation (lib := Reference.library) filter_example
           filter_running Sigma_example_shaped).
Defined.

(** ** The twist covariance *)

Lemma eigen_of_transpose3 (a : tf.Matrix3x3) :
  tf.matrixTFToEigen (transpose3 a) = (tf.matrixTFToEigen a)^T.
Proof. destruct a as [[? ? ?] [? ? ?] [? ? ?]]. reflexivity. Qed.

(** X14. The twist covariance of the odometry message: its linear block is
    the velocity block of [Sigma], its off-diagonal blocks are zero, and
    its angular block is [sigma_gyr * R R^T], which for a rotation matrix
    [R] is [sigma_gyr] times the identity: the standard deviation of the
    gyroscope noise, not its square, and no part of [Sigma]. *)
Theorem odom_twist_covariance (f : ESKF) :
  RM.shaped 15 15 (_Sigma (cov f)) ->
  let T := of_array6 (msg.twist_covariance (publish_odom f)) in
  let R := tf.matrixTFToEigen (_rotation (nominal f)) in
  block_grid 2 2 T =
    [ [RM.block 3 3 0 0 (_Sigma (cov f)); Z3];
      [Z3; RM.scale_l (_sigma_gyr (params f)) (R *m R^T)] ] /\
  (orthonormal (_rotation (nominal f)) ->
   block_grid 2 2 T =
     [ [RM.block 3 3 0 0 (_Sigma (cov f)); Z3];
       [Z3; diag3 (_sigma_gyr (params f))] ]).
Proof.
  intros HS. cbv zeta.
  assert (H1 : block_grid 2 2 (of_array6 (msg.twist_covariance (publish_odom f))) =
    [ [RM.block 3 3 0 0 (_Sigma (cov f)); Z3];
      [Z3; RM.scale_l (_sigma_gyr (params f))
             (tf.matrixTFToEigen (_rotation (nominal f))
              *m (tf.matrixTFToEigen (_rotation (nominal f)))^T)] ]).
  { unfold publish_odom, twist_sigma. cbn [msg.twist_covariance].
    destruct (shaped_3_3 _ (block_shaped 15 15 3 3 0 0 _ HS ltac:(lia) ltac:(lia)))
      as (a1 & a2 & a3 & a4 & a5 & a6 & a7 & a8 & a9 & ->).
    generalize (_sigma_gyr (params f)) as s.
    destruct (_rotation (nominal f)) as [[? ? ?] [? ? ?] [? ? ?]]. intros s.
    unfold block_grid. mat_eval. list_eq; ring. }
  split; [exact H1|].
  intros [Ho _]. rewrite H1.
  rewrite <- eigen_of_transpose3, <- eigen_of_mm, Ho.
  unfold diag3. mat_eval. tf_unfold. list_eq; ring.
Qed.

Lemma odom_twist_covariance_witness :
  block_grid 2 2 (of_array6 (msg.twist_covariance (publish_odom filter_example)))
  = [ [RM.block 3 3 0 0 (_Sigma (cov filter_example)); Z3];
      [Z3; diag3 (_sigma_gyr (params filter_example))] ].
Proof.
  exact (proj2 (odom_twist_covariance filter_example Sigma_example_shaped)
               orthonormal_identity).
Defined.

(* ================================================================= *)
(** * The correction of the nominal state *)




(* ================================================================= *)
(** * Symmetry of the covariance *)

Lemma sum_n_ext (n : nat) (g h : nat -> R) :
  (forall k, (k < n)%nat -> g k = h k) -> sum_n n g = sum_n n h.
Proof.
  induction n as [|n IH]; intros H; [reflexivity|].
  simpl. rewrite IH, H by (intros; auto with arith). reflexivity.
Qed.

Lemma sum_n_shift (n : nat) (g : nat -> R) :
  sum_n (S n) g = g 0%nat + sum_n n (fun k => g (S k)).
Proof.
  induction n as [|n IH]; [simpl; ring|].
  change (sum_n (S (S n)) g) with (sum_n (S n) g + g (S n)).
  rewrite IH. simpl. ring.
Qed.

Lemma sum_n_plus (n : nat) (g h : nat -> R) :
  sum_n n (fun k => g k + h k) = sum_n n g + sum_n n h.
Proof. induction n as [|n IH]; simpl; [ring | rewrite IH; ring]. Qed.

Lemma sum_n_scale_r (n : nat) (g : nat -> R) (c : R) :
  sum_n n g * c = sum_n n (fun k => g k * c).
Proof. induction n as [|n IH]; simpl; [ring | rewrite <- IH; ring]. Qed.

Lemma sum_n_swap (n m : nat) (g : nat -> nat -> R) :
  sum_n n (fun k => sum_n m (fun l => g k l))
  = sum_n m (fun l => sum_n n (fun k => g k l)).
Proof.
  induction n as [|n IH]; simpl.
  - induction m; simpl; [reflexivity | rewrite <- IHm; ring].
  - rewrite IH, <- sum_n_plus. reflexivity.
Qed.

Lemma dot_sum (u v : list R) (n : nat) :
  length u = n -> length v = n ->
  dotR u v = sum_n n (fun k => nth k u 0 * nth k v 0).
Proof.
  unfold dotR. revert v n. induction u as [|a u IH]; intros [|b v] n Hu Hv;
    simpl in Hu, Hv; subst n; try discriminate; [reflexivity|].
  rewrite sum_n_shift. simpl Eigen.dot. simpl nth.
  rewrite (IH v (length u)); [reflexivity | reflexivity | lia].
Qed.

Lemma length_col (A : RM.Matrix) (j : nat) :
  length (Eigen.col 0 A j) = length A.
Proof. unfold Eigen.col. apply length_map. Qed.

Lemma mul_shaped (r n c : nat) (A B : RM.Matrix) :
  RM.shaped r (S n) A -> RM.shaped (S n) c B -> RM.shaped r c (A *m B).
Proof.
  intros [HA _] HB. unfold RM.mul, Eigen.mul. split.
  - now rewrite length_map.
  - apply Forall_map, Forall_forall. intros row _.
    unfold Eigen.transpose. rewrite !length_map, length_seq.
    apply (shaped_cols n c B HB).
Qed.

Lemma coeff_mul (r n c : nat) (A B : RM.Matrix) (i j : nat) :
  RM.shaped r (S n) A -> RM.shaped (S n) c B -> (i < r)%nat -> (j < c)%nat ->
  RM.coeff (A *m B) i j
  = sum_n (S n) (fun k => RM.coeff A i k * RM.coeff B k j).
Proof.
  intros HA HB Hi Hj.
  unfold RM.coeff at 1, Eigen.coeff, RM.mul, Eigen.mul.
  assert (HlA : length A = r) by apply HA.
  rewrite (nth_indep _ [] ((fun r => map (Eigen.dot 0 Rplus Rmult r)
                                        (Eigen.transpose 0 B)) []))
    by (rewrite length_map; lia).
  rewrite (map_nth (fun r => map (Eigen.dot 0 Rplus Rmult r) (Eigen.transpose 0 B))).
  unfold Eigen.transpose. rewrite (shaped_cols n c B HB), map_map.
  rewrite (nth_indep _ 0 ((fun x => Eigen.dot 0 Rplus Rmult (nth i A [])
                                      (Eigen.col 0 B x)) 0%nat))
    by (rewrite length_map, length_seq; lia).
  rewrite (map_nth (fun x => Eigen.dot 0 Rplus Rmult (nth i A []) (Eigen.col 0 B x))).
  rewrite seq_nth by lia. simpl Nat.add.
  change (Eigen.dot 0 Rplus Rmult) with dotR.
  rewrite (dot_sum _ _ (S n)).
  - apply sum_n_ext. intros k Hk. now rewrite col_coeff.
  - apply (shaped_row r (S n) A i HA Hi).
  - rewrite length_col. apply HB.
Qed.

Lemma transpose_shaped (r c : nat) (A : RM.Matrix) :
  RM.shaped (S r) c A -> RM.shaped c (S r) (A^T).
Proof.
  intros HA. unfold RM.transpose, Eigen.transpose.
  rewrite (shaped_cols r c A HA). split.
  - now rewrite length_map, length_seq.
  - apply Forall_map, Forall_forall. intros j _. rewrite length_col. apply HA.
Qed.

Lemma coeff_transpose (r c : nat) (A : RM.Matrix) (i j : nat) :
  RM.shaped (S r) c A -> (i < c)%nat ->
  RM.coeff (A^T) i j = RM.coeff A j i.
Proof.
  intros HA Hi. unfold RM.coeff at 1, Eigen.coeff, RM.transpose, Eigen.transpose.
  rewrite (shaped_cols r c A HA).
  rewrite (nth_indep _ [] (Eigen.col 0 A 0))
    by (rewrite length_map, length_seq; lia).
  rewrite (map_nth (Eigen.col 0 A)), seq_nth by lia.
  apply col_coeff.
Qed.

Lemma map2_shaped (g : R -> R -> R) (r c : nat) (A B : RM.Matrix) :
  RM.shaped r c A -> RM.shaped r c B ->
  RM.shaped r c (Eigen.map2 (Eigen.map2 g) A B).
Proof.
  intros [HA HFA] [HB HFB]. subst r.
  revert B HB HFB. induction HFA as [|a A Ha HFA IH]; intros [|b B] HB HFB;
    try discriminate; [split; [reflexivity | constructor]|].
  inversion HFB as [|? ? Hb HFB']; subst.
  destruct (IH B ltac:(simpl in HB; lia) HFB') as [H1 H2].
  split; [simpl; now rewrite H1|]. constructor; [|exact H2].
  clear - Hb. revert b Hb. induction a as [|x a IH]; intros [|y b] Hb;
    try discriminate; [reflexivity|].
  simpl. f_equal. apply IH. simpl in Hb. lia.
Qed.

Lemma map2_nth (g : R -> R -> R) (u v : list R) (k : nat) :
  length u = length v -> (k < length u)%nat ->
  nth k (Eigen.map2 g u v) 0 = g (nth k u 0) (nth k v 0).
Proof.
  revert v k. induction u as [|a u IH]; intros [|b v] k Hl Hk;
    simpl in *; try lia.
  destruct k; [reflexivity|]. apply IH; lia.
Qed.

Lemma coeff_add (r c : nat) (A B : RM.Matrix) (i j : nat) :
  RM.shaped r c A -> RM.shaped r c B -> (i < r)%nat -> (j < c)%nat ->
  RM.coeff (A +m B) i j = RM.coeff A i j + RM.coeff B i j.
Proof.
  intros HA HB Hi Hj.
  pose proof (shaped_row r c A i HA Hi) as Hra.
  pose proof (shaped_row r c B i HB Hi) as Hrb.
  destruct HA as [HlA _], HB as [HlB _].
  unfold RM.coeff, Eigen.coeff, RM.add, Eigen.add.
  assert (Hrow : nth i (Eigen.map2 (Eigen.map2 Rplus) A B) []
                 = Eigen.map2 Rplus (nth i A []) (nth i B [])).
  { clear Hra Hrb Hj. subst r. revert B i HlB Hi.
    induction A as [|a A IH]; intros [|b B] i HlB Hi; simpl in *; try lia.
    destruct i; [reflexivity|]. apply IH; lia. }
  rewrite Hrow. apply map2_nth; lia.
Qed.

(** [F P F^T] is symmetric when [P] is. *)
Lemma congruence_symmetric (r n : nat) (F P : RM.Matrix) :
  RM.shaped (S r) (S n) F -> symmetric (S n) P ->
  symmetric (S r) (F *m P *m F^T).
Proof.
  intros HF [HP Hsym].
  pose proof (transpose_shaped r (S n) F HF) as HFt.
  pose proof (mul_shaped (S r) n (S n) F P HF HP) as HFP.
  split; [apply (mul_shaped (S r) n (S r) _ _ HFP HFt)|].
  intros i j Hi Hj.
  rewrite !(coeff_mul (S r) n (S r) _ _ _ _ HFP HFt) by lia.
  transitivity (sum_n (S n) (fun l => sum_n (S n) (fun k =>
                  RM.coeff F i k * RM.coeff P k l * RM.coeff F j l))).
  - apply sum_n_ext. intros l Hl.
    rewrite (coeff_mul (S r) n (S n) F P i l HF HP) by lia.
    rewrite (coeff_transpose r (S n) F l j HF) by lia.
    apply sum_n_scale_r.
  - rewrite sum_n_swap. apply sum_n_ext. intros k Hk.
    rewrite (coeff_mul (S r) n (S n) F P j k HF HP) by lia.
    rewrite (coeff_transpose r (S n) F k i HF) by lia.
    rewrite sum_n_scale_r. apply sum_n_ext. intros l Hl.
    rewrite (Hsym l k) by lia. ring.
Qed.

Lemma add_symmetric (n : nat) (A B : RM.Matrix) :
  symmetric n A -> symmetric n B -> symmetric n (A +m B).
Proof.
  intros [HA Ha] [HB Hb]. split; [now apply (map2_shaped Rplus)|].
  intros i j Hi Hj. rewrite !(coeff_add n n) by assumption.
  now rewrite Ha, Hb.
Qed.

Lemma transpose_eq_symmetric (n : nat) (A : RM.Matrix) :
  RM.shaped (S n) (S n) A -> A^T = A -> symmetric (S n) A.
Proof.
  intros HA Ht. split; [exact HA|]. intros i j Hi Hj.
  rewrite <- Ht at 1. now apply (coeff_transpose n (S n)).
Qed.

Lemma jacobian_Fx_shaped (f : ESKF) : RM.shaped 15 15 (jacobian_Fx f).
Proof. unfold jacobian_Fx. shaped_eval. Qed.

Lemma jacobian_Fn_shaped (f : ESKF) : RM.shaped 15 12 (jacobian_Fn f).
Proof. unfold jacobian_Fn. shaped_eval. Qed.

Lemma noise_Q_symmetric (f : ESKF) : symmetric 12 (noise_Q f).
Proof.
  apply transpose_eq_symmetric; unfold noise_Q;
    [shaped_eval | mat_eval; reflexivity].
Qed.

Lemma obs_H_shaped : RM.shaped 6 15 obs_H.
Proof. unfold obs_H. shaped_eval. Qed.

Lemma identity_15_shaped : RM.shaped 15 15 (RM.Identity 15 15).
Proof. shaped_eval. Qed.

Lemma Sigma_example_symmetric : symmetric 15 Sigma_example.
Proof.
  apply transpose_eq_symmetric; [exact Sigma_example_shaped|].
  unfold Sigma_example, diag3. mat_eval. reflexivity.
Qed.

Lemma zero_15_symmetric : symmetric 15 (RM.Zero 15 15).
Proof.
  apply transpose_eq_symmetric; [shaped_eval | mat_eval; reflexivity].
Qed.

Lemma identity_array_symmetric :
  symmetric 6 (of_array6 (to_array6 (RM.Identity 6 6))).
Proof.
  apply transpose_eq_symmetric; [shaped_eval | mat_eval; reflexivity].
Qed.

(** X16. Propagation keeps the covariance symmetric: if [Sigma] is a
    symmetric 15 x 15 matrix, so is [Fx Sigma Fx^T + Fn Q Fn^T]. *)
Theorem propagation_keeps_symmetry (f : ESKF) :
  symmetric 15 (_Sigma (cov f)) ->
  symmetric 15 (_Sigma (cov (propagate_covariance f))).
Proof.
  intros HS. unfold propagate_covariance. cbn [cov with_cov _Sigma].
  apply add_symmetric.
  - apply (congruence_symmetric 14 14); [apply jacobian_Fx_shaped | exact HS].
  - apply (congruence_symmetric 14 11);
      [apply jacobian_Fn_shaped | apply noise_Q_symmetric].
Qed.

Lemma propagation_keeps_symmetry_witness :
  symmetric 15 (_Sigma (cov (propagate_covariance filter_example))).
Proof.
  exact (propagation_keeps_symmetry filter_example Sigma_example_symmetric).
Defined.

(** X17. The Joseph form of the measurement update keeps the covariance
    symmetric whatever the gain is: for a symmetric [Sigma], a symmetric
    observation covariance and a 6 x 6 result of [inverse], the updated
    [Sigma] is a symmetric 15 x 15 matrix, also when [inverse] did not
    return an inverse. *)
Theorem joseph_keeps_symmetry {lib : Library} (f : ESKF) :
  symmetric 15 (_Sigma (cov f)) ->
  symmetric 6 (_m_pose_sigma (meas f)) ->
  RM.shaped 6 6 (inverse (innovation_cov f)) ->
  symmetric 15 (_Sigma (cov (update_error f))).
Proof.
  intros HS HR Hinv. unfold update_error. cbn [cov with_cov with_error _Sigma].
  assert (HK : RM.shaped 15 6 (gain_K f)).
  { unfold gain_K. apply (mul_shaped 15 5 6); [|exact Hinv].
    apply (mul_shaped 15 14 6); [apply HS|].
    apply (transpose_shaped 5 15), obs_H_shaped. }
  apply add_symmetric.
  - apply (congruence_symmetric 14 14); [|exact HS].
    apply (map2_shaped Rminus); [apply identity_15_shaped|].
    apply (mul_shaped 15 5 15); [exact HK | apply obs_H_shaped].
  - apply (congruence_symmetric 14 5); [exact HK | exact HR].
Qed.

Lemma inverse_observed_shaped :
  RM.shaped 6 6
    (inverse (Library := Reference.library) (innovation_cov filter_observed)).
Proof.
  unfold innovation_cov. rewrite innovation_observed.
  exact (proj1 (reference_inverse_contract _ identity_6_invertible)).
Qed.

Lemma joseph_keeps_symmetry_witness :
  symmetric 15
    (_Sigma (cov (update_error (lib := Reference.library) filter_observed))).
Proof.
  exact (joseph_keeps_symmetry (lib := Reference.library) filter_observed
           zero_15_symmetric identity_array_symmetric inverse_observed_shaped).
Defined.

(* ================================================================= *)
(** * The orientation of an inertial sample *)

Section Reorient.
Context {lib : Library}.
Variable q : tf.Quaternion.

Lemma reorient_same (f : ESKF) : reorient (_imu_orientation (imu f)) f = f.
Proof. destruct f as [? ? ? [] ? ? ? ? ?]. reflexivity. Qed.

Lemma update_time_reorient (m : msg.Imu) (f : ESKF) :
  update_time m (reorient q f) = reorient q (update_time m f).
Proof. reflexivity. Qed.

Lemma update_imu_reorient (m : msg.Imu) (f : ESKF) :
  update_imu m (reorient q f) = update_imu m f.
Proof. reflexivity. Qed.

Lemma propagate_state_reorient (f : ESKF) :
  propagate_state (reorient q f) = reorient q (propagate_state f).
Proof. reflexivity. Qed.

Lemma propagate_covariance_reorient (f : ESKF) :
  propagate_covariance (reorient q f) = reorient q (propagate_covariance f).
Proof. reflexivity. Qed.

Lemma propagate_reorient (f : ESKF) :
  propagate (reorient q f) = reorient q (propagate f).
Proof.
  unfold propagate, propagate_error.
  now rewrite propagate_state_reorient, propagate_covariance_reorient.
Qed.

Lemma update_error_reorient (f : ESKF) :
  update_error (reorient q f) = reorient q (update_error f).
Proof. reflexivity. Qed.

Lemma update_state_reorient (f : ESKF) :
  update_state (reorient q f) = reorient q (update_state f).
Proof. reflexivity. Qed.

Lemma reset_error_reorient (f : ESKF) :
  reset_error (reorient q f) = reorient q (reset_error f).
Proof. reflexivity. Qed.

Lemma correct_reorient (f : ESKF) :
  correct (reorient q f) = reorient q (correct f).
Proof.
  unfold correct.
  now rewrite update_error_reorient, update_state_reorient,
    reset_error_reorient.
Qed.

Lemma clear_reorient (f : ESKF) :
  clear_got_measurements (reorient q f)
  = reorient q (clear_got_measurements f).
Proof. reflexivity. Qed.

Lemma publish_odom_reorient (f : ESKF) :
  publish_odom (reorient q f) = publish_odom f.
Proof. reflexivity. Qed.

Lemma publish_bias_reorient (f : ESKF) :
  publish_bias (reorient q f) = publish_bias f.
Proof. reflexivity. Qed.

Lemma measurement_callback_reorient (m : msg.Odometry) (f : ESKF) :
  measurement_callback m (reorient q f) = reorient q (measurement_callback m f).
Proof. reflexivity. Qed.

(** After the two updates that open [imu_callback]. *)
Lemma imu_callback_from (m : msg.Imu) (f : ESKF) :
  imu_callback m f =
  let g := propagate (update_imu m (update_time m f)) in
  if _got_measurements (meas f)
  then (clear_got_measurements (correct g),
        [bias_pub (publish_bias (correct g));
         odom_pub (publish_odom (clear_got_measurements (correct g)))])
  else (g, [odom_pub (publish_odom g)]).
Proof.
  cbv zeta. destruct (_got_measurements (meas f)) eqn:E.
  - now rewrite imu_callback_pending.
  - now rewrite imu_callback_idle.
Qed.

Lemma imu_callback_reorient (m : msg.Imu) (f : ESKF) :
  imu_callback m (reorient q f) = imu_callback m f.
Proof.
  rewrite !imu_callback_from. cbv zeta.
  now rewrite update_time_reorient, update_imu_reorient.
Qed.
End Reorient.

Lemma update_imu_same_inertial {lib : Library} (m1 m2 : msg.Imu) (f : ESKF) :
  same_inertial m1 m2 ->
  update_imu m2 (update_time m2 f)
  = reorient (tf.mkQuaternion (msg.qx (msg.orientation m2))
                (msg.qy (msg.orientation m2)) (msg.qz (msg.orientation m2))
                (msg.qw (msg.orientation m2)))
      (update_imu m1 (update_time m1 f)).
Proof.
  intros (Hs & Hw & Ha). unfold update_imu, update_time.
  rewrite Hs, Hw, Ha. reflexivity.
Qed.

Lemma imu_callback_same_inertial {lib : Library} (m1 m2 : msg.Imu) (f : ESKF) :
  same_inertial m1 m2 ->
  orientation_blind (fst (imu_callback m1 f)) (fst (imu_callback m2 f)) /\
  snd (imu_callback m2 f) = snd (imu_callback m1 f).
Proof.
  intros Hsame. rewrite !imu_callback_from. cbv zeta.
  rewrite (update_imu_same_inertial m1 m2 f Hsame), propagate_reorient.
  set (g := propagate (update_imu m1 (update_time m1 f))).
  destruct (_got_measurements (meas f)); cbn [fst snd].
  - rewrite correct_reorient, clear_reorient, publish_bias_reorient,
      publish_odom_reorient.
    split; [eexists; reflexivity | reflexivity].
  - rewrite publish_odom_reorient.
    split; [eexists; reflexivity | reflexivity].
Qed.

Lemma handle_reorient {lib : Library} (ev : Event) (q : tf.Quaternion)
      (f : ESKF) :
  orientation_blind (fst (handle ev f)) (fst (handle ev (reorient q f))) /\
  snd (handle ev (reorient q f)) = snd (handle ev f).
Proof.
  destruct ev as [m|m]; unfold handle.
  - rewrite imu_callback_reorient.
    split; [exists (_imu_orientation (imu (fst (imu_callback m f))));
            symmetry; apply reorient_same | reflexivity].
  - cbn [fst snd]. split; [exists q; reflexivity | reflexivity].
Qed.

Lemma run_orientation_blind {lib : Library} (evs : list Event) (f g : ESKF) :
  orientation_blind f g ->
  orientation_blind (fst (run evs f)) (fst (run evs g)) /\
  snd (run evs g) = snd (run evs f).
Proof.
  revert f g. induction evs as [|ev evs IH]; intros f g Hfg.
  - cbn [run fst snd]. auto.
  - destruct Hfg as (q & ->).
    destruct (handle_reorient ev q f) as [H1 H2].
    cbn [run].
    destruct (handle ev f) as [f1 o1], (handle ev (reorient q f)) as [g1 p1].
    cbn [fst snd] in *. subst p1.
    destruct (IH f1 g1 H1) as [H3 H4].
    destruct (run evs f1) as [f2 o2], (run evs g1) as [g2 p2].
    cbn [fst snd] in *. now subst p2.
Qed.

Lemma orientation_blind_visible (f g : ESKF) :
  orientation_blind f g ->
  nominal g = nominal f /\ error g = error f /\ cov g = cov f /\
  meas g = meas f /\ clock g = clock f /\ queue g = queue f.
Proof. intros (q & ->). repeat split. Qed.

(** X18. The orientation that an inertial message carries is stored and
    never read: two samples with the same stamp, angular velocity and
    acceleration, whatever their orientations, lead, with whatever events
    follow, to the same published messages, nominal state, error state,
    covariances, stored observation, clock and queue. *)
Theorem imu_orientation_never_used {lib : Library}
        (f : ESKF) (m1 m2 : msg.Imu) (evs : list Event) :
  same_inertial m1 m2 ->
  let r1 := run (imu_event m1 :: evs) f in
  let r2 := run (imu_event m2 :: evs) f in
  snd r1 = snd r2 /\
  nominal (fst r1) = nominal (fst r2) /\
  error (fst r1) = error (fst r2) /\
  cov (fst r1) = cov (fst r2) /\
  meas (fst r1) = meas (fst r2) /\
  clock (fst r1) = clock (fst r2) /\
  queue (fst r1) = queue (fst r2).
Proof.
  intros Hsame. cbv zeta. cbn [run]. rewrite !handle_imu.
  destruct (imu_callback_same_inertial m1 m2 f Hsame) as [H1 H2].
  destruct (imu_callback m1 f) as [f1 o1], (imu_callback m2 f) as [g1 p1].
  cbn [fst snd] in H1, H2. subst p1.
  destruct (run_orientation_blind evs f1 g1 H1) as [H3 H4].
  destruct (run evs f1) as [f2 o2], (run evs g1) as [g2 p2].
  cbn [fst snd] in *. subst p2.
  destruct (orientation_blind_visible _ _ H3) as (-> & -> & -> & -> & -> & ->).
  repeat split.
Qed.

Lemma imu_orientation_never_used_witness :
  snd (run (lib := Reference.library)
           (imu_event quarter_turns :: events_example) filter_example)
  = snd (run (lib := Reference.library)
             (imu_event quarter_turns_tilted :: events_example) filter_example).
Proof.
  refine (proj1 (imu_orientation_never_used (lib := Reference.library)
                   filter_example quarter_turns quarter_turns_tilted
                   events_example _)).
  repeat split.
Defined.

(* ================================================================= *)
(** * The prior of the particle filter *)

Section PriorFacts.
Context {lib : Library}.

Lemma odom_callbacks_snoc (ms : list msg.Odometry) (m : msg.Odometry)
      (g : GPF) :
  odom_callbacks (ms ++ [m]) g = odom_callback m (odom_callbacks ms g).
Proof. unfold odom_callbacks. now rewrite fold_left_app. Qed.

(** Entries 4 and 5 of the mean and the Y and Z components of the angles
    are zero from the constructor on. *)
Lemma prior_untouched (ms : list msg.Odometry) :
  let g := odom_callbacks ms GPF_GPF in
  (exists a0 a1 a2 a3, _mean_prior g = RM.colvec [a0; a1; a2; a3; 0; 0]) /\
  tf.y (_theta_prior g) = 0 /\ tf.z (_theta_prior g) = 0.
Proof.
  cbv zeta. induction ms as [|m ms IH] using rev_ind.
  - split; [exists 0, 0, 0, 0; reflexivity | split; reflexivity].
  - rewrite odom_callbacks_snoc.
    destruct IH as ((a0 & a1 & a2 & a3 & Hm) & Hy & Hz).
    unfold odom_callback. cbn [_mean_prior _theta_prior]. rewrite Hm.
    split; [do 4 eexists; reflexivity | split; assumption].
Qed.

(** X19. From the constructor on, after any odometry messages, the last
    one [m] leaves the prior mean [(x, y, z, yaw, 0, 0)] and the prior
    angles [(yaw, 0, 0)]: the yaw of [m] stands where the roll belongs and
    its roll and pitch are dropped.  Position, quaternion, rotation and
    covariance of the prior are those of [m]. *)
Theorem prior_ignores_roll_pitch (ms : list msg.Odometry) (m : msg.Odometry) :
  let g := odom_callbacks (ms ++ [m]) GPF_GPF in
  let p := msg.pose_position m in
  let o := msg.pose_orientation m in
  _mean_prior g = RM.colvec [msg.x p; msg.y p; msg.z p; yaw_of m; 0; 0] /\
  _theta_prior g = tf.mkVector3 (yaw_of m) 0 0 /\
  _position_prior g = msg.vector3MsgToTF p /\
  _quaternion_prior g
    = tf.mkQuaternion (msg.qx o) (msg.qy o) (msg.qz o) (msg.qw o) /\
  _rotation_prior g = setRotation (_quaternion_prior g) /\
  _cov_prior g = of_array6 (msg.pose_covariance m).
Proof.
  cbv zeta. rewrite odom_callbacks_snoc.
  destruct (prior_untouched ms) as ((a0 & a1 & a2 & a3 & Hm) & Hy & Hz).
  cbv zeta in Hm, Hy, Hz.
  unfold odom_callback.
  cbn [_mean_prior _theta_prior _position_prior _quaternion_prior
       _rotation_prior _cov_prior].
  rewrite Hm. unfold setX, setY, setZ, yaw_of. cbn [tf.x tf.y tf.z].
  rewrite Hy, Hz.
  repeat split.
Qed.

Lemma cov_prior_array (m : msg.Odometry) (g : GPF) :
  _cov_prior (odom_callback m g) = of_array6 (msg.pose_covariance m).
Proof. reflexivity. Qed.

(** X20. The odometry of the error-state filter as the prior of the
    particle filter: position, quaternion and rotation of the prior are
    those of the nominal state, and the prior covariance is the 6 x 6 pose
    covariance, position first, that [publish_odom] assembles. *)
Theorem prior_from_filter_odometry (f : ESKF) (g : GPF) :
  RM.shaped 15 15 (_Sigma (cov f)) ->
  let g' := odom_callback (publish_odom f) g in
  _position_prior g' = _position (nominal f) /\
  _quaternion_prior g' = _quaternion (nominal f) /\
  _rotation_prior g' = setRotation (_quaternion (nominal f)) /\
  _cov_prior g' = pose_sigma f.
Proof.
  intros HS. cbv zeta.
  assert (Hq : _quaternion_prior (odom_callback (publish_odom f) g)
               = _quaternion (nominal f)).
  { unfold odom_callback, publish_odom.
    cbn [_quaternion_prior msg.pose_orientation msg.qx msg.qy msg.qz msg.qw].
    now destruct (_quaternion (nominal f)). }
  repeat match goal with |- _ /\ _ => split end.
  - unfold odom_callback, publish_odom, setX, setY, setZ.
    cbn [_position_prior msg.pose_position msg.x msg.y msg.z tf.x tf.y tf.z].
    now destruct (_position (nominal f)).
  - exact Hq.
  - rewrite <- Hq. reflexivity.
  - rewrite cov_prior_array. unfold publish_odom. cbn [msg.pose_covariance].
    apply of_array6_to_array6, pose_sigma_shaped, HS.
Qed.
End PriorFacts.

Lemma prior_from_filter_odometry_witness :
  let g' := odom_callback (lib := Reference.library)
              (publish_odom filter_example)
              (GPF_GPF (lib := Reference.library)) in
  _position_prior g' = _position (nominal filter_example) /\
  _quaternion_prior g' = _quaternion (nominal filter_example) /\
  _rotation_prior g'
    = setRotation (Library := Reference.library)
        (_quaternion (nominal filter_example)) /\
  _cov_prior g' = pose_sigma filter_example.
Proof.
  exact (prior_from_filter_odometry (lib := Reference.library) filter_example
           (GPF_GPF (lib := Reference.library)) Sigma_example_shaped).
Defined.

(* ================================================================= *)
(** * The colours of the particles *)

Lemma Rltb_true (a b : R) : a < b -> Rltb a b = true.
Proof. intros H. unfold Rltb. destruct (Rlt_dec a b); [reflexivity | contradiction]. Qed.

Lemma Rltb_false (a b : R) : b <= a -> Rltb a b = false.
Proof. intros H. unfold Rltb. destruct (Rlt_dec a b); [lra | reflexivity]. Qed.

Lemma Rleb_true (a b : R) : a <= b -> Rleb a b = true.
Proof. intros H. unfold Rleb. destruct (Rle_dec a b); [reflexivity | contradiction]. Qed.

Lemma ddiv_fin (x y : R) : y <> 0 -> ddiv (Fin x) (Fin y) = Fin (x / y).
Proof.
  intros H. unfold ddiv. destruct (Req_dec_T y 0); [contradiction | reflexivity].
Qed.

Lemma ddiv_zero_zero (x y : R) : x = 0 -> y = 0 -> ddiv (Fin x) (Fin y) = NaN.
Proof.
  intros Hx Hy. unfold ddiv.
  destruct (Req_dec_T y 0); [|contradiction].
  destruct (Req_dec_T x 0); [reflexivity | contradiction].
Qed.

Lemma weight_range_from (ps : list Particle) (ws : list R) (lo hi : R) :
  map weight ps = map Fin ws ->
  fold_left
    (fun mm p =>
       let maxWeight := if dlt (snd mm) (weight p) then weight p else snd mm in
       let minWeight := if dlt (weight p) (fst mm) then weight p else fst mm in
       (minWeight, maxWeight))
    ps (Fin lo, Fin hi)
  = (Fin (fold_left Rmin ws lo), Fin (fold_left Rmax ws hi)).
Proof.
  revert ws lo hi. induction ps as [|p ps IH]; intros [|w ws] lo hi H;
    try discriminate; [reflexivity|].
  cbn [map] in H. injection H as Hp Hps.
  cbn [fold_left fst snd]. rewrite Hp. cbn [dlt].
  replace (if Rltb hi w then Fin w else Fin hi) with (Fin (Rmax hi w)).
  2:{ unfold Rltb, Rmax.
      destruct (Rlt_dec hi w), (Rle_dec hi w); try reflexivity; f_equal; lra. }
  replace (if Rltb w lo then Fin w else Fin lo) with (Fin (Rmin lo w)).
  2:{ unfold Rltb, Rmin.
      destruct (Rlt_dec w lo), (Rle_dec lo w); try reflexivity; f_equal; lra. }
  now apply IH.
Qed.

Lemma weight_range_finite (ps : list Particle) (ws : list R) :
  map weight ps = map Fin ws -> ws <> [] ->
  weight_range ps = (Fin (minimum ws), Fin (maximum ws)).
Proof.
  intros H Hne. destruct ws as [|w ws]; [contradiction|].
  destruct ps as [|p ps]; [discriminate|].
  cbn [map] in H. injection H as Hp Hps.
  unfold weight_range. cbn [fold_left fst snd]. rewrite Hp. cbn [dlt].
  now apply weight_range_from.
Qed.

Lemma fold_Rmin_le (ws : list R) (lo : R) :
  fold_left Rmin ws lo <= lo /\
  forall w, In w ws -> fold_left Rmin ws lo <= w.
Proof.
  revert lo. induction ws as [|v ws IH]; intros lo; cbn [fold_left].
  - split; [lra | intros w []].
  - destruct (IH (Rmin lo v)) as [H1 H2].
    pose proof (Rmin_l lo v). pose proof (Rmin_r lo v).
    split; [lra|]. intros w [->|Hin]; [lra | auto].
Qed.

Lemma fold_Rmax_ge (ws : list R) (hi : R) :
  hi <= fold_left Rmax ws hi /\
  forall w, In w ws -> w <= fold_left Rmax ws hi.
Proof.
  revert hi. induction ws as [|v ws IH]; intros hi; cbn [fold_left].
  - split; [lra | intros w []].
  - destruct (IH (Rmax hi v)) as [H1 H2].
    pose proof (Rmax_l hi v). pose proof (Rmax_r hi v).
    split; [lra|]. intros w [->|Hin]; [lra | auto].
Qed.

Lemma between_extremes (ws : list R) (w : R) :
  In w ws -> minimum ws <= w <= maximum ws.
Proof.
  destruct ws as [|v ws]; [intros []|]. unfold minimum, maximum.
  destruct (fold_Rmin_le ws v) as [H1 H2], (fold_Rmax_ge ws v) as [H3 H4].
  intros [->|Hin]; split; auto.
Qed.

Lemma compute_color_nth (ps : list Particle) (ws : list R) (i : nat) (w : R) :
  map weight ps = map Fin ws -> nth_error ws i = Some w ->
  exists p, nth_error ps i = Some p /\ weight p = Fin w.
Proof.
  revert ws i. induction ps as [|p ps IH]; intros [|v ws] i H Hi;
    try discriminate.
  - destruct i; discriminate.
  - cbn [map] in H. injection H as Hp Hps. destruct i as [|i].
    + injection Hi as ->. exists p. split; [reflexivity | exact Hp].
    + cbn [nth_error] in *. eauto.
Qed.

(** X21. For finite weights that are not all equal, [compute_color] gives
    particle [i] the colour [(r, g, 0)] with [r] and [g] between 0 and 1
    and one of them 1: the branch that paints blue is never taken.  The
    least weight is green [(0, 1, 0)] and the greatest red [(1, 0, 0)]. *)
Theorem compute_color_scale (particle : list Particle) (ws : list R) :
  map weight particle = map Fin ws ->
  let lo := minimum ws in
  let hi := maximum ws in
  lo < hi ->
  forall i w, nth_error ws i = Some w ->
  exists r g,
    nth_error (compute_color particle) i = Some [Fin r; Fin g; Fin 0.0] /\
    0 <= r <= 1 /\ 0 <= g <= 1 /\ (r = 1 \/ g = 1) /\
    (w = lo -> r = 0 /\ g = 1) /\
    (w = hi -> r = 1 /\ g = 0).
Proof.
  intros Hws lo hi Hlt i w Hi.
  assert (Hne : ws <> []) by (intros ->; destruct i; discriminate).
  destruct (compute_color_nth particle ws i w Hws Hi) as (p & Hp & Hw).
  pose proof (between_extremes ws w (nth_error_In ws i Hi)) as Hb.
  fold lo hi in Hb.
  unfold compute_color. rewrite (weight_range_finite particle ws Hws Hne).
  fold lo hi. cbn [fst snd dadd].
  rewrite ddiv_fin by lra.
  rewrite nth_error_map, Hp. cbn [option_map]. rewrite Hw.
  cbn [dle dlt dsub dopp dadd].
  set (mid := (hi + lo) / 2.0).
  assert (Hmid : lo < mid < hi) by (unfold mid; lra).
  rewrite (Rleb_true lo w) by lra. cbn [andb].
  destruct (Rlt_dec w mid) as [Hwm|Hwm].
  - rewrite (Rltb_true w mid Hwm), ddiv_fin by lra.
    exists ((w + - lo) / (mid + - lo)), 1.0.
    assert (Hr : 0 <= (w + - lo) / (mid + - lo) < 1).
    { split.
      - apply Rmult_le_pos; [lra|]. left. apply Rinv_0_lt_compat. lra.
      - apply (Rmult_lt_reg_r (mid + - lo)); [lra|]. field_simplify; lra. }
    split; [reflexivity|].
    split; [lra|]. split; [lra|]. split; [right; lra|].
    split.
    + intros Hwl. split; [|lra]. rewrite Hwl. unfold Rdiv. ring.
    + intros Hwh. lra.
  - rewrite (Rltb_false w mid) by lra.
    rewrite (Rleb_true mid w), (Rleb_true w hi) by lra. cbn [andb].
    rewrite ddiv_fin by lra. cbn [dsub dopp dadd].
    exists 1.0, (1.0 + - ((w + - mid) / (hi + - mid))).
    assert (Hg : 0 <= (w + - mid) / (hi + - mid) <= 1).
    { split.
      - apply Rmult_le_pos; [lra|]. left. apply Rinv_0_lt_compat. lra.
      - apply (Rmult_le_reg_r (hi + - mid)); [lra|]. field_simplify; lra. }
    split; [reflexivity|].
    split; [lra|]. split; [lra|]. split; [left; lra|].
    split.
    + intros Hwl. lra.
    + intros Hwh. split; [lra|]. rewrite Hwh.
      replace ((hi + - mid) / (hi + - mid)) with 1 by (field; lra). lra.
Qed.

Lemma map_repeat_const {A B : Type} (b : B) (l : list A) (g : A -> B) :
  Forall (fun a => g a = b) l -> map g l = map (fun _ => b) l.
Proof.
  induction 1 as [|a l Ha _ IH]; [reflexivity|]. cbn [map]. now rewrite Ha, IH.
Qed.

Lemma fold_Rmin_const (l : list R) (w : R) :
  Forall (fun v => v = w) l -> fold_left Rmin l w = w.
Proof.
  induction 1 as [|v l Hv _ IH]; [reflexivity|]. cbn [fold_left]. subst v.
  unfold Rmin. destruct (Rle_dec w w); exact IH.
Qed.

Lemma fold_Rmax_const (l : list R) (w : R) :
  Forall (fun v => v = w) l -> fold_left Rmax l w = w.
Proof.
  induction 1 as [|v l Hv _ IH]; [reflexivity|]. cbn [fold_left]. subst v.
  unfold Rmax. destruct (Rle_dec w w); exact IH.
Qed.

(** X22. When all particles have the same finite weight the scale
    collapses: the middle weight is that weight, the green component is
    [1 - 0/0], and every particle gets the colour [(1, NaN, 0)]. *)
Theorem compute_color_equal_weights (particle : list Particle) (w : R) :
  particle <> [] ->
  Forall (fun p => weight p = Fin w) particle ->
  compute_color particle = map (fun _ => [Fin 1.0; NaN; Fin 0.0]) particle.
Proof.
  intros Hne Hall.
  assert (Hws : map weight particle
                = map Fin (map (fun _ => w) particle)).
  { rewrite map_map. now apply map_repeat_const. }
  assert (Hne' : map (fun _ : Particle => w) particle <> []).
  { destruct particle; [contradiction | discriminate]. }
  assert (Hc : Forall (fun v => v = w) (map (fun _ : Particle => w) particle)).
  { apply Forall_map, Forall_forall. reflexivity. }
  unfold compute_color.
  rewrite (weight_range_finite particle _ Hws Hne').
  assert (Hmin : minimum (map (fun _ : Particle => w) particle) = w).
  { destruct particle as [|p ps]; [contradiction|]. cbn [map minimum].
    apply fold_Rmin_const. now inversion Hc. }
  assert (Hmax : maximum (map (fun _ : Particle => w) particle) = w).
  { destruct particle as [|p ps]; [contradiction|]. cbn [map maximum].
    apply fold_Rmax_const. now inversion Hc. }
  rewrite Hmin, Hmax. cbn [fst snd dadd]. rewrite ddiv_fin by lra.
  apply map_ext_in. intros p Hp.
  rewrite Forall_forall in Hall. rewrite (Hall p Hp).
  cbn [dle dlt dsub dopp dadd].
  rewrite (Rleb_true w w), (Rltb_false w ((w + w) / 2.0)) by lra.
  rewrite (Rleb_true ((w + w) / 2.0) w) by lra. cbn [andb].
  rewrite ddiv_zero_zero by lra. reflexivity.
Qed.

Lemma extremes_example : minimum [1; 3; 2] = 1 /\ maximum [1; 3; 2] = 3.
Proof.
  unfold minimum, maximum. cbn [fold_left].
  rewrite (Rmin_left 1 3), (Rmin_left 1 2) by lra.
  rewrite (Rmax_right 1 3), (Rmax_left 3 2) by lra.
  split; reflexivity.
Qed.

Lemma compute_color_scale_witness :
  exists r g,
    nth_error (compute_color particles_example) 1
    = Some [Fin r; Fin g; Fin 0.0] /\
    0 <= r <= 1 /\ 0 <= g <= 1 /\ (r = 1 \/ g = 1) /\
    (3 = minimum [1; 3; 2] -> r = 0 /\ g = 1) /\
    (3 = maximum [1; 3; 2] -> r = 1 /\ g = 0).
Proof.
  refine (compute_color_scale particles_example [1; 3; 2] eq_refl _ 1%nat 3
            eq_refl).
  destruct extremes_example as [-> ->]. lra.
Defined.

Lemma compute_color_equal_weights_witness :
  compute_color particles_equal
  = map (fun _ => [Fin 1.0; NaN; Fin 0.0]) particles_equal.
Proof.
  refine (compute_color_equal_weights particles_equal 1 _ _).
  - discriminate.
  - repeat constructor.
Defined.
